(** * A toy substitution-permutation network and its linear / differential
      cryptanalysis: shallow embedding and verified properties.

    The Python sources are embedded function by function:
    - [spn/spn.py]                 -> [Module SPN]
    - [cryptanalysis/searcher.py]  -> [Module CharacteristicSearcher]
    - [cryptanalysis/framework.py] -> [Module FrameworkProvider]
    - [cryptanalysis.py]           -> [Module Cryptanalysis]

    Python integers are unbounded, so they are [Z]; [>>], [<<], [&], [|]
    and [^] are [Z.shiftr], [Z.shiftl], [Z.land], [Z.lor] and [Z.lxor].
    Python floats that the code only produces as quotients of small
    integers are exact rationals [Q]; they are compared with [Qeq].
    Exceptions are values of an error monad. *)

From Stdlib Require Import ZArith QArith Lia String.
From stdpp Require Import gmap list list_numbers sets strings.

Local Open Scope Z_scope.

(** ** Python primitives *)

Module Py.

Inductive exn : Type :=
| IndexError
| ValueError
| TypeError
| ZeroDivisionError
| AssertionError
| Z3Exception.

Inductive result (A : Type) : Type :=
| Ok (a : A)
| Raise (e : exn).
Arguments Ok {A} a.
Arguments Raise {A} e.

#[global] Instance result_ret : MRet result := @Ok.
#[global] Instance result_bind : MBind result := fun A B f r =>
  match r with
  | Ok a => f a
  | Raise e => Raise e
  end.

(** [for x in l: acc = f(acc, x)], stopping at the first exception. *)
Fixpoint for_each {A B : Type} (l : list A) (f : B -> A -> result B) (acc : B)
  : result B :=
  match l with
  | [] => Ok acc
  | x :: rest => acc' ← f acc x; for_each rest f acc'
  end.

(** [range(n)] and [range(a, b)]. *)
Definition range (n : Z) : list Z := seqZ 0 n.
Definition range2 (a b : Z) : list Z := seqZ a (b - a).

(** [l[i]]: negative indices count from the end, anything else out of
    range raises [IndexError]. *)
Definition norm_index {A : Type} (l : list A) (i : Z) : result nat :=
  let n := Z.of_nat (length l) in
  if decide (0 <= i < n) then Ok (Z.to_nat i)
  else if decide (- n <= i < 0) then Ok (Z.to_nat (n + i))
  else Raise IndexError.

Definition getitem {A : Type} (l : list A) (i : Z) : result A :=
  k ← norm_index l i;
  match l !! k with
  | Some x => Ok x
  | None => Raise IndexError
  end.

(** [l[i] = x]. *)
Definition setitem {A : Type} (l : list A) (i : Z) (x : A) : result (list A) :=
  k ← norm_index l i; Ok (<[k := x]> l).

(** [a << b]: a negative shift count raises [ValueError]. *)
Definition shl (a b : Z) : result Z :=
  if decide (b < 0) then Raise ValueError else Ok (Z.shiftl a b).

(** [bin(z).count("1")]: the number of one bits of the magnitude of [z]
    (for a negative [z], [bin] prints a sign and the magnitude). *)
Fixpoint pos_ones (p : positive) : Z :=
  match p with
  | xH => 1
  | xO q => pos_ones q
  | xI q => 1 + pos_ones q
  end.

Definition popcount (z : Z) : Z :=
  match z with
  | Z0 => 0
  | Zpos p => pos_ones p
  | Zneg p => pos_ones p
  end.

(** [a / b] on integers, as an exact rational. *)
Definition truediv (a b : Z) : result Q :=
  if decide (b = 0) then Raise ZeroDivisionError
  else Ok (Qmake (Z.sgn b * a) (Z.to_pos (Z.abs b))).

End Py.
Import Py.

(** ** spn/spn.py *)

Module SPN.

Record t : Type := Build {
  sbox : list Z;
  inv_sbox : list Z;
  pbox : list Z;
  inv_pbox : list Z;
  rounds : Z;
  round_keys : list Z
}.

(** [inv = [0] * 16; for i, val in enumerate(table): inv[val] = i] *)
Definition invert_table (table : list Z) : result (list Z) :=
  for_each (zip (seqZ 0 (Z.of_nat (length table))) table)
           (fun inv '(i, val) => setitem inv val i)
           (replicate 16 0).

Definition __init__ (sbox pbox round_keys : list Z) (rounds : Z) : result t :=
  inv_sbox ← invert_table sbox;
  inv_pbox ← invert_table pbox;
  Ok (Build sbox inv_sbox pbox inv_pbox rounds round_keys).

(** The loop shared by [_substitution] and [_inv_substitution]. *)
Definition substitute (table : list Z) (state : Z) : result Z :=
  for_each (range 4)
           (fun output i =>
              let nibble := Z.land (Z.shiftr state (i * 4)) 15 in
              v ← getitem table nibble;
              Ok (Z.lor output (Z.shiftl v (i * 4))))
           0.

Definition _substitution (self : t) (state : Z) : result Z :=
  substitute (sbox self) state.

Definition _inv_substitution (self : t) (state : Z) : result Z :=
  substitute (inv_sbox self) state.

(** The loop shared by [_permutation] and [_inv_permutation]. *)
Definition permute (table : list Z) (state : Z) : result Z :=
  for_each (range 16)
           (fun permuted i =>
              let bit := Z.land (Z.shiftr state i) 1 in
              p ← getitem table i;
              b ← shl bit p;
              Ok (Z.lor permuted b))
           0.

Definition _permutation (self : t) (state : Z) : result Z :=
  permute (pbox self) state.

Definition _inv_permutation (self : t) (state : Z) : result Z :=
  permute (inv_pbox self) state.

Definition encrypt_round (self : t) (num_rounds : Z) (state i : Z) : result Z :=
  k ← getitem (round_keys self) (i - 1);
  state ← _substitution self (Z.lxor state k);
  if decide (i ≠ num_rounds) then _permutation self state else Ok state.

Definition encrypt (self : t) (plaintext num_rounds : Z) : result Z :=
  state ← for_each (range2 1 (num_rounds + 1)) (encrypt_round self num_rounds)
                   plaintext;
  k ← getitem (round_keys self) num_rounds;
  Ok (Z.lxor state k).

(** The source calls [_permutation] here, not [_inv_permutation]. *)
Definition decrypt_round (self : t) (num_rounds : Z) (state i : Z) : result Z :=
  state ← (if decide (i ≠ num_rounds) then _permutation self state else Ok state);
  state ← _inv_substitution self state;
  k ← getitem (round_keys self) (i - 1);
  Ok (Z.lxor state k).

Definition decrypt (self : t) (ciphertext num_rounds : Z) : result Z :=
  k ← getitem (round_keys self) num_rounds;
  for_each (reverse (range2 1 (num_rounds + 1))) (decrypt_round self num_rounds)
           (Z.lxor ciphertext k).

End SPN.

(** The configuration used by the repository's tests. *)
Definition test_sbox : list Z := [11; 1; 13; 7; 12; 9; 3; 15; 0; 10; 8; 6; 2; 5; 4; 14].
Definition test_pbox : list Z := [12; 8; 13; 9; 2; 0; 15; 5; 6; 7; 10; 14; 11; 3; 4; 1].
Definition test_round_keys : list Z := [0x1234; 0xEA5E; 0xBABE; 0xAD06; 0xCAFE].

(** ** cryptanalysis/searcher.py *)

Module CharacteristicSearcher.

(** *** The fragment of the solver's term language the searcher uses *)

(** [BitVec("in_r", 16)] and [BitVec("out_r", 16)]. *)
Inductive bvar : Type :=
| In_ (r : Z)
| Out_ (r : Z).

(** [Real("prob_r{r}_n{i}")] and [Real("total_bias")]. *)
Inductive rvar : Type :=
| Prob (r i : Z)
| TotalBias.

(** [Bool("active_r{r}_sbox_{i}")]. *)
Inductive bovar : Type :=
| Active (r i : Z).

Inductive bvexpr : Type :=
| BV (v : bvar)
| Extract (hi lo : Z) (v : bvar).

Inductive rexpr : Type :=
| RVar (v : rvar)
| RConst (q : Q)
| RMul (a b : rexpr).

#[local] Unset Elimination Schemes.
Inductive formula : Type :=
| BvEqC (e : bvexpr) (c : Z)           (* e == c, c a Python int *)
| BvNeC (e : bvexpr) (c : Z)           (* e != c *)
| BvEq (e1 e2 : bvexpr)                (* e1 == e2 *)
| RealEq (x y : rexpr)                 (* x == y *)
| BoolEq (b : bovar) (f : formula)     (* b == f *)
| Implies (f g : formula)
| And (fs : list formula)
| Or (fs : list formula)
| AtMost (bs : list bovar) (k : Z).    (* Sum([If(b, 1, 0) for b in bs]) <= k *)
#[local] Set Elimination Schemes.

(** [Extract(high, low, a)] on a 16-bit vector; the solver rejects
    ill-formed bounds. *)
Definition mk_extract (hi lo : Z) (v : bvar) : result bvexpr :=
  if decide (0 <= lo <= hi /\ hi < 16) then Ok (Extract hi lo v)
  else Raise Z3Exception.

(** The state of an [Optimize()] object: assertions in the order they
    were added, and the objectives to maximise. *)
Record optimize : Type := Optimize {
  assertions : list formula;
  objectives : list rexpr
}.

Definition solver_add (s : optimize) (f : formula) : optimize :=
  Optimize (assertions s ++ [f]) (objectives s).

Definition solver_maximize (s : optimize) (e : rexpr) : optimize :=
  Optimize (assertions s) (objectives s ++ [e]).

(** *** Models and satisfaction *)

Record model : Type := Model {
  bv_val : bvar -> Z;
  real_val : rvar -> Q;
  bool_val : bovar -> bool
}.

(** [check()] followed by [model()]: the solver answers [sat] and gives a
    model, or it answers something else. *)
Definition checker : Type := optimize -> option model.

(** [model.evaluate(v).as_long()] for a 16-bit vector. *)
Definition as_long (m : model) (v : bvar) : Z := bv_val m v mod 2 ^ 16.

Definition width (e : bvexpr) : Z :=
  match e with
  | BV _ => 16
  | Extract hi lo _ => hi - lo + 1
  end.

Definition eval_bv (m : model) (e : bvexpr) : Z :=
  match e with
  | BV v => as_long m v
  | Extract hi lo v => Z.land (Z.shiftr (as_long m v) lo) (Z.ones (hi - lo + 1))
  end.

Fixpoint eval_real (m : model) (e : rexpr) : Q :=
  match e with
  | RVar v => real_val m v
  | RConst q => q
  | RMul a b => (eval_real m a * eval_real m b)%Q
  end.

Definition count_true (m : model) (bs : list bovar) : Z :=
  foldr (fun b n => if bool_val m b then 1 + n else n) 0 bs.

Fixpoint eval (m : model) (f : formula) : bool :=
  match f with
  | BvEqC e c => bool_decide (eval_bv m e = c mod 2 ^ width e)
  | BvNeC e c => bool_decide (eval_bv m e ≠ c mod 2 ^ width e)
  | BvEq e1 e2 => bool_decide (eval_bv m e1 = eval_bv m e2)
  | RealEq x y => Qeq_bool (eval_real m x) (eval_real m y)
  | BoolEq b g => Bool.eqb (bool_val m b) (eval m g)
  | Implies g h => implb (eval m g) (eval m h)
  | And fs => forallb (eval m) fs
  | Or fs => existsb (eval m) fs
  | AtMost bs k => bool_decide (count_true m bs <= k)
  end.

Definition satisfies (m : model) (s : optimize) : Prop :=
  Forall (fun f => eval m f = true) (assertions s).

(** *** The searcher object *)

Record t : Type := Build {
  spn : SPN.t;
  num_rounds : Z;
  variant : string;
  max_active_sboxes : option Z;
  look_up_table : gmap (Z * Z) Q;
  solver : optimize;
  in_masks : list bvar;
  out_masks : list bvar;
  active_sboxes_per_round : list (list bovar);
  prob_terms : list rexpr
}.

Definition sentinel : Q := 1 # 1000000.

(** The innermost loop of [_compute_look_up_table]. *)
Definition count_matches (variant : string) (sbox : list Z) (alpha beta : Z)
  : result Z :=
  for_each (range 16)
    (fun count x =>
       count ← (if decide (variant = "linear"%string) then
                  let in_parity := popcount (Z.land alpha x) mod 2 in
                  sx ← getitem sbox x;
                  let out_parity := popcount (Z.land beta sx) mod 2 in
                  Ok (if decide (in_parity = out_parity) then count + 1 else count)
                else Ok count);
       if decide (variant = "differential"%string) then
         sx ← getitem sbox x;
         sxa ← getitem sbox (Z.lxor x alpha);
         let dy := Z.lxor sx sxa in
         Ok (if decide (dy = beta) then count + 1 else count)
       else Ok count)
    0.

(** [prob = count / 16]. *)
Definition prob_of (count : Z) : Q := count # 16.

Definition store_entry (variant : string) (alpha beta : Z) (prob : Q)
    (table : gmap (Z * Z) Q) : gmap (Z * Z) Q :=
  let table :=
    if decide (variant = "linear"%string) then
      <[(alpha, beta) := if Qeq_bool (prob - (1 # 2)) 0 then sentinel
                         else (prob - (1 # 2))%Q]> table
    else table in
  if decide (variant = "differential"%string) then
    <[(alpha, beta) := if Qeq_bool prob 0 then sentinel else prob]> table
  else table.

Definition compute_look_up_table (variant : string) (sbox : list Z)
  : result (gmap (Z * Z) Q) :=
  for_each (range 16)
    (fun table alpha =>
       for_each (range 16)
         (fun table beta =>
            count ← count_matches variant sbox alpha beta;
            Ok (store_entry variant alpha beta (prob_of count) table))
         table)
    ∅.

Definition _compute_look_up_table (self_spn : SPN.t) (self_variant : string)
  : result (gmap (Z * Z) Q) :=
  compute_look_up_table self_variant (SPN.sbox self_spn).

Definition _define_variables (self : t) : t :=
  Build (spn self) (num_rounds self) (variant self) (max_active_sboxes self)
        (look_up_table self) (solver self)
        (In_ <$> range (num_rounds self + 1))
        (Out_ <$> range (num_rounds self + 1))
        []
        (prob_terms self).

(** One pass of the [for i in range(4)] loop of [_add_constraints], for
    round [r]. The loop state is the solver, [prob_terms], and the
    round's [constraints] and [active_sboxes] lists. *)
Definition nibble_constraints (self : t) (r : Z)
    (st : optimize * list rexpr * list formula * list bovar) (i : Z)
  : result (optimize * list rexpr * list formula * list bovar) :=
  let '(slv, prob_terms, constraints, active_sboxes) := st in
  in_r ← getitem (in_masks self) r;
  in_nib ← mk_extract ((i + 1) * 4 - 1) (i * 4) in_r;
  out_r ← getitem (out_masks self) r;
  out_nib ← mk_extract ((i + 1) * 4 - 1) (i * 4) out_r;
  let constraints := constraints ++ [Implies (BvEqC in_nib 0) (BvEqC out_nib 0)] in
  let prob := RVar (Prob r i) in
  let val :=
    (fun '((a, b), v) =>
       And [BvEqC in_nib a; BvEqC out_nib b; RealEq prob (RConst v)])
      <$> map_to_list (look_up_table self) in
  let slv := solver_add slv (Or val) in
  let prob_terms := prob_terms ++ [prob] in
  let is_active := Active r i in
  let slv := solver_add slv (BoolEq is_active (BvNeC in_nib 0)) in
  Ok (slv, prob_terms, constraints, active_sboxes ++ [is_active]).

(** One pass of the [for i in range(16)] loop: the bit permutation
    between [out_masks[r]] and [in_masks[r + 1]]. *)
Definition permutation_constraint (self : t) (r : Z) (slv : optimize) (i : Z)
  : result optimize :=
  out_r ← getitem (out_masks self) r;
  bit ← mk_extract i i out_r;
  p ← getitem (SPN.pbox (spn self)) i;
  in_next ← getitem (in_masks self) (r + 1);
  moved ← mk_extract p p in_next;
  Ok (solver_add slv (BvEq moved bit)).

(** One pass of the [for r in range(self.num_rounds)] loop. *)
Definition round_constraints (self : t)
    (st : optimize * list rexpr * list (list bovar)) (r : Z)
  : result (optimize * list rexpr * list (list bovar)) :=
  let '(slv, prob_terms, per_round) := st in
  '(slv, prob_terms, constraints, active_sboxes) ←
    for_each (range 4) (nibble_constraints self r) (slv, prob_terms, [], []);
  let per_round := per_round ++ [active_sboxes] in
  let slv := solver_add slv (And constraints) in
  slv ← for_each (range 16) (permutation_constraint self r) slv;
  Ok (slv, prob_terms, per_round).

(** [reduce(lambda x, y: x * y, prob_terms)]: an empty sequence without
    an initial value raises [TypeError]. *)
Definition reduce_mul (terms : list rexpr) : result rexpr :=
  match terms with
  | [] => Raise TypeError
  | x :: rest => Ok (foldl RMul x rest)
  end.

Definition _add_constraints (self : t) : result t :=
  '(slv, prob_terms, per_round) ←
    for_each (range (num_rounds self)) (round_constraints self)
             (solver self, [], active_sboxes_per_round self);
  let total_bias := RVar TotalBias in
  product_expr ← reduce_mul prob_terms;
  let slv := solver_add slv (RealEq total_bias product_expr) in
  let slv := solver_maximize slv total_bias in
  let slv :=
    match max_active_sboxes self with
    | Some cap => solver_add slv (AtMost (concat per_round) cap)
    | None => slv
    end in
  in_first ← getitem (in_masks self) 0;
  let slv := solver_add slv (BvNeC (BV in_first) 0) in
  in_last ← getitem (in_masks self) (-1);
  let slv := solver_add slv (BvNeC (BV in_last) 0) in
  Ok (Build (spn self) (num_rounds self) (variant self) (max_active_sboxes self)
            (look_up_table self) slv (in_masks self) (out_masks self)
            per_round prob_terms).

Definition __init__ (spn : SPN.t) (num_rounds : Z) (variant : string)
    (max_active_sboxes : option Z) : result t :=
  if decide (variant = "linear"%string \/ variant = "differential"%string) then
    table ← _compute_look_up_table spn variant;
    let self := Build spn num_rounds variant max_active_sboxes table
                      (Optimize [] []) [] [] [] [] in
    _add_constraints (_define_variables self)
  else Raise AssertionError.

Definition add_mandatory_nibble (self : t) (required_blocks : list Z) : result t :=
  slv ← for_each required_blocks
        (fun slv i =>
           in_last ← getitem (in_masks self) (-1);
           nibble ← mk_extract ((i + 1) * 4 - 1) (i * 4) in_last;
           Ok (solver_add slv (BvNeC nibble 0)))
        (solver self);
  Ok (Build (spn self) (num_rounds self) (variant self) (max_active_sboxes self)
            (look_up_table self) slv (in_masks self) (out_masks self)
            (active_sboxes_per_round self) (prob_terms self)).

(** A characteristic [(alpha, beta, score)]. *)
Definition characteristic : Type := Z * Z * Q.

Section Search.

(** [self.solver.check()] followed by [self.solver.model()]. *)
Variable check : checker.

(** The state the [for _ in range(num_solutions)] loop of
    [search_best_characteristic] carries. *)
Record search_state : Type := SearchState {
  st_solver : optimize;
  st_results : list characteristic;
  st_seen : gset (Z * Z)
}.

Definition block (self : t) (slv : optimize) (alpha beta : Z) : result optimize :=
  in_first ← getitem (in_masks self) 0;
  in_last ← getitem (in_masks self) (-1);
  Ok (solver_add slv (Or [BvNeC (BV in_first) alpha; BvNeC (BV in_last) beta])).

Fixpoint search_loop (self : t) (n : nat) (st : search_state)
  : result search_state :=
  match n with
  | O => Ok st
  | S n' =>
      match check (st_solver st) with
      | None => Ok st                                   (* break *)
      | Some m =>
          in_first ← getitem (in_masks self) 0;
          let alpha := as_long m in_first in
          in_last ← getitem (in_masks self) (-1);
          let beta := as_long m in_last in
          if decide ((alpha, beta) ∈ st_seen st) then
            slv ← block self (st_solver st) alpha beta;
            search_loop self n'
              (SearchState slv (st_results st) (st_seen st)) (* continue *)
          else
            let seen := st_seen st ∪ {[(alpha, beta)]} in
            let bias_product := real_val m TotalBias in
            let results := st_results st ++ [(alpha, beta, bias_product)] in
            slv ← block self (st_solver st) alpha beta;
            search_loop self n' (SearchState slv results seen)
      end
  end.

(** Returns the list of results and the searcher with its solver as
    the search left it. *)
Definition search_best_characteristic (self : t) (num_solutions : Z)
  : result (list characteristic * t) :=
  st ← search_loop self (Z.to_nat num_solutions)
                   (SearchState (solver self) [] ∅);
  Ok (st_results st,
      Build (spn self) (num_rounds self) (variant self)
            (max_active_sboxes self) (look_up_table self) (st_solver st)
            (in_masks self) (out_masks self)
            (active_sboxes_per_round self) (prob_terms self)).

End Search.

End CharacteristicSearcher.

(** ** cryptanalysis/framework.py *)

Module FrameworkProvider.

Record t : Type := Build {
  spn : SPN.t;
  num_rounds_char : Z;
  variant : string;
  max_active_sboxes : option Z
}.

Definition __init__ (spn : SPN.t) (num_rounds_char : Z) (variant : string)
    (max_active_sboxes : option Z) : result t :=
  if decide (variant = "linear"%string \/ variant = "differential"%string) then
    Ok (Build spn num_rounds_char variant max_active_sboxes)
  else Raise AssertionError.

Definition get_target_partial_subkey (beta : Z) : gset Z :=
  foldl (fun affected_key_bits sbox_index =>
           let nibble_mask := Z.land (Z.shiftr beta (sbox_index * 4)) 15 in
           if decide (nibble_mask ≠ 0) then
             foldl (fun affected_key_bits bit =>
                      let bit_position := sbox_index * 4 + bit in
                      affected_key_bits ∪ {[bit_position]})
                   affected_key_bits (range 4)
           else affected_key_bits)
        ∅ (range 4).

(** [[f(x) for x in l]] with a body that may raise. *)
Fixpoint map_result {A B : Type} (f : A -> result B) (l : list A)
  : result (list B) :=
  match l with
  | [] => Ok []
  | x :: rest => y ← f x; ys ← map_result f rest; Ok (y :: ys)
  end.

Section World.

(** The constraint solver, as in [Searcher]. *)
Variable check : CharacteristicSearcher.checker.

(** [random.randint(0, 0xFFFF)]: [randint k] is the value of the
    generator's [k]-th draw; the functions below thread the number of
    draws made so far. *)
Variable randint : nat -> Z.

Definition generate_characteristics (self : t)
  : result (list CharacteristicSearcher.characteristic) :=
  for_each (range 4)
    (fun masks i =>
       searcher ← CharacteristicSearcher.__init__ (spn self) (num_rounds_char self)
                                (variant self) (max_active_sboxes self);
       searcher ← CharacteristicSearcher.add_mandatory_nibble searcher [i];
       '(found, _) ← CharacteristicSearcher.search_best_characteristic check searcher 1;
       c ← getitem found 0;
       Ok (masks ++ [c]))
    [].

Definition draw (k : nat) (num_samples : Z) : list Z :=
  randint <$> seq k (Z.to_nat num_samples).

(** Returns [None] where the Python function falls off its end. *)
Definition generate_samples (self : t) (k : nat) (num_samples alpha : Z)
  : result (option (list (Z * Z)) * nat) :=
  if decide (variant self = "linear"%string) then
    let plaintexts := draw k num_samples in
    ciphertexts ← map_result (fun pt => SPN.encrypt (spn self) pt
                                          (SPN.rounds (spn self))) plaintexts;
    Ok (Some (zip plaintexts ciphertexts), (k + Z.to_nat num_samples)%nat)
  else if decide (variant self = "differential"%string) then
    let plaintexts := draw k num_samples in
    ciphertexts ← map_result (fun pt => SPN.encrypt (spn self) pt
                                          (SPN.rounds (spn self))) plaintexts;
    let plaintexts_alpha := (fun pt => Z.lxor pt alpha) <$> plaintexts in
    ciphertexts_alpha ←
      map_result (fun pt_alpha => SPN.encrypt (spn self) pt_alpha
                                    (SPN.rounds (spn self))) plaintexts_alpha;
    Ok (Some (zip ciphertexts ciphertexts_alpha), (k + Z.to_nat num_samples)%nat)
  else Ok (None, k).

End World.

End FrameworkProvider.

(** ** cryptanalysis.py *)

Module Cryptanalysis.

Record t : Type := Build {
  framework : FrameworkProvider.t;
  spn : SPN.t;
  variant : string
}.

Definition __init__ (framework : FrameworkProvider.t) : t :=
  Build framework (FrameworkProvider.spn framework) (FrameworkProvider.variant framework).

(** Returns [None] where the Python function falls off its end. *)
Definition _partially_decrypt (self : t) (samples : list (Z * Z)) (key_guess : Z)
  : result (option (list Z * list Z)) :=
  if decide (variant self = "linear"%string) then
    '(plaintexts, partials) ←
      for_each samples
        (fun '(plaintexts, partials) '(pt, ct) =>
           let state := Z.lxor ct key_guess in
           state ← SPN._inv_substitution (spn self) state;
           Ok (plaintexts ++ [pt], partials ++ [state]))
        ([], []);
    Ok (Some (plaintexts, partials))
  else if decide (variant self = "differential"%string) then
    '(partials, partials_alpha) ←
      for_each samples
        (fun '(partials, partials_alpha) '(ct, ct_alpha) =>
           let state := Z.lxor ct key_guess in
           let state_alpha := Z.lxor ct_alpha key_guess in
           state ← SPN._inv_substitution (spn self) state;
           state_alpha ← SPN._inv_substitution (spn self) state_alpha;
           Ok (partials ++ [state], partials_alpha ++ [state_alpha]))
        ([], []);
    Ok (Some (partials, partials_alpha))
  else Ok None.

(** [zip] applied to the unpacked value [r] that [_partially_decrypt]
    returned; unpacking [None] raises [TypeError]. *)
Definition zip_star (r : option (list Z * list Z)) : result (list (Z * Z)) :=
  match r with
  | Some (xs, ys) => Ok (zip xs ys)
  | None => Raise TypeError
  end.

(** [enumerate(l)]. *)
Definition enumerate {A : Type} (l : list A) : list (Z * A) :=
  zip (seqZ 0 (Z.of_nat (length l))) l.

(** The key guess that [_find_key_bits] builds from the counter [guess]. *)
Definition key_guess_of (active_bits : list Z) (guess : Z) : Z :=
  foldl (fun key_guess '(i, bit_pos) =>
           if decide (Z.land (Z.shiftr guess i) 1 ≠ 0)
           then Z.lor key_guess (Z.shiftl 1 bit_pos)
           else key_guess)
        0 (enumerate active_bits).

(** The loop state of [_find_key_bits]. *)
Record best : Type := Best {
  best_key_guess : Z;
  bias_max : Q;
  prob_max : Q
}.

Definition linear_count (alpha beta : Z) (pairs : list (Z * Z)) : Z :=
  foldl (fun count '(pt, partial_ct) =>
           let in_parity := popcount (Z.land alpha pt) mod 2 in
           let out_parity := popcount (Z.land beta partial_ct) mod 2 in
           if decide (in_parity = out_parity) then count + 1 else count)
        0 pairs.

Definition differential_count (beta : Z) (pairs : list (Z * Z)) : Z :=
  foldl (fun count '(partial_ct, partial_ct_alpha) =>
           let dy := Z.lxor partial_ct partial_ct_alpha in
           if decide (dy = beta) then count + 1 else count)
        0 pairs.

(** The empirical bias of one key guess: the block under
    [if self.variant == 'linear'] up to [bias_key]. *)
Definition linear_score (self : t) (alpha beta : Z)
    (attack_samples : list (Z * Z)) (key_guess : Z) : result Q :=
  r ← _partially_decrypt self attack_samples key_guess;
  pairs ← zip_star r;
  let count := linear_count alpha beta pairs in
  let N := Z.of_nat (length attack_samples) in
  q ← truediv count N;
  Ok (q - (1 # 2))%Q.

(** The empirical probability of one key guess: the block under
    [if self.variant == 'differential'] up to [prob_key]. *)
Definition differential_score (self : t) (beta : Z)
    (attack_samples : list (Z * Z)) (key_guess : Z) : result Q :=
  r ← _partially_decrypt self attack_samples key_guess;
  pairs ← zip_star r;
  let count := differential_count beta pairs in
  let N := Z.of_nat (length attack_samples) in
  truediv count N.

(** The body of [for guess in range(1 << len(active_bits))]. *)
Definition try_guess (self : t) (alpha beta : Z) (attack_samples : list (Z * Z))
    (active_bits : list Z) (b : best) (guess : Z) : result best :=
  let key_guess := key_guess_of active_bits guess in
  b ← (if decide (variant self = "linear"%string) then
         bias_key ← linear_score self alpha beta attack_samples key_guess;
         if Qlt_le_dec (bias_max b) bias_key
         then Ok (Best key_guess bias_key (prob_max b))
         else Ok b
       else Ok b);
  if decide (variant self = "differential"%string) then
    prob_key ← differential_score self beta attack_samples key_guess;
    if Qlt_le_dec (prob_max b) prob_key
    then Ok (Best key_guess (bias_max b) prob_key)
    else Ok b
  else Ok b.

Section World.

Variable check : CharacteristicSearcher.checker.
Variable randint : nat -> Z.

(** [list(s)] for a Python set [s]: the order in which a set is
    iterated is left to the interpreter. *)
Variable set_iter : gset Z -> list Z.

(** Returns [None] where the Python function falls off its end. *)
Definition _find_key_bits (self : t) (alpha beta : Z)
    (attack_samples : list (Z * Z)) : result (option (gmap Z Z * Q)) :=
  let active_bits := set_iter (FrameworkProvider.get_target_partial_subkey beta) in
  b ← for_each (range (Z.shiftl 1 (Z.of_nat (length active_bits))))
               (try_guess self alpha beta attack_samples active_bits)
               (Best 0 0 0);
  let recovered_bits : gmap Z Z :=
    foldl (fun recovered_bits '(i, bit_pos) =>
             <[bit_pos := Z.land (Z.shiftr (best_key_guess b) bit_pos) 1]>
               recovered_bits)
          ∅ (enumerate active_bits) in
  if decide (variant self = "linear"%string) then
    Ok (Some (recovered_bits, bias_max b))
  else if decide (variant self = "differential"%string) then
    Ok (Some (recovered_bits, prob_max b))
  else Ok None.

(** The inner loop of [find_last_round_key]: merge one
    characteristic's bits into [recovered_key_bits]. *)
Definition merge_bits (key_bit_guesses : gmap Z Z) (bias_key : Q)
    (recovered_key_bits : gmap Z (Z * Q)) : gmap Z (Z * Q) :=
  map_fold (fun bit_pos bit_value recovered_key_bits =>
              match recovered_key_bits !! bit_pos with
              | None => <[bit_pos := (bit_value, bias_key)]> recovered_key_bits
              | Some (_, existing_bias) =>
                  if Qlt_le_dec existing_bias bias_key
                  then <[bit_pos := (bit_value, bias_key)]> recovered_key_bits
                  else recovered_key_bits
              end)
           recovered_key_bits key_bit_guesses.

(** The last loop of [find_last_round_key]. *)
Definition assemble_key (recovered_key_bits : gmap Z (Z * Q)) : Z :=
  map_fold (fun bit_pos '(bit_val, _) final_key =>
              if decide (bit_val ≠ 0)
              then Z.lor final_key (Z.shiftl 1 bit_pos)
              else final_key)
           0 recovered_key_bits.

(** The body of [for alpha, beta, _ in characteristics]; the state is
    [recovered_key_bits] and the number of random draws made. *)
Definition attack_characteristic (self : t) (num_attack_samples : Z)
    (st : gmap Z (Z * Q) * nat) (c : CharacteristicSearcher.characteristic)
  : result (gmap Z (Z * Q) * nat) :=
  let '(recovered_key_bits, k) := st in
  let '(alpha, beta, _) := c in
  '(attack_samples, k) ←
    FrameworkProvider.generate_samples randint (framework self) k num_attack_samples alpha;
  match attack_samples with
  | None => Raise TypeError
  | Some attack_samples =>
      r ← _find_key_bits self alpha beta attack_samples;
      match r with
      | None => Raise TypeError
      | Some (key_bit_guesses, bias_key) =>
          Ok (merge_bits key_bit_guesses bias_key recovered_key_bits, k)
      end
  end.

(** [k] is the number of random draws made before the call. *)
Definition find_last_round_key (self : t) (k : nat) (num_attack_samples : Z)
  : result Z :=
  characteristics ← FrameworkProvider.generate_characteristics check (framework self);
  '(recovered_key_bits, _) ←
    for_each characteristics (attack_characteristic self num_attack_samples)
             (∅, k);
  Ok (assemble_key recovered_key_bits).

End World.

End Cryptanalysis.

(** Short names for the modules of the searcher and of the framework. *)
Module CS := CharacteristicSearcher.
Module FP := FrameworkProvider.

(** ** Vocabulary of the specification

    The definitions below are not translations of source functions: they
    say, in the words of the specification, what the theorems of the second
    half of this file relate the source functions to.

    Two facts about the model are used throughout. Scores are exact
    rationals where the interpreter has binary floating point; a quotient
    [count / N] and its shift by one half keep their order under rounding as
    long as [N] is below [2 ^ 50], so comparisons of scores agree with the
    interpreter for every sample count the attack can hold in memory. The
    solver is a parameter, of which the theorems assume soundness only. *)

(** The configuration used by the repository's tests, as [SPN.__init__]
    builds it. *)
Definition test_spn : SPN.t :=
  SPN.Build test_sbox [8; 1; 12; 6; 14; 13; 11; 3; 10; 5; 9; 0; 4; 2; 15; 7]
            test_pbox [5; 15; 4; 13; 14; 7; 8; 9; 1; 3; 10; 12; 0; 2; 11; 6]
            4 test_round_keys.

Definition test_framework : FP.t :=
  FP.Build test_spn 3 "linear" (Some 3).

Definition succeeds {A : Type} (r : result A) : Prop := exists a, r = Ok a.

Definition is_ok {A : Type} (r : result A) : bool :=
  match r with Ok _ => true | Raise _ => false end.

(** *** Cipher *)

(** The [j]-th 4-bit slice of a state or mask. *)
Definition nibble (s j : Z) : Z := Z.land (Z.shiftr s (j * 4)) 15.

(** A table that is a bijection on [0..15]. *)
Definition bijection16 (l : list Z) : Prop := l ≡ₚ seqZ 0 16.

(** An index that a 16-slot Python list accepts. *)
Definition index16 (v : Z) : Prop := -16 <= v < 16.

(** [inv] inverts [table]: the value at position [i] of [table] is the
    position of [i] in [inv]. *)
Definition inverts (table inv : list Z) : Prop :=
  forall i v, 0 <= i < 16 -> table !! Z.to_nat i = Some v -> inv !! Z.to_nat v = Some i.

(** The state [s'] is [s] with each of its four nibbles sent through [sbox]. *)
Definition substituted (sbox : list Z) (s s' : Z) : Prop :=
  0 <= s' < 2 ^ 16 /\
  forall j, 0 <= j < 4 -> sbox !! Z.to_nat (nibble s j) = Some (nibble s' j).

(** The state [s'] is [s] with the bit at position [i] moved to position
    [pbox[i]], for each of the 16 positions. *)
Definition permuted (pbox : list Z) (s s' : Z) : Prop :=
  0 <= s' < 2 ^ 16 /\
  forall i p, 0 <= i < 16 -> pbox !! Z.to_nat i = Some p ->
              Z.testbit s' p = Z.testbit s i.

(** [rounds_spec self N i s s']: rounds [i], [i + 1], ..., [N] of an
    [N]-round encryption take the state [s] to [s']. Round [i] mixes in
    [round_keys[i - 1]], substitutes, and permutes unless it is the last. *)
Inductive rounds_spec (self : SPN.t) (N : Z) : Z -> Z -> Z -> Prop :=
| rounds_done s : rounds_spec self N (N + 1) s s
| rounds_step i k s s2 s3 s' :
    1 <= i <= N ->
    SPN.round_keys self !! Z.to_nat (i - 1) = Some k ->
    substituted (SPN.sbox self) (Z.lxor s k) s2 ->
    (i ≠ N -> permuted (SPN.pbox self) s2 s3) ->
    (i = N -> s3 = s2) ->
    rounds_spec self N (i + 1) s3 s' ->
    rounds_spec self N i s s'.

(** Rounds [1..N], then the final mixing with [round_keys[N]]. *)
Definition encrypt_spec (self : SPN.t) (N P C : Z) : Prop :=
  exists s k, rounds_spec self N 1 P s /\
              SPN.round_keys self !! Z.to_nat N = Some k /\
              C = Z.lxor s k.

(** The body of the loop of [SPN.permute], named for the induction on it. *)
Definition permute_body (table : list Z) (state : Z) (permuted i : Z) : result Z :=
  let bit := Z.land (Z.shiftr state i) 1 in
  p ← getitem table i;
  b ← shl bit p;
  Ok (Z.lor permuted b).

(** *** Tables *)

Definition sbox_at (sbox : list Z) (x : Z) : Z := default 0 (sbox !! Z.to_nat x).

Definition parity (z : Z) : Z := popcount z mod 2.

(** The number of [x] in [0..15] on which the input and output parities agree. *)
Definition linear_agreements (sbox : list Z) (alpha beta : Z) : nat :=
  length (filter (fun x => parity (Z.land alpha x) = parity (Z.land beta (sbox_at sbox x)))
                 (range 16)).

(** The number of [x] in [0..15] with [sbox[x] XOR sbox[x XOR alpha] == beta]. *)
Definition differential_hits (sbox : list Z) (alpha beta : Z) : nat :=
  length (filter (fun x => Z.lxor (sbox_at sbox x) (sbox_at sbox (Z.lxor x alpha)) = beta)
                 (range 16)).

(** An exact zero is replaced by the sentinel. *)
Definition with_sentinel (q : Q) : Q :=
  if Qeq_bool q 0 then 1 # 1000000 else q.

Definition linear_entry_spec (sbox : list Z) (alpha beta : Z) : Q :=
  with_sentinel ((Z.of_nat (linear_agreements sbox alpha beta) # 16) - (1 # 2)).

Definition differential_entry_spec (sbox : list Z) (alpha beta : Z) : Q :=
  with_sentinel (Z.of_nat (differential_hits sbox alpha beta) # 16).

(** The entry stored for a probability [prob], by variant. *)
Definition table_entry (variant : string) (prob : Q) : Q :=
  if decide (variant = "linear"%string) then with_sentinel (prob - (1 # 2))
  else with_sentinel prob.

Definition qsum (l : list Q) : Q := foldr Qplus 0%Q l.

(** The sum over [beta] of the stored entries of row [alpha]. *)
Definition row_sum (table : gmap (Z * Z) Q) (alpha : Z) : Q :=
  qsum ((fun beta => default 0%Q (table !! (alpha, beta))) <$> range 16).

(** *** Target bits *)

Definition nibble_positions (j : Z) : gset Z :=
  {[j * 4; j * 4 + 1; j * 4 + 2; j * 4 + 3]}.

Definition active_nibbles (beta : Z) : list Z :=
  filter (fun j => nibble beta j ≠ 0) (range 4).

(** The union, over the nibbles of [beta] that are not zero, of all four
    positions of the nibble. *)
Definition target_bits_spec (beta : Z) : gset Z :=
  ⋃ (nibble_positions <$> active_nibbles beta).

(** *** Key recovery *)

(** The iteration order of a Python set is some enumeration of its elements. *)
Definition set_order (set_iter : gset Z -> list Z) : Prop :=
  forall s, set_iter s ≡ₚ elements s.

(** The empirical score of a key guess, for the variant of [self]. *)
Definition guess_score (self : Cryptanalysis.t) (alpha beta : Z)
    (attack_samples : list (Z * Z)) (key_guess : Z) : result Q :=
  if decide (Cryptanalysis.variant self = "linear"%string)
  then Cryptanalysis.linear_score self alpha beta attack_samples key_guess
  else Cryptanalysis.differential_score self beta attack_samples key_guess.

(** The quality score [_find_key_bits] reports, for the variant of [self]. *)
Definition quality (self : Cryptanalysis.t) (b : Cryptanalysis.best) : Q :=
  if decide (Cryptanalysis.variant self = "linear"%string)
  then Cryptanalysis.bias_max b else Cryptanalysis.prob_max b.

(** [(q, k)] is what a running maximum started at [(q0, k0)] holds after the
    candidates [gs]: a candidate replaces the maximum only with a strictly
    larger score, so the first of the best candidates is kept. *)
Definition selected (score : Z -> Q) (key : Z -> Z) (q0 : Q) (k0 : Z)
    (gs : list Z) (q : Q) (k : Z) : Prop :=
  (q = q0 /\ k = k0 /\ forall g, g ∈ gs -> (score g <= q0)%Q) \/
  (exists before g after,
     gs = before ++ g :: after /\ q = score g /\ k = key g /\ (q0 < q)%Q /\
     (forall g', g' ∈ before -> (score g' < q)%Q) /\
     (forall g', g' ∈ after -> (score g' <= q)%Q)).

Definition select_step (score : Z -> Q) (key : Z -> Z) (st : Q * Z) (g : Z) : Q * Z :=
  if Qlt_le_dec (fst st) (score g) then (score g, key g) else st.

(** [recovered_key_bits] after the outcomes [rs] of [_find_key_bits], one
    per characteristic, in the order the characteristics were attacked. *)
Definition merge_from (acc : gmap Z (Z * Q)) (rs : list (gmap Z Z * Q))
  : gmap Z (Z * Q) :=
  foldl (fun acc '(key_bit_guesses, bias_key) =>
           Cryptanalysis.merge_bits key_bit_guesses bias_key acc)
        acc rs.

Definition merge_all (rs : list (gmap Z Z * Q)) : gmap Z (Z * Q) := merge_from ∅ rs.

(** The entry [(v, s)] comes from the first of the best-scoring outcomes
    that recovered position [p]: every earlier outcome holding [p] scored
    strictly less, every later one at most as much. *)
Definition kept_from (rs : list (gmap Z Z * Q)) (p v : Z) (s : Q) : Prop :=
  exists before g after,
    rs = before ++ (g, s) :: after /\ g !! p = Some v /\
    (forall r, r ∈ before -> is_Some (r.1 !! p) -> (r.2 < s)%Q) /\
    (forall r, r ∈ after -> is_Some (r.1 !! p) -> (r.2 <= s)%Q).

(** [r] is what [_find_key_bits] returned for the characteristic [c], on
    some list of samples. *)
Definition outcome_of (set_iter : gset Z -> list Z) (self : Cryptanalysis.t)
    (c : CS.characteristic) (r : gmap Z Z * Q) : Prop :=
  exists attack_samples,
    Cryptanalysis._find_key_bits set_iter self c.1.1 c.1.2 attack_samples = Ok (Some r).

(** *** Search *)

(** The solver is sound: a model it returns satisfies every assertion. *)
Definition sound (check : CS.checker) : Prop :=
  forall s m, check s = Some m -> CS.satisfies m s.

(** A result read off a model of the assertions [base]. *)
Definition read_from (base : list CS.formula) (self : CS.t)
    (c : CS.characteristic) : Prop :=
  exists m in_first in_last,
    Forall (fun f => CS.eval m f = true) base /\
    getitem (CS.in_masks self) 0 = Ok in_first /\
    getitem (CS.in_masks self) (-1) = Ok in_last /\
    c = (CS.as_long m in_first, CS.as_long m in_last,
         CS.real_val m CS.TotalBias).

(** *** A small solver, for running the searcher on concrete inputs *)

(** The model that a trail with round input masks [ins] and round output
    masks [outs] determines. *)
Definition trail_model (table : gmap (Z * Z) Q) (ins outs : list Z) : CS.model :=
  let mask (l : list Z) (r : Z) := default 0 (l !! Z.to_nat r) in
  let prob (r i : Z) :=
    default 0%Q (table !! (nibble (mask ins r) i, nibble (mask outs r) i)) in
  CS.Model
    (fun v => match v with
              | CS.In_ r => mask ins r
              | CS.Out_ r => mask outs r
              end)
    (fun v => match v with
              | CS.Prob r i => prob r i
              | CS.TotalBias =>
                  foldl (fun acc r => foldl (fun acc i => (acc * prob r i)%Q) acc (range 4))
                        1%Q (range (Z.of_nat (length outs) - 1))
              end)
    (fun '(CS.Active r i) => bool_decide (nibble (mask ins r) i ≠ 0)).

(** A trail with one active S-box per round, built backwards from the bit
    [in_bit] of the last mask: [(ins, outs)] for the [n] rounds before it. *)
Fixpoint back_trail (inv_pbox : list Z) (n : nat) (in_bit : Z) : list Z * list Z :=
  match n with
  | O => ([], [])
  | S n' =>
      let out_bit := default 0 (inv_pbox !! Z.to_nat in_bit) in
      let this_in := 4 * (out_bit / 4) in
      let '(ins, outs) := back_trail inv_pbox n' this_in in
      (ins ++ [Z.shiftl 1 this_in], outs ++ [Z.shiftl 1 out_bit])
  end.

Definition single_trail (self : SPN.t) (table : gmap (Z * Z) Q) (n : nat) (t : Z)
  : CS.model :=
  let '(ins, outs) := back_trail (SPN.inv_pbox self) n (4 * t) in
  trail_model table (ins ++ [Z.shiftl 1 (4 * t)]) (outs ++ [0]).

(** A solver that tries a fixed list of candidate models. *)
Definition candidate_solver (candidates : list CS.model)
  : CS.checker :=
  fun s => List.find (fun m => forallb (CS.eval m) (CS.assertions s)) candidates.

Definition table_or_empty (r : result (gmap (Z * Z) Q)) : gmap (Z * Z) Q :=
  match r with
  | Ok table => table
  | Raise _ => ∅
  end.

Definition test_table : gmap (Z * Z) Q :=
  table_or_empty (CS._compute_look_up_table test_spn "linear").

Definition test_solver : CS.checker :=
  candidate_solver (single_trail test_spn test_table 3 <$> range 4).

(** A generator of pseudo-random plaintexts for the concrete runs. *)
Definition test_randint (k : nat) : Z := (Z.of_nat k * 12345 + 6789) mod 65536.

(** The pairs [(alpha, beta)] of the characteristics a search returned. *)
Definition endpoints (r : result (list CS.characteristic * CS.t))
  : list (Z * Z) :=
  match r with
  | Ok (results, _) => (fun c : CS.characteristic => (c.1.1, c.1.2)) <$> results
  | Raise _ => []
  end.

(** *** Round trips, trails and coverage *)

(** The 4 x 4 transposition of the bit positions, a P-box that is its own
    inverse. *)
Definition transpose_pbox : list Z :=
  [0; 4; 8; 12; 1; 5; 9; 13; 2; 6; 10; 14; 3; 7; 11; 15].

(** [inv] holds, at each of its 16 slots, the last position of [table]
    whose value addresses the slot (a value [v] in [-16..15] addresses the
    slot [v mod 16]), and [0] where no value does. *)
Definition last_positions (table inv : list Z) : Prop :=
  length inv = 16%nat /\
  forall q, 0 <= q < 16 ->
    (exists (i : nat) (v : Z),
        table !! i = Some v /\ v mod 16 = q /\
        inv !! Z.to_nat q = Some (Z.of_nat i) /\
        forall (j : nat) (w : Z), (i < j)%nat -> table !! j = Some w -> w mod 16 ≠ q)
    \/ ((forall (i : nat) (v : Z), table !! i = Some v -> v mod 16 ≠ q) /\
        inv !! Z.to_nat q = Some 0).

(** Nibble [j] of the input and of the output mask of round [r]. *)
Definition in_nibble (r j : Z) : CS.bvexpr :=
  CS.Extract ((j + 1) * 4 - 1) (j * 4) (CS.In_ r).
Definition out_nibble (r j : Z) : CS.bvexpr :=
  CS.Extract ((j + 1) * 4 - 1) (j * 4) (CS.Out_ r).

(** The three kinds of constraint that [_add_constraints] states for an
    S-box position or for a bit of the permutation. *)
Definition entry_choice (table : gmap (Z * Z) Q) (r j : Z) : CS.formula :=
  CS.Or ((fun '((a, b), v) =>
            CS.And [CS.BvEqC (in_nibble r j) a; CS.BvEqC (out_nibble r j) b;
                    CS.RealEq (CS.RVar (CS.Prob r j)) (CS.RConst v)])
           <$> map_to_list table).

Definition inactive_stays (r j : Z) : CS.formula :=
  CS.Implies (CS.BvEqC (in_nibble r j) 0) (CS.BvEqC (out_nibble r j) 0).

Definition bit_moves (r i p : Z) : CS.formula :=
  CS.BvEq (CS.Extract p p (CS.In_ (r + 1))) (CS.Extract i i (CS.Out_ r)).

(** What the assertions [asserted] hold about round [r]. *)
Definition round_asserted (pbox : list Z) (table : gmap (Z * Z) Q)
    (asserted : list CS.formula) (r : Z) : Prop :=
  (forall j, 0 <= j < 4 -> entry_choice table r j ∈ asserted) /\
  (exists constraints, CS.And constraints ∈ asserted /\
     forall j, 0 <= j < 4 -> inactive_stays r j ∈ constraints) /\
  (forall i, 0 <= i < 16 ->
     exists p, getitem pbox i = Ok p /\ 0 <= p < 16 /\ bit_moves r i p ∈ asserted).

(** The S-box positions of [R] rounds, in the order of [prob_terms]. *)
Definition positions (rounds : list Z) : list (Z * Z) :=
  concat ((fun r => (fun j => (r, j)) <$> range 4) <$> rounds).

(** The product of a list of rationals. *)
Definition qprod (l : list Q) : Q := foldr Qmult 1%Q l.

(** Both masks of every key of the table are in [0..15]. *)
Definition keys_in_range (t : gmap (Z * Z) Q) : Prop :=
  forall a b, is_Some (t !! (a, b)) -> 0 <= a < 16 /\ 0 <= b < 16.

(** The table entries along a trail with round input masks [ins] and
    round output masks [outs], one per S-box position. *)
Definition trail_entries (table : gmap (Z * Z) Q) (ins outs : Z -> Z) (R : Z)
  : list Q :=
  (fun '(r, j) => default 0%Q (table !! (nibble (ins r) j, nibble (outs r) j)))
    <$> positions (range R).

(** [c] is the first mask, the last mask and the score of a trail of [R]
    rounds through the cipher: every S-box position has a table entry, an
    S-box with no input bit has no output bit, the bits of a round's output
    mask are the bits of the next input mask moved by the P-box, and the
    score is the product of the entries. *)
Definition trail (pbox : list Z) (table : gmap (Z * Z) Q) (R : Z)
    (c : CS.characteristic) : Prop :=
  exists ins outs : Z -> Z,
    c.1.1 = ins 0 /\ c.1.2 = ins R /\
    (forall r, 0 <= ins r < 2 ^ 16 /\ 0 <= outs r < 2 ^ 16) /\
    (forall r j, 0 <= r < R -> 0 <= j < 4 ->
       is_Some (table !! (nibble (ins r) j, nibble (outs r) j)) /\
       (nibble (ins r) j = 0 -> nibble (outs r) j = 0)) /\
    (forall r i p, 0 <= r < R -> 0 <= i < 16 -> getitem pbox i = Ok p ->
       Z.testbit (ins (r + 1)) p = Z.testbit (outs r) i) /\
    (c.2 == qprod (trail_entries table ins outs R))%Q.

(** The pairs [(alpha, beta)] of a list of characteristics. *)
Definition mask_pairs (results : list CS.characteristic) : list (Z * Z) :=
  (fun c : CS.characteristic => (c.1.1, c.1.2)) <$> results.

(** What the enumeration loop keeps true of its state: the results have
    distinct mask pairs, which are the pairs of [seen]. *)
Definition seen_results (st : CS.search_state) : Prop :=
  NoDup (mask_pairs (CS.st_results st)) /\
  forall p, p ∈ mask_pairs (CS.st_results st) <-> p ∈ CS.st_seen st.

(** Every pair of [seen] is ruled out by an assertion of the solver. *)
Definition seen_blocked (self : CS.t) (st : CS.search_state) : Prop :=
  forall a b, (a, b) ∈ CS.st_seen st ->
    0 <= a < 2 ^ 16 /\ 0 <= b < 2 ^ 16 /\
    exists in_first in_last,
      getitem (CS.in_masks self) 0 = Ok in_first /\
      getitem (CS.in_masks self) (-1) = Ok in_last /\
      CS.Or [CS.BvNeC (CS.BV in_first) a; CS.BvNeC (CS.BV in_last) b]
        ∈ CS.assertions (CS.st_solver st).

(** The characteristic [c] is fit for recovering nibble [i] of the key:
    16-bit masks, a first mask that is not zero, a last mask whose nibble
    [i] is not zero. *)
Definition covers_nibble (i : Z) (c : CS.characteristic) : Prop :=
  0 <= c.1.1 < 2 ^ 16 /\ c.1.1 ≠ 0 /\ 0 <= c.1.2 < 2 ^ 16 /\ nibble c.1.2 i ≠ 0.

(** The state that enters the S-boxes of the last round when [pt] is
    encrypted over [N] rounds: rounds [1 .. N - 1], then the mixing with
    [round_keys[N - 1]]. *)
Definition last_sbox_input (self : SPN.t) (pt N : Z) : result Z :=
  state ← for_each (range2 1 N) (SPN.encrypt_round self N) pt;
  k ← getitem (SPN.round_keys self) (N - 1);
  Ok (Z.lxor state k).

(** The counter whose bit [i] is the bit of [K] at position
    [active_bits[i]]. *)
Definition guess_for (active_bits : list Z) (K : Z) : Z :=
  foldr (fun p g => Z.b2z (Z.testbit K p) + 2 * g) 0 active_bits.

(** * Theorems *)

(** ** Python primitives *)

Lemma bind_Ok {A B} (a : A) (f : A -> result B) : (Ok a ≫= f) = f a.
Proof. reflexivity. Qed.

(** A bind that returned: its first computation returned too. *)
Lemma bind_Ok_inv {A B} (r : result A) (f : A -> result B) (b : B) :
  r ≫= f = Ok b -> exists a, r = Ok a /\ f a = Ok b.
Proof. destruct r as [a|]; [by exists a | discriminate]. Qed.

Lemma for_each_app {A B} (l1 l2 : list A) (f : B -> A -> result B) acc :
  for_each (l1 ++ l2) f acc = (for_each l1 f acc ≫= for_each l2 f).
Proof.
  revert acc. induction l1 as [|x l1 IH]; intros acc; [reflexivity|].
  cbn. destruct (f acc x); cbn; [apply IH | reflexivity].
Qed.

Lemma getitem_nonneg {A} (l : list A) (i : Z) (x : A) :
  0 <= i -> l !! Z.to_nat i = Some x -> getitem l i = Ok x.
Proof.
  intros Hi Hl. unfold getitem, norm_index.
  apply lookup_lt_Some in Hl as Hlt.
  rewrite decide_True by lia. cbn. by rewrite Hl.
Qed.

(** ** Cipher: substitution, permutation and rounds *)

Lemma nibble_range s j : 0 <= nibble s j < 16.
Proof.
  unfold nibble. change 15 with (Z.ones 4). rewrite Z.land_ones by lia.
  apply Z.mod_pos_bound. lia.
Qed.

Lemma lookup_nibble (tbl : list Z) s j :
  length tbl = 16%nat -> is_Some (tbl !! Z.to_nat (nibble s j)).
Proof.
  intros Hlen. apply lookup_lt_is_Some. pose proof (nibble_range s j). lia.
Qed.

Lemma substitute_unfold (tbl : list Z) s v0 v1 v2 v3 :
  tbl !! Z.to_nat (nibble s 0) = Some v0 ->
  tbl !! Z.to_nat (nibble s 1) = Some v1 ->
  tbl !! Z.to_nat (nibble s 2) = Some v2 ->
  tbl !! Z.to_nat (nibble s 3) = Some v3 ->
  SPN.substitute tbl s
  = Ok (Z.lor (Z.lor (Z.lor v0 (Z.shiftl v1 4)) (Z.shiftl v2 8)) (Z.shiftl v3 12)).
Proof.
  intros H0 H1 H2 H3. unfold SPN.substitute.
  change (range 4) with [0; 1; 2; 3]. cbn [for_each].
  pose proof (nibble_range s 0). pose proof (nibble_range s 1).
  pose proof (nibble_range s 2). pose proof (nibble_range s 3).
  fold (nibble s 0). rewrite (getitem_nonneg _ _ _ (proj1 (nibble_range s 0)) H0), !bind_Ok.
  fold (nibble s 1). rewrite (getitem_nonneg _ _ _ (proj1 (nibble_range s 1)) H1), !bind_Ok.
  fold (nibble s 2). rewrite (getitem_nonneg _ _ _ (proj1 (nibble_range s 2)) H2), !bind_Ok.
  fold (nibble s 3). rewrite (getitem_nonneg _ _ _ (proj1 (nibble_range s 3)) H3), !bind_Ok.
  reflexivity.
Qed.

Lemma substitute_total (tbl : list Z) s :
  length tbl = 16%nat -> exists s', SPN.substitute tbl s = Ok s'.
Proof.
  intros Hlen.
  destruct (lookup_nibble tbl s 0 Hlen) as [v0 H0].
  destruct (lookup_nibble tbl s 1 Hlen) as [v1 H1].
  destruct (lookup_nibble tbl s 2 Hlen) as [v2 H2].
  destruct (lookup_nibble tbl s 3 Hlen) as [v3 H3].
  eexists. by apply substitute_unfold.
Qed.

Lemma testbit_below (v k m : Z) :
  0 <= k -> 0 <= v < 2 ^ k -> (m < 0 \/ k <= m) -> Z.testbit v m = false.
Proof.
  intros Hk Hv [Hm|Hm]; [by apply Z.testbit_neg_r|].
  destruct (decide (v = 0)) as [->|Hne]; [apply Z.bits_0|].
  apply Z.bits_above_log2; [lia|].
  apply Z.lt_le_trans with k; [|lia]. apply Z.log2_lt_pow2; lia.
Qed.

Lemma testbit_15 n : 0 <= n -> Z.testbit 15 n = bool_decide (n < 4).
Proof.
  intros Hn. change 15 with (Z.ones 4).
  case_bool_decide.
  - apply Z.ones_spec_low. lia.
  - apply Z.ones_spec_high. lia.
Qed.

Lemma testbit_nibble s j n :
  0 <= j -> 0 <= n ->
  Z.testbit (nibble s j) n = bool_decide (n < 4) && Z.testbit s (n + j * 4).
Proof.
  intros Hj Hn. unfold nibble.
  rewrite Z.land_spec, Z.shiftr_spec, testbit_15 by lia.
  apply andb_comm.
Qed.

Lemma pack_nibbles v0 v1 v2 v3 :
  0 <= v0 < 16 -> 0 <= v1 < 16 -> 0 <= v2 < 16 -> 0 <= v3 < 16 ->
  let s' := Z.lor (Z.lor (Z.lor v0 (Z.shiftl v1 4)) (Z.shiftl v2 8)) (Z.shiftl v3 12) in
  0 <= s' < 2 ^ 16 /\
  nibble s' 0 = v0 /\ nibble s' 1 = v1 /\ nibble s' 2 = v2 /\ nibble s' 3 = v3.
Proof.
  intros R0 R1 R2 R3 s'.
  assert (Hbit : forall m, 0 <= m -> Z.testbit s' m =
            Z.testbit v0 m || Z.testbit v1 (m - 4) || Z.testbit v2 (m - 8)
            || Z.testbit v3 (m - 12)).
  { intros m Hm. subst s'. by rewrite !Z.lor_spec, !Z.shiftl_spec by lia. }
  assert (Hnib : forall j v, 0 <= j ->
            (forall n, 0 <= n -> bool_decide (n < 4) && Z.testbit s' (n + j * 4)
                                 = Z.testbit v n) ->
            nibble s' j = v).
  { intros j v Hj H. apply Z.bits_inj'. intros n Hn.
    rewrite testbit_nibble by lia. by apply H. }
  assert (Hlow : forall v m, 0 <= v < 16 -> (m < 0 \/ 4 <= m) -> Z.testbit v m = false).
  { intros v m Hv Hm. apply (testbit_below v 4 m); lia. }
  split; [|repeat split].
  - assert (0 <= s').
    { subst s'. rewrite !Z.lor_nonneg, !Z.shiftl_nonneg. lia. }
    split; [done|].
    destruct (decide (s' = 0)) as [->|Hne]; [lia|].
    apply Z.log2_lt_pow2; [lia|].
    destruct (decide (Z.log2 s' < 16)) as [|Hge]; [done|].
    assert (Hb : Z.testbit s' (Z.log2 s') = true) by (apply Z.bit_log2; lia).
    rewrite Hbit in Hb by lia.
    rewrite !Hlow in Hb by (done || lia). done.
  - apply Hnib; [lia|]. intros n Hn. rewrite Hbit by lia.
    case_bool_decide; cbn.
    + rewrite (Hlow v1), (Hlow v2), (Hlow v3) by (done || lia).
      rewrite !orb_false_r. f_equal; lia.
    + symmetry. apply Hlow; [done | lia].
  - apply Hnib; [lia|]. intros n Hn. rewrite Hbit by lia.
    case_bool_decide; cbn.
    + rewrite (Hlow v0), (Hlow v2), (Hlow v3) by (done || lia).
      rewrite !orb_false_r. cbn. f_equal; lia.
    + symmetry. apply Hlow; [done | lia].
  - apply Hnib; [lia|]. intros n Hn. rewrite Hbit by lia.
    case_bool_decide; cbn.
    + rewrite (Hlow v0), (Hlow v1), (Hlow v3) by (done || lia).
      rewrite !orb_false_r. cbn. f_equal; lia.
    + symmetry. apply Hlow; [done | lia].
  - apply Hnib; [lia|]. intros n Hn. rewrite Hbit by lia.
    case_bool_decide; cbn.
    + rewrite (Hlow v0), (Hlow v1), (Hlow v2) by (done || lia).
      cbn. f_equal; lia.
    + symmetry. apply Hlow; [done | lia].
Qed.

Lemma bijection16_length l : bijection16 l -> length l = 16%nat.
Proof. unfold bijection16. intros H. by rewrite H. Qed.

Lemma bijection16_NoDup l : bijection16 l -> NoDup l.
Proof. unfold bijection16. intros H. rewrite H. apply NoDup_seqZ. Qed.

Lemma bijection16_range l v : bijection16 l -> v ∈ l <-> 0 <= v < 16.
Proof. unfold bijection16. intros H. rewrite H, elem_of_seqZ. lia. Qed.

Lemma bijection16_lookup l i :
  bijection16 l -> 0 <= i < 16 ->
  exists p, l !! Z.to_nat i = Some p /\ 0 <= p < 16.
Proof.
  intros H Hi.
  destruct (lookup_lt_is_Some_2 l (Z.to_nat i)) as [p Hp].
  { rewrite (bijection16_length l H). lia. }
  exists p. split; [done|]. apply (bijection16_range l p H).
  by eapply list_elem_of_lookup_2.
Qed.

Lemma testbit_1 m : Z.testbit 1 m = bool_decide (m = 0).
Proof. by destruct m. Qed.

Lemma permute_loop (table : list Z) (s : Z) (l : list Z) (acc : Z) :
  0 <= acc ->
  (forall i, i ∈ l -> 0 <= i /\ exists p, table !! Z.to_nat i = Some p /\ 0 <= p) ->
  exists r, for_each l (permute_body table s) acc = Ok r /\ 0 <= r /\
    forall q, 0 <= q ->
      Z.testbit r q
      = Z.testbit acc q
        || existsb (fun i => bool_decide (table !! Z.to_nat i = Some q) && Z.testbit s i) l.
Proof.
  revert acc. induction l as [|i l IH]; intros acc Hacc Hl.
  - exists acc. cbn. split; [reflexivity|]. split; [exact Hacc|].
    intros q _. by rewrite orb_false_r.
  - destruct (Hl i) as (Hi & p & Hp & Hp0); [left|].
    cbn [for_each]. unfold permute_body at 2.
    rewrite (getitem_nonneg _ _ _ Hi Hp), bind_Ok.
    unfold shl. rewrite decide_False by lia. rewrite !bind_Ok.
    destruct (IH (Z.lor acc (Z.shiftl (Z.land (Z.shiftr s i) 1) p))) as (r & Hr & Hr0 & Hbits).
    { rewrite Z.lor_nonneg, Z.shiftl_nonneg, Z.land_nonneg. lia. }
    { intros j Hj. apply Hl. by right. }
    exists r. split; [done|]. split; [done|].
    intros q Hq. rewrite Hbits by done. cbn [existsb].
    rewrite Z.lor_spec, Z.shiftl_spec, Z.land_spec, testbit_1 by done.
    rewrite <- orb_assoc. f_equal. f_equal.
    destruct (decide (p = q)) as [->|Hne].
    + rewrite Hp, Z.sub_diag.
      rewrite (bool_decide_eq_true_2 (Some q = Some q)) by done.
      rewrite (bool_decide_eq_true_2 (0 = 0)) by done.
      rewrite Z.shiftr_spec by lia. cbn. rewrite andb_true_r. done.
    + rewrite (bool_decide_eq_false_2 (table !! _ = Some q)) by congruence.
      rewrite (bool_decide_eq_false_2 (q - p = 0)) by lia.
      by rewrite andb_false_r.
Qed.

Lemma substitute_spec (sbox : list Z) (s : Z) :
  bijection16 sbox ->
  exists s', SPN.substitute sbox s = Ok s' /\ substituted sbox s s'.
Proof.
  intros Hb.
  destruct (bijection16_lookup sbox (nibble s 0) Hb (nibble_range s 0)) as (v0 & H0 & R0).
  destruct (bijection16_lookup sbox (nibble s 1) Hb (nibble_range s 1)) as (v1 & H1 & R1).
  destruct (bijection16_lookup sbox (nibble s 2) Hb (nibble_range s 2)) as (v2 & H2 & R2).
  destruct (bijection16_lookup sbox (nibble s 3) Hb (nibble_range s 3)) as (v3 & H3 & R3).
  eexists. split; [by apply substitute_unfold|].
  destruct (pack_nibbles v0 v1 v2 v3 R0 R1 R2 R3) as (Hr & N0 & N1 & N2 & N3).
  split; [done|].
  intros j Hj.
  assert (j = 0 \/ j = 1 \/ j = 2 \/ j = 3) as [-> | [-> | [-> | ->]]] by lia;
    congruence.
Qed.

Lemma permute_spec (pbox : list Z) (s : Z) :
  bijection16 pbox ->
  exists s', SPN.permute pbox s = Ok s' /\ permuted pbox s s'.
Proof.
  intros Hb.
  destruct (permute_loop pbox s (range 16) 0) as (r & Hr & Hr0 & Hbits); [done| |].
  { intros i Hi. apply elem_of_seqZ in Hi.
    destruct (bijection16_lookup pbox i Hb) as (p & Hp & Hp'); [lia|].
    split; [lia|]. exists p. split; [done | lia]. }
  exists r. split; [exact Hr|].
  assert (Hhigh : forall q, 16 <= q -> Z.testbit r q = false).
  { intros q Hq. rewrite Hbits by lia. rewrite Z.bits_0. cbn [orb].
    apply not_true_is_false. intros Hex.
    apply existsb_exists in Hex as (i & Hi & Hex).
    apply andb_prop in Hex as [Hex _]. apply bool_decide_eq_true_1 in Hex.
    apply list_elem_of_lookup_2 in Hex.
    apply (bijection16_range pbox q Hb) in Hex. lia. }
  split.
  - split; [done|].
    destruct (decide (r = 0)) as [->|Hne]; [lia|].
    apply Z.log2_lt_pow2; [lia|].
    destruct (decide (Z.log2 r < 16)) as [|Hge]; [done|].
    assert (Hb' : Z.testbit r (Z.log2 r) = true) by (apply Z.bit_log2; lia).
    rewrite Hhigh in Hb' by lia. done.
  - intros i p Hi Hp.
    assert (Hp0 : 0 <= p).
    { apply list_elem_of_lookup_2 in Hp. apply (bijection16_range pbox p Hb) in Hp. lia. }
    rewrite Hbits by done. rewrite Z.bits_0. cbn [orb].
    apply eq_true_iff_eq. rewrite existsb_exists. split.
    + intros (j & Hj & Hex). apply andb_prop in Hex as [Hex Hbit].
      apply bool_decide_eq_true_1 in Hex.
      apply list_elem_of_In, elem_of_seqZ in Hj.
      assert (Z.to_nat j = Z.to_nat i)
        by (eapply NoDup_lookup; eauto using bijection16_NoDup).
      by replace i with j by lia.
    + intros Hbit. exists i. split.
      * apply list_elem_of_In, elem_of_seqZ. lia.
      * by rewrite Hp, bool_decide_eq_true_2.
Qed.

Lemma bits_eq_below (a b k : Z) :
  0 <= k -> 0 <= a < 2 ^ k -> 0 <= b < 2 ^ k ->
  (forall m, 0 <= m < k -> Z.testbit a m = Z.testbit b m) -> a = b.
Proof.
  intros Hk Ha Hb H. apply Z.bits_inj'. intros m Hm.
  destruct (decide (m < k)); [apply H; lia|].
  rewrite (testbit_below a k m), (testbit_below b k m) by lia. done.
Qed.

Lemma substituted_unique sbox s a b :
  substituted sbox s a -> substituted sbox s b -> a = b.
Proof.
  intros [Ha Hna] [Hb Hnb]. apply (bits_eq_below a b 16); [lia|done|done|].
  intros m Hm.
  assert (Hj : 0 <= m / 4 < 4) by (split; [apply Z.div_pos | apply Z.div_lt_upper_bound]; lia).
  assert (Hn : 0 <= m mod 4 < 4) by (apply Z.mod_pos_bound; lia).
  assert (Hmm : m = m mod 4 + m / 4 * 4) by (pose proof (Z.div_mod m 4); lia).
  specialize (Hna _ Hj). specialize (Hnb _ Hj).
  assert (Heq : nibble a (m / 4) = nibble b (m / 4)) by congruence.
  apply (f_equal (fun x => Z.testbit x (m mod 4))) in Heq.
  rewrite !testbit_nibble in Heq by lia.
  rewrite bool_decide_eq_true_2 in Heq by lia. cbn in Heq.
  by rewrite <- Hmm in Heq.
Qed.

Lemma permuted_unique pbox s a b :
  bijection16 pbox -> permuted pbox s a -> permuted pbox s b -> a = b.
Proof.
  intros Hbij [Ha Hpa] [Hb Hpb]. apply (bits_eq_below a b 16); [lia|done|done|].
  intros q Hq.
  apply (bijection16_range pbox q Hbij) in Hq.
  apply list_elem_of_lookup_1 in Hq as [n Hn].
  assert (Hlt : (n < 16)%nat).
  { apply lookup_lt_Some in Hn. by rewrite (bijection16_length pbox Hbij) in Hn. }
  rewrite <- (Nat2Z.id n) in Hn.
  rewrite (Hpa (Z.of_nat n) q), (Hpb (Z.of_nat n) q) by (done || lia). done.
Qed.

Lemma rounds_spec_unique self N i s a b :
  bijection16 (SPN.pbox self) ->
  rounds_spec self N i s a -> rounds_spec self N i s b -> a = b.
Proof.
  intros Hbij Ha. revert b.
  induction Ha as [s | i k s s2 s3 s' Hi Hk Hsub Hperm Hlast Hrest IH]; intros b Hb.
  - inversion Hb; subst; [done | lia].
  - inversion Hb as [| i' k' t t2 t3 t' Hi' Hk' Hsub' Hperm' Hlast' Hrest']; subst; [lia|].
    assert (k' = k) as -> by congruence.
    assert (t2 = s2) as -> by eauto using substituted_unique.
    assert (t3 = s3) as ->.
    { destruct (decide (i = N)) as [->|Hne].
      - rewrite Hlast, Hlast' by done. done.
      - eauto using permuted_unique. }
    by apply IH.
Qed.

Lemma seqZ_S (m : Z) (n : nat) :
  seqZ m (Z.of_nat (S n)) = m :: seqZ (m + 1) (Z.of_nat n).
Proof.
  rewrite seqZ_cons by lia. f_equal. f_equal; lia.
Qed.

Lemma encrypt_rounds_spec self N n i s :
  bijection16 (SPN.sbox self) -> bijection16 (SPN.pbox self) ->
  (Z.to_nat N < length (SPN.round_keys self))%nat ->
  1 <= i -> i + Z.of_nat n = N + 1 ->
  exists s', for_each (seqZ i (Z.of_nat n)) (SPN.encrypt_round self N) s = Ok s'
             /\ rounds_spec self N i s s'.
Proof.
  intros Hs Hp Hk. revert i s. induction n as [|n IH]; intros i s Hi Hn.
  - exists s. split; [reflexivity|]. replace i with (N + 1) by lia. constructor.
  - rewrite seqZ_S. cbn [for_each].
    destruct (lookup_lt_is_Some_2 (SPN.round_keys self) (Z.to_nat (i - 1))) as [k Hki]; [lia|].
    unfold SPN.encrypt_round at 2.
    rewrite (getitem_nonneg _ (i - 1) k ltac:(lia) Hki), bind_Ok.
    destruct (substitute_spec (SPN.sbox self) (Z.lxor s k) Hs) as (s2 & Hs2 & Hsub).
    unfold SPN._substitution. rewrite Hs2, bind_Ok.
    destruct (decide (i ≠ N)) as [Hne|Heq].
    + destruct (permute_spec (SPN.pbox self) s2 Hp) as (s3 & Hs3 & Hperm).
      unfold SPN._permutation. rewrite Hs3, bind_Ok.
      destruct (IH (i + 1) s3) as (s' & Hs' & Hrest); [lia|lia|].
      exists s'. split; [done|].
      eapply rounds_step; eauto; [lia | done].
    + rewrite bind_Ok.
      destruct (IH (i + 1) s2) as (s' & Hs' & Hrest); [lia|lia|].
      exists s'. split; [done|].
      eapply rounds_step; eauto; [lia | done].
Qed.

(** C7. For every plaintext (in particular every 16-bit one) and every
    [num_rounds >= 1] for which the configuration holds a round key
    [round_keys[num_rounds]], with S-box and P-box bijections on [0..15]:
    [encrypt] returns, and what it returns is exactly the value that rounds
    [i = 1..num_rounds] produce, each an XOR with [round_keys[i - 1]], then
    the substitution of each of the four nibbles through [sbox], then,
    unless [i] is the last round, the permutation that moves the bit at
    position [i] to position [pbox[i]], followed after the loop by an XOR
    with [round_keys[num_rounds]]. *)
Theorem encrypt_follows_rounds (self : SPN.t) (P N : Z) :
  bijection16 (SPN.sbox self) -> bijection16 (SPN.pbox self) ->
  1 <= N -> (Z.to_nat N < length (SPN.round_keys self))%nat ->
  (exists c, SPN.encrypt self P N = Ok c) /\
  (forall c, SPN.encrypt self P N = Ok c <-> encrypt_spec self N P c).
Proof.
  intros Hs Hp HN Hk.
  destruct (encrypt_rounds_spec self N (Z.to_nat N) 1 P Hs Hp Hk) as (s & Hloop & Hspec);
    [lia|lia|].
  destruct (lookup_lt_is_Some_2 (SPN.round_keys self) (Z.to_nat N) Hk) as [k HkN].
  assert (Henc : SPN.encrypt self P N = Ok (Z.lxor s k)).
  { unfold SPN.encrypt, range2. replace (N + 1 - 1) with (Z.of_nat (Z.to_nat N)) by lia.
    rewrite Hloop, bind_Ok.
    rewrite (getitem_nonneg _ N k ltac:(lia) HkN), bind_Ok. done. }
  split; [eauto|].
  intros c. split.
  - intros Hc. exists s, k. repeat split; [done|done|congruence].
  - intros (s0 & k0 & Hspec0 & Hk0 & ->).
    assert (s0 = s) as -> by eauto using rounds_spec_unique.
    congruence.
Qed.

Lemma encrypt_follows_rounds_witness :
  SPN.encrypt test_spn 0 4 = Ok 0x37A1 /\ encrypt_spec test_spn 4 0 0x37A1.
Proof.
  split; [reflexivity|].
  apply (encrypt_follows_rounds test_spn 0 4).
  - unfold bijection16. compute_done.
  - unfold bijection16. compute_done.
  - lia.
  - cbn. lia.
  - reflexivity.
Defined.

(** ** Target bits *)

Lemma target_eq beta :
  FP.get_target_partial_subkey beta = target_bits_spec beta.
Proof.
  unfold FP.get_target_partial_subkey, target_bits_spec, active_nibbles, nibble.
  change (range 4) with [0; 1; 2; 3].
  cbn [foldl filter list_filter fmap list_fmap].
  repeat case_decide; cbn [fmap list_fmap union_list foldr]; unfold nibble_positions;
    apply set_eq; intros p; set_unfold; lia.
Qed.

Lemma target_range (beta p : Z) :
  p ∈ FP.get_target_partial_subkey beta -> 0 <= p < 16.
Proof.
  rewrite target_eq. unfold target_bits_spec. rewrite elem_of_union_list.
  intros (X & HX & Hp). apply list_elem_of_fmap in HX as (j & -> & Hj).
  apply list_elem_of_filter in Hj as [_ Hj]. apply elem_of_seqZ in Hj.
  unfold nibble_positions in Hp. set_unfold. lia.
Qed.

(** C4. For every mask [beta] (in particular every 16-bit one),
    [get_target_partial_subkey beta] is the union, over the nibble indices
    [j] in [0..3] whose 4-bit slice of [beta] is not zero, of the four
    positions [4j .. 4j+3]: all four positions of an active nibble are in
    the set, whichever of its bits [beta] masks, and no position of an
    inactive nibble is. *)
Theorem target_partial_subkey_nibbles (beta : Z) :
  FP.get_target_partial_subkey beta = target_bits_spec beta /\
  (forall j, 0 <= j < 4 -> nibble beta j ≠ 0 ->
             nibble_positions j ⊆ FP.get_target_partial_subkey beta) /\
  (forall j, 0 <= j < 4 -> nibble beta j = 0 ->
             nibble_positions j ## FP.get_target_partial_subkey beta).
Proof.
  split; [apply target_eq|]. rewrite target_eq. unfold target_bits_spec. split.
  - intros j Hj Hn p Hp. apply elem_of_union_list.
    exists (nibble_positions j). split; [|done].
    apply list_elem_of_fmap. exists j. split; [done|].
    apply list_elem_of_filter. split; [done|]. apply elem_of_seqZ. lia.
  - intros j Hj Hz p Hp Hin. apply elem_of_union_list in Hin as (X & HX & Hin).
    apply list_elem_of_fmap in HX as (j' & -> & Hj').
    apply list_elem_of_filter in Hj' as [Hn Hj']. apply elem_of_seqZ in Hj'.
    assert (j' = j) as ->; [|done].
    unfold nibble_positions in Hp, Hin. set_unfold. lia.
Qed.

Lemma target_partial_subkey_nibbles_witness :
  FP.get_target_partial_subkey 0x0050 = {[4; 5; 6; 7]} /\
  nibble_positions 1 ⊆ FP.get_target_partial_subkey 0x0050 /\
  nibble_positions 0 ## FP.get_target_partial_subkey 0x0050.
Proof.
  destruct (target_partial_subkey_nibbles 0x0050) as (Heq & Hin & Hout).
  split; [|split].
  - rewrite Heq. apply set_eq. intros p. vm_compute. tauto.
  - apply Hin; [lia | by vm_compute].
  - apply Hout; [lia | by vm_compute].
Defined.

(** ** The table of biases and probabilities *)

Lemma getitem_sbox_at (sbox : list Z) (x : Z) :
  length sbox = 16%nat -> 0 <= x < 16 -> getitem sbox x = Ok (sbox_at sbox x).
Proof.
  intros Hlen Hx. apply getitem_nonneg; [lia|].
  unfold sbox_at. destruct (lookup_lt_is_Some_2 sbox (Z.to_nat x)) as [v ->]; [lia|done].
Qed.

Lemma lxor_below (a b k : Z) :
  0 <= k -> 0 <= a < 2 ^ k -> 0 <= b < 2 ^ k -> 0 <= Z.lxor a b < 2 ^ k.
Proof.
  intros Hk Ha Hb.
  assert (H0 : 0 <= Z.lxor a b) by (apply Z.lxor_nonneg; lia).
  split; [done|].
  destruct (decide (Z.lxor a b = 0)) as [->|Hne]; [lia|].
  apply Z.log2_lt_pow2; [lia|].
  destruct (decide (Z.log2 (Z.lxor a b) < k)) as [|Hge]; [done|].
  assert (Hbit : Z.testbit (Z.lxor a b) (Z.log2 (Z.lxor a b)) = true)
    by (apply Z.bit_log2; lia).
  rewrite Z.lxor_spec in Hbit.
  rewrite (testbit_below a k), (testbit_below b k) in Hbit by lia. done.
Qed.

Lemma count_loop (P : Z -> Prop) `{!forall x, Decision (P x)}
    (body : Z -> Z -> result Z) (l : list Z) (c : Z) :
  (forall x c, x ∈ l -> body c x = Ok (if decide (P x) then c + 1 else c)) ->
  for_each l body c = Ok (c + Z.of_nat (length (filter P l))).
Proof.
  revert c. induction l as [|x l IH]; intros c Hbody.
  - cbn. f_equal. lia.
  - cbn [for_each]. rewrite Hbody by left. rewrite bind_Ok.
    rewrite IH by (intros; apply Hbody; by right).
    f_equal. rewrite filter_cons. destruct (decide (P x)); cbn [length]; lia.
Qed.

Lemma count_matches_linear (sbox : list Z) (alpha beta : Z) :
  length sbox = 16%nat ->
  CS.count_matches "linear" sbox alpha beta
  = Ok (Z.of_nat (linear_agreements sbox alpha beta)).
Proof.
  intros Hlen. unfold CS.count_matches, linear_agreements.
  erewrite (count_loop (fun x => parity (Z.land alpha x)
                                 = parity (Z.land beta (sbox_at sbox x)))).
  - done.
  - intros x c Hx. apply elem_of_seqZ in Hx.
    rewrite decide_True by done. rewrite (getitem_sbox_at sbox x) by (done || lia).
    rewrite !bind_Ok. rewrite decide_False by done. reflexivity.
Qed.

Lemma count_matches_differential (sbox : list Z) (alpha beta : Z) :
  length sbox = 16%nat -> 0 <= alpha < 16 ->
  CS.count_matches "differential" sbox alpha beta
  = Ok (Z.of_nat (differential_hits sbox alpha beta)).
Proof.
  intros Hlen Ha. unfold CS.count_matches, differential_hits.
  erewrite (count_loop (fun x => Z.lxor (sbox_at sbox x) (sbox_at sbox (Z.lxor x alpha))
                                 = beta)).
  - done.
  - intros x c Hx. apply elem_of_seqZ in Hx.
    rewrite decide_False by done. rewrite bind_Ok. rewrite decide_True by done.
    rewrite (getitem_sbox_at sbox x) by (done || lia). rewrite bind_Ok.
    rewrite getitem_sbox_at; [|done|apply (lxor_below x alpha 4); lia].
    rewrite bind_Ok. reflexivity.
Qed.

Lemma store_entry_insert variant alpha beta prob table :
  variant = "linear"%string \/ variant = "differential"%string ->
  CS.store_entry variant alpha beta prob table
  = <[(alpha, beta) := table_entry variant prob]> table.
Proof.
  intros [->| ->]; reflexivity.
Qed.

(** What one pass over [betas] for a fixed [alpha] leaves in the table. *)
Lemma inner_loop (variant : string) (sbox : list Z) (alpha : Z) (cnt : Z -> Z)
    (betas : list Z) (table : gmap (Z * Z) Q) :
  variant = "linear"%string \/ variant = "differential"%string ->
  (forall beta, beta ∈ betas ->
     CS.count_matches variant sbox alpha beta = Ok (cnt beta)) ->
  for_each betas
    (fun table beta =>
       count ← CS.count_matches variant sbox alpha beta;
       Ok (CS.store_entry variant alpha beta (CS.prob_of count) table))
    table
  = Ok (foldl (fun table beta =>
                 <[(alpha, beta) := table_entry variant (CS.prob_of (cnt beta))]> table)
              table betas).
Proof.
  intros Hv. revert table. induction betas as [|b betas IH]; intros table H; [done|].
  cbn [for_each foldl]. rewrite H by left. rewrite !bind_Ok.
  rewrite store_entry_insert by done.
  apply IH. intros; apply H; by right.
Qed.

Lemma outer_loop (variant : string) (sbox : list Z) (cnt : Z -> Z -> Z)
    (alphas betas : list Z) (table : gmap (Z * Z) Q) :
  variant = "linear"%string \/ variant = "differential"%string ->
  (forall alpha beta, alpha ∈ alphas -> beta ∈ betas ->
     CS.count_matches variant sbox alpha beta = Ok (cnt alpha beta)) ->
  for_each alphas
    (fun table alpha =>
       for_each betas
         (fun table beta =>
            count ← CS.count_matches variant sbox alpha beta;
            Ok (CS.store_entry variant alpha beta (CS.prob_of count) table))
         table)
    table
  = Ok (foldl (fun table alpha =>
                 foldl (fun table beta =>
                          <[(alpha, beta) :=
                              table_entry variant (CS.prob_of (cnt alpha beta))]>
                            table)
                       table betas)
              table alphas).
Proof.
  intros Hv. revert table. induction alphas as [|a alphas IH]; intros table H; [done|].
  cbn [for_each foldl].
  rewrite (inner_loop variant sbox a (cnt a));
    [|done|intros; apply H; [left | done]].
  rewrite bind_Ok. apply IH. intros; apply H; [by right | done].
Qed.

Lemma lookup_inner (entry : Z -> Z -> Q) (alpha : Z) (betas : list Z)
    (table : gmap (Z * Z) Q) (a b : Z) :
  foldl (fun table beta => <[(alpha, beta) := entry alpha beta]> table) table betas
    !! (a, b)
  = if decide (a = alpha /\ b ∈ betas) then Some (entry a b) else table !! (a, b).
Proof.
  revert table. induction betas as [|b' betas IH]; intros table.
  - cbn. rewrite decide_False; [done|]. intros [_ H]. by apply elem_of_nil in H.
  - cbn [foldl]. rewrite IH.
    destruct (decide (a = alpha /\ b ∈ betas)) as [[-> Hin]|Hn].
    + rewrite decide_True; [done|]. split; [done | by right].
    + destruct (decide ((alpha, b') = (a, b))) as [Heq|Hne].
      * injection Heq as -> ->. rewrite lookup_insert_eq.
        rewrite decide_True; [done|]. split; [done | by left].
      * rewrite lookup_insert_ne by done.
        rewrite decide_False; [done|]. intros [-> Hin].
        apply elem_of_cons in Hin as [->|Hin]; [done|]. apply Hn. done.
Qed.

Lemma lookup_outer (entry : Z -> Z -> Q) (alphas betas : list Z)
    (table : gmap (Z * Z) Q) (a b : Z) :
  foldl (fun table alpha =>
           foldl (fun table beta => <[(alpha, beta) := entry alpha beta]> table)
                 table betas)
        table alphas
    !! (a, b)
  = if decide (a ∈ alphas /\ b ∈ betas) then Some (entry a b) else table !! (a, b).
Proof.
  revert table. induction alphas as [|a' alphas IH]; intros table.
  - cbn. rewrite decide_False; [done|]. intros [H _]. by apply elem_of_nil in H.
  - cbn [foldl]. rewrite IH, lookup_inner.
    destruct (decide (a ∈ alphas /\ b ∈ betas)) as [[Ha Hb]|Hn].
    + rewrite decide_True; [done|]. split; [by right | done].
    + destruct (decide (a = a' /\ b ∈ betas)) as [[-> Hb]|Hn'].
      * rewrite decide_True; [done|]. split; [by left | done].
      * rewrite decide_False; [done|]. intros [Ha Hb].
        apply elem_of_cons in Ha as [->|Ha]; [by apply Hn' | by apply Hn].
Qed.

Lemma table_lookup (variant : string) (sbox : list Z) (cnt : Z -> Z -> Z) :
  variant = "linear"%string \/ variant = "differential"%string ->
  (forall alpha beta, 0 <= alpha < 16 -> 0 <= beta < 16 ->
     CS.count_matches variant sbox alpha beta = Ok (cnt alpha beta)) ->
  exists table, CS.compute_look_up_table variant sbox = Ok table /\
    forall alpha beta, 0 <= alpha < 16 -> 0 <= beta < 16 ->
      table !! (alpha, beta)
      = Some (table_entry variant (CS.prob_of (cnt alpha beta))).
Proof.
  intros Hv Hcnt. eexists. split.
  - unfold CS.compute_look_up_table.
    apply (outer_loop variant sbox cnt); [done|].
    intros alpha beta Ha Hb. apply elem_of_seqZ in Ha, Hb. apply Hcnt; lia.
  - intros alpha beta Ha Hb.
    rewrite (lookup_outer (fun a b => table_entry variant (CS.prob_of (cnt a b)))).
    rewrite decide_True; [done|].
    split; apply elem_of_seqZ; lia.
Qed.

(** C5. For a bijective S-box the table is built, and for every 4-bit pair
    [(alpha, beta)] it holds, in the linear variant,
    (the number of [x] in [0..15] with
    [popcount(alpha & x) mod 2 = popcount(beta & sbox[x]) mod 2]) / 16 - 1/2,
    and in the differential variant
    (the number of [x] in [0..15] with [sbox[x] XOR sbox[x XOR alpha] = beta]) / 16,
    an exact zero being replaced by the sentinel [1e-6] in both. *)
Theorem look_up_table_entries (self_spn : SPN.t) :
  bijection16 (SPN.sbox self_spn) ->
  (exists table, CS._compute_look_up_table self_spn "linear" = Ok table /\
     forall alpha beta, 0 <= alpha < 16 -> 0 <= beta < 16 ->
       table !! (alpha, beta) = Some (linear_entry_spec (SPN.sbox self_spn) alpha beta)) /\
  (exists table, CS._compute_look_up_table self_spn "differential" = Ok table /\
     forall alpha beta, 0 <= alpha < 16 -> 0 <= beta < 16 ->
       table !! (alpha, beta)
       = Some (differential_entry_spec (SPN.sbox self_spn) alpha beta)).
Proof.
  intros Hb. pose proof (bijection16_length _ Hb) as Hlen. split.
  - apply (table_lookup "linear" _
             (fun a b => Z.of_nat (linear_agreements (SPN.sbox self_spn) a b)));
      [by left|].
    intros. by apply count_matches_linear.
  - apply (table_lookup "differential" _
             (fun a b => Z.of_nat (differential_hits (SPN.sbox self_spn) a b)));
      [by right|].
    intros. by apply count_matches_differential.
Qed.

Lemma look_up_table_entries_witness :
  exists table, CS._compute_look_up_table test_spn "differential" = Ok table /\
                table !! (0, 0) = Some (16 # 16)%Q /\
                table !! (0, 1) = Some (1 # 1000000)%Q.
Proof.
  destruct (look_up_table_entries test_spn) as [_ (table & Htab & Hlook)].
  - unfold bijection16. compute_done.
  - exists table. split; [exact Htab|]. split.
    + rewrite Hlook by lia. reflexivity.
    + rewrite Hlook by lia. reflexivity.
Defined.

(** ** Row sums of the differential table *)

Lemma row_sum_lookup (table : gmap (Z * Z) Q) (alpha : Z) (entry : Z -> Q) :
  (forall beta, 0 <= beta < 16 -> table !! (alpha, beta) = Some (entry beta)) ->
  row_sum table alpha = qsum (entry <$> range 16).
Proof.
  intros H. unfold row_sum. f_equal. apply list_fmap_ext.
  intros i beta Hb. apply list_elem_of_lookup_2, elem_of_seqZ in Hb.
  rewrite H by lia. done.
Qed.

Lemma differential_table_spec (sbox : list Z) :
  length sbox = 16%nat ->
  exists table, CS.compute_look_up_table "differential" sbox = Ok table /\
    forall alpha beta, 0 <= alpha < 16 -> 0 <= beta < 16 ->
      table !! (alpha, beta) = Some (differential_entry_spec sbox alpha beta).
Proof.
  intros Hlen.
  apply (table_lookup "differential" _
           (fun a b => Z.of_nat (differential_hits sbox a b))); [by right|].
  intros. by apply count_matches_differential.
Qed.

(** C6, as stated, fails: in the differential table of the test S-box the
    entries of row [alpha = 0] sum to [1 + 15 * 1e-6], not to [1], since the
    fifteen zero entries of the row hold the sentinel. *)
Lemma differential_row_sum_counterexample :
  exists table, CS._compute_look_up_table test_spn "differential" = Ok table /\
                (row_sum table 0 == 1000015 # 1000000)%Q /\
                ~ (row_sum table 0 == 1)%Q.
Proof.
  destruct (differential_table_spec test_sbox eq_refl) as (table & Htab & Hlook).
  exists table. split; [exact Htab|].
  rewrite (row_sum_lookup table 0 (differential_entry_spec test_sbox 0))
    by (intros; apply Hlook; lia).
  split; vm_compute; [reflexivity | discriminate].
Qed.

Lemma sum_indicator (v : Z) (bs : list Z) :
  NoDup bs -> v ∈ bs ->
  sum_list_with (fun beta => if decide (v = beta) then 1%nat else 0%nat) bs = 1%nat.
Proof.
  induction 1 as [|b bs Hnotin Hnd IH]; intros Hin; [by apply elem_of_nil in Hin|].
  cbn [sum_list_with]. destruct (decide (v = b)) as [->|Hne].
  - assert (sum_list_with (fun beta => if decide (b = beta) then 1%nat else 0%nat) bs = 0%nat)
      as ->; [|done].
    clear IH Hin Hnd. induction bs as [|b' bs IH]; [done|].
    cbn [sum_list_with]. rewrite decide_False by (intros ->; apply Hnotin; left).
    rewrite IH; [done|]. intros H. apply Hnotin. by right.
  - apply elem_of_cons in Hin as [?|Hin]; [done|]. by rewrite IH.
Qed.

Lemma sum_list_with_add {A} (g h : A -> nat) (l : list A) :
  sum_list_with (fun x => (g x + h x)%nat) l
  = (sum_list_with g l + sum_list_with h l)%nat.
Proof. induction l as [|x l IH]; cbn; [done | lia]. Qed.

Lemma sum_list_with_eq {A} (g h : A -> nat) (l : list A) :
  (forall x, g x = h x) -> sum_list_with g l = sum_list_with h l.
Proof. intros H. induction l as [|x l IH]; cbn; [done | by rewrite H, IH]. Qed.

(** Every [x] lands in exactly one class [f x = beta]. *)
Lemma classes_partition (f : Z -> Z) (xs bs : list Z) :
  NoDup bs -> (forall x, x ∈ xs -> f x ∈ bs) ->
  sum_list_with (fun beta => length (filter (fun x => f x = beta) xs)) bs = length xs.
Proof.
  intros Hnd. induction xs as [|x xs IH]; intros Hf.
  - clear Hnd Hf. induction bs as [|b bs IHb]; [done|]. cbn. apply IHb.
  - rewrite (sum_list_with_eq _
               (fun beta => ((if decide (f x = beta) then 1 else 0)
                             + length (filter (fun x => f x = beta) xs))%nat)).
    2:{ intros beta. rewrite filter_cons. by destruct (decide (f x = beta)). }
    rewrite sum_list_with_add, sum_indicator by (done || apply Hf; left).
    rewrite IH by (intros; apply Hf; by right). done.
Qed.

Lemma qsum_counts (h : Z -> nat) (l : list Z) :
  (qsum ((fun beta => Z.of_nat (h beta) # 16) <$> l)
   == Z.of_nat (sum_list_with h l) # 16)%Q.
Proof.
  induction l as [|b l IH]; [done|].
  cbn [fmap list_fmap qsum foldr sum_list_with].
  fold (qsum ((fun beta => Z.of_nat (h beta) # 16) <$> l)).
  rewrite IH. unfold Qeq, Qplus. cbn. lia.
Qed.

Lemma with_sentinel_split (q : Q) :
  (with_sentinel q == q + (if Qeq_bool q 0 then 1 # 1000000 else 0))%Q.
Proof.
  unfold with_sentinel. destruct (Qeq_bool q 0) eqn:Hq.
  - apply Qeq_bool_eq in Hq. rewrite Hq. ring.
  - ring.
Qed.

Lemma qsum_sentinel (p : Z -> Q) (l : list Z) :
  (qsum ((fun beta => with_sentinel (p beta)) <$> l)
   == qsum (p <$> l)
      + (Z.of_nat (length (filter (fun beta => Qeq_bool (p beta) 0 = true) l)) # 1)
        * (1 # 1000000))%Q.
Proof.
  induction l as [|b l IH]; [done|].
  cbn [fmap list_fmap qsum foldr].
  fold (qsum ((fun beta => with_sentinel (p beta)) <$> l)).
  fold (qsum (p <$> l)).
  rewrite IH, with_sentinel_split, filter_cons.
  destruct (decide (Qeq_bool (p b) 0 = true)) as [Hz|Hz].
  - rewrite Hz. cbn [length].
    set (n := length (filter (fun beta => Qeq_bool (p beta) 0 = true) l)).
    assert ((Z.of_nat (S n) # 1) == (Z.of_nat n # 1) + 1)%Q as ->
      by (unfold Qeq, Qplus; cbn; lia).
    ring.
  - apply not_true_is_false in Hz. rewrite Hz. ring.
Qed.

Lemma sbox_at_range (sbox : list Z) (x : Z) :
  bijection16 sbox -> 0 <= x < 16 -> 0 <= sbox_at sbox x < 16.
Proof.
  intros Hb Hx. destruct (bijection16_lookup sbox x Hb Hx) as (v & Hv & Hr).
  unfold sbox_at. by rewrite Hv.
Qed.

Lemma differential_hits_total (sbox : list Z) (alpha : Z) :
  bijection16 sbox -> 0 <= alpha < 16 ->
  sum_list_with (differential_hits sbox alpha) (range 16) = 16%nat.
Proof.
  intros Hb Ha. unfold differential_hits.
  rewrite (classes_partition
             (fun x => Z.lxor (sbox_at sbox x) (sbox_at sbox (Z.lxor x alpha)))).
  - done.
  - apply NoDup_seqZ.
  - intros x Hx. apply elem_of_seqZ in Hx. apply elem_of_seqZ.
    assert (0 <= Z.lxor x alpha < 2 ^ 4) by (apply lxor_below; lia).
    pose proof (sbox_at_range sbox x Hb ltac:(lia)).
    pose proof (sbox_at_range sbox (Z.lxor x alpha) Hb ltac:(lia)).
    assert (0 <= Z.lxor (sbox_at sbox x) (sbox_at sbox (Z.lxor x alpha)) < 2 ^ 4)
      by (apply lxor_below; lia).
    lia.
Qed.

(** C6, amended. For every 4-bit [alpha] and a bijective S-box, the
    differential probabilities [count / 16] that the table is built from sum
    to [1] over all 4-bit [beta]; the stored entries of the row, in which
    each zero is replaced by the sentinel, sum to [1 + z * 1e-6], where [z]
    is the number of [beta] whose count is zero. *)
Theorem differential_rows_sum_to_one (self_spn : SPN.t) (alpha : Z) :
  bijection16 (SPN.sbox self_spn) -> 0 <= alpha < 16 ->
  exists (cnt : Z -> Z) (table : gmap (Z * Z) Q),
    (forall beta, 0 <= beta < 16 ->
       CS.count_matches "differential" (SPN.sbox self_spn) alpha beta
       = Ok (cnt beta)) /\
    (qsum ((fun beta => CS.prob_of (cnt beta)) <$> range 16) == 1)%Q /\
    CS._compute_look_up_table self_spn "differential" = Ok table /\
    (row_sum table alpha
     == 1 + (Z.of_nat (length (filter (fun beta => cnt beta = 0%Z) (range 16))) # 1)
            * CS.sentinel)%Q.
Proof.
  intros Hb Ha. pose proof (bijection16_length _ Hb) as Hlen.
  set (sbox := SPN.sbox self_spn) in *.
  destruct (differential_table_spec sbox Hlen) as (table & Htab & Hlook).
  exists (fun beta => Z.of_nat (differential_hits sbox alpha beta)), table.
  assert (Hsum : (qsum ((fun beta => CS.prob_of (Z.of_nat (differential_hits sbox alpha beta)))
                          <$> range 16) == 1)%Q).
  { unfold CS.prob_of. rewrite (qsum_counts (differential_hits sbox alpha)).
    rewrite differential_hits_total by done. reflexivity. }
  split; [|split; [|split]].
  - intros beta _. by apply count_matches_differential.
  - exact Hsum.
  - exact Htab.
  - rewrite (row_sum_lookup table alpha (differential_entry_spec sbox alpha))
      by (intros; apply Hlook; lia).
    unfold differential_entry_spec.
    rewrite (qsum_sentinel (fun beta => Z.of_nat (differential_hits sbox alpha beta) # 16)).
    unfold CS.prob_of in Hsum. rewrite Hsum.
    rewrite (list_filter_iff _ (fun beta => Z.of_nat (differential_hits sbox alpha beta) = 0)).
    + reflexivity.
    + intros beta. rewrite Qeq_bool_iff. unfold Qeq. cbn. lia.
Qed.

Lemma differential_rows_sum_to_one_witness :
  exists (cnt : Z -> Z) (table : gmap (Z * Z) Q),
    (forall beta, 0 <= beta < 16 ->
       CS.count_matches "differential" test_sbox 3 beta = Ok (cnt beta)) /\
    (qsum ((fun beta => CS.prob_of (cnt beta)) <$> range 16) == 1)%Q /\
    CS._compute_look_up_table test_spn "differential" = Ok table /\
    (row_sum table 3
     == 1 + (Z.of_nat (length (filter (fun beta => cnt beta = 0%Z) (range 16))) # 1)
            * CS.sentinel)%Q.
Proof.
  apply (differential_rows_sum_to_one test_spn 3).
  - unfold bijection16. compute_done.
  - lia.
Defined.

(** ** Construction *)

Lemma setitem_16 (inv : list Z) (val i : Z) :
  length inv = 16%nat ->
  (index16 val -> exists inv', setitem inv val i = Ok inv' /\ length inv' = 16%nat) /\
  (~ index16 val -> setitem inv val i = Raise IndexError).
Proof.
  intros Hlen. unfold setitem, norm_index, index16. rewrite Hlen. split; intros Hv.
  - destruct (decide (0 <= val < Z.of_nat 16)).
    + eexists. split; [reflexivity|]. by rewrite length_insert.
    + rewrite decide_True by lia. eexists. split; [reflexivity|].
      by rewrite length_insert.
  - rewrite !decide_False by lia. reflexivity.
Qed.

Lemma invert_loop (table : list Z) (i : Z) (inv : list Z) :
  length inv = 16%nat ->
  (Forall index16 table ->
   exists inv', for_each (zip (seqZ i (Z.of_nat (length table))) table)
                         (fun inv '(i, val) => setitem inv val i) inv = Ok inv'
                /\ length inv' = 16%nat) /\
  (~ Forall index16 table ->
   for_each (zip (seqZ i (Z.of_nat (length table))) table)
            (fun inv '(i, val) => setitem inv val i) inv = Raise IndexError).
Proof.
  revert i inv. induction table as [|val table IH]; intros i inv Hlen.
  - split; [intros _; by exists inv | intros H; destruct H; constructor].
  - cbn [length]. rewrite seqZ_S. cbn [zip zip_with for_each].
    destruct (setitem_16 inv val i Hlen) as [Hok Hbad].
    destruct (decide (index16 val)) as [Hv|Hv].
    + destruct (Hok Hv) as (inv1 & -> & Hlen1). rewrite bind_Ok.
      destruct (IH (i + 1) inv1 Hlen1) as [IHok IHbad]. split.
      * intros Hall. apply IHok. by inversion Hall.
      * intros Hall. apply IHbad. intros H. apply Hall. by constructor.
    + rewrite (Hbad Hv). split; [|done].
      intros Hall. by inversion Hall.
Qed.

Lemma invert_table_spec (table : list Z) :
  (Forall index16 table ->
   exists inv, SPN.invert_table table = Ok inv /\ length inv = 16%nat) /\
  (~ Forall index16 table -> SPN.invert_table table = Raise IndexError).
Proof. apply invert_loop. reflexivity. Qed.

Lemma init_inv_sbox_length sbox pbox round_keys rounds self :
  SPN.__init__ sbox pbox round_keys rounds = Ok self ->
  length (SPN.inv_sbox self) = 16%nat.
Proof.
  unfold SPN.__init__. intros H.
  destruct (decide (Forall index16 sbox)) as [Hs|Hs].
  - destruct (proj1 (invert_table_spec sbox) Hs) as (inv & Hinv & Hlen).
    rewrite Hinv, bind_Ok in H.
    destruct (SPN.invert_table pbox); [|discriminate].
    rewrite bind_Ok in H. injection H as <-. done.
  - rewrite (proj2 (invert_table_spec sbox) Hs) in H. discriminate.
Qed.

Lemma not_bijection16_zeros : ~ bijection16 (replicate 16 0).
Proof.
  intros H. apply bijection16_NoDup in H.
  apply NoDup_cons_1_1 in H. apply H. left.
Qed.

(** C8, as stated, fails: [SPN.__init__] returns an object for an S-box
    and a P-box that are not bijections and for a list of round keys whose
    length is not [rounds + 1]. *)
Lemma construction_accepts_invalid_configuration :
  ~ bijection16 (replicate 16 0) /\
  Z.of_nat (length ([] : list Z)) ≠ 4 + 1 /\
  succeeds (SPN.__init__ (replicate 16 0) (replicate 16 0) [] 4).
Proof.
  split; [apply not_bijection16_zeros|]. split; [done|].
  eexists. reflexivity.
Qed.

(** C8, amended. Construction of the framework and of the searcher fails
    at once, with an assertion error, when the variant is neither
    ['linear'] nor ['differential'], and the framework is built otherwise.
    [SPN.__init__] checks neither bijectivity nor the number of round keys:
    it returns an object exactly when every entry of the S-box and of the
    P-box is an index that the 16-slot inverse tables accept (from [-16]
    to [15]), and raises an index error otherwise. *)
Theorem construction_checks :
  (forall spn n variant cap,
     variant ≠ "linear"%string -> variant ≠ "differential"%string ->
     FP.__init__ spn n variant cap = Raise AssertionError /\
     CS.__init__ spn n variant cap = Raise AssertionError) /\
  (forall spn n variant cap,
     variant = "linear"%string \/ variant = "differential"%string ->
     succeeds (FP.__init__ spn n variant cap)) /\
  (forall sbox pbox round_keys rounds,
     succeeds (SPN.__init__ sbox pbox round_keys rounds)
     <-> Forall index16 sbox /\ Forall index16 pbox) /\
  (forall sbox pbox round_keys rounds,
     ~ (Forall index16 sbox /\ Forall index16 pbox) ->
     SPN.__init__ sbox pbox round_keys rounds = Raise IndexError).
Proof.
  split; [|split; [|split]].
  - intros spn n variant cap H1 H2. unfold FP.__init__, CS.__init__.
    rewrite !decide_False by (intros [?|?]; done). done.
  - intros spn n variant cap Hv. unfold FP.__init__.
    rewrite decide_True by done. by eexists.
  - intros sbox pbox round_keys rounds. unfold SPN.__init__.
    destruct (invert_table_spec sbox) as [Hsok Hsbad].
    destruct (invert_table_spec pbox) as [Hpok Hpbad].
    split.
    + intros [self H].
      destruct (decide (Forall index16 sbox)) as [Hs|Hs];
        [|rewrite (Hsbad Hs) in H; discriminate].
      destruct (Hsok Hs) as (inv_s & Hinv_s & _). rewrite Hinv_s, bind_Ok in H.
      destruct (decide (Forall index16 pbox)) as [Hp|Hp];
        [done | rewrite (Hpbad Hp) in H; discriminate].
    + intros [Hs Hp].
      destruct (Hsok Hs) as (inv_s & -> & _). destruct (Hpok Hp) as (inv_p & -> & _).
      by eexists.
  - intros sbox pbox round_keys rounds Hbad. unfold SPN.__init__.
    destruct (invert_table_spec sbox) as [Hsok Hsbad].
    destruct (invert_table_spec pbox) as [Hpok Hpbad].
    destruct (decide (Forall index16 sbox)) as [Hs|Hs]; [|by rewrite (Hsbad Hs)].
    destruct (Hsok Hs) as (inv_s & -> & _). rewrite bind_Ok.
    destruct (decide (Forall index16 pbox)) as [Hp|Hp]; [by destruct Hbad|].
    by rewrite (Hpbad Hp).
Qed.

Lemma construction_checks_witness :
  FP.__init__ test_spn 3 "quadratic" None = Raise AssertionError /\
  succeeds (FP.__init__ test_spn 3 "linear" None) /\
  succeeds (SPN.__init__ test_sbox test_pbox test_round_keys 4) /\
  SPN.__init__ (16 :: test_sbox) test_pbox test_round_keys 4 = Raise IndexError.
Proof.
  destruct construction_checks as (Hvariant & Hok & Hspn & Hindex).
  split; [|split; [|split]].
  - apply (Hvariant test_spn 3 "quadratic"%string None); discriminate.
  - apply Hok. by left.
  - apply Hspn. unfold index16. split; compute_done.
  - apply Hindex. unfold index16. intros [Hs _]. inversion Hs. lia.
Defined.

(** ** Decryption *)

Lemma setitem_nonneg (inv : list Z) (val i : Z) :
  0 <= val < Z.of_nat (length inv) ->
  setitem inv val i = Ok (<[Z.to_nat val := i]> inv).
Proof.
  intros Hv. unfold setitem, norm_index. by rewrite decide_True.
Qed.

Lemma invert_loop_lookup (ps : list (Z * Z)) (inv : list Z) :
  length inv = 16%nat ->
  NoDup ps.*2 ->
  (forall p, p ∈ ps.*2 -> 0 <= p < 16) ->
  exists inv',
    for_each ps (fun inv '(i, val) => setitem inv val i) inv = Ok inv' /\
    length inv' = 16%nat /\
    (forall i v, (i, v) ∈ ps -> inv' !! Z.to_nat v = Some i) /\
    (forall p, 0 <= p -> p ∉ ps.*2 -> inv' !! Z.to_nat p = inv !! Z.to_nat p).
Proof.
  revert inv. induction ps as [|[i v] ps IH]; intros inv Hlen Hnd Hr.
  - exists inv. split; [reflexivity|]. split; [done|]. split; [|done].
    intros i v Hin. by apply elem_of_nil in Hin.
  - cbn [fmap list_fmap snd] in Hnd, Hr. apply NoDup_cons in Hnd as [Hv Hnd].
    assert (Hv16 : 0 <= v < 16) by (apply Hr; left).
    cbn [for_each]. rewrite setitem_nonneg by lia. rewrite bind_Ok.
    destruct (IH (<[Z.to_nat v := i]> inv)) as (inv' & Hrun & Hlen' & Hin & Hout).
    { by rewrite length_insert. }
    { done. }
    { intros p Hp. apply Hr. by right. }
    exists inv'. split; [done|]. split; [done|]. split.
    + intros j w Hjw. apply elem_of_cons in Hjw as [Heq|Hjw]; [|by apply Hin].
      injection Heq as -> ->. rewrite Hout by (done || lia).
      apply list_lookup_insert_eq. lia.
    + intros p Hp Hnin. cbn [fmap list_fmap snd] in Hnin.
      apply not_elem_of_cons in Hnin as [Hne Hnin].
      rewrite Hout by done. apply list_lookup_insert_ne. lia.
Qed.

Lemma invert_table_inverts (table : list Z) :
  bijection16 table ->
  exists inv, SPN.invert_table table = Ok inv /\ inverts table inv /\ bijection16 inv.
Proof.
  intros Hb. pose proof (bijection16_length _ Hb) as Hlen.
  unfold SPN.invert_table.
  assert (Hsnd : (zip (seqZ 0 (Z.of_nat (length table))) table).*2 = table).
  { apply snd_zip. rewrite length_seqZ. lia. }
  destruct (invert_loop_lookup (zip (seqZ 0 (Z.of_nat (length table))) table)
              (replicate 16 0)) as (inv & Hrun & Hlen' & Hin & _).
  { reflexivity. }
  { rewrite Hsnd. by apply bijection16_NoDup. }
  { intros p. rewrite Hsnd. by apply bijection16_range. }
  assert (Hinv : inverts table inv).
  { intros i v Hi Hv. apply Hin. apply list_elem_of_lookup. exists (Z.to_nat i).
    apply lookup_zip_with_Some. exists i, v. split; [done|]. split; [|done].
    rewrite Hlen. apply lookup_seqZ. lia. }
  exists inv. split; [exact Hrun|]. split; [exact Hinv|].
  (* every position of [inv] holds the index of that position in [table] *)
  assert (Hall : forall q, 0 <= q < 16 ->
            exists i, 0 <= i < 16 /\ table !! Z.to_nat i = Some q
                      /\ inv !! Z.to_nat q = Some i).
  { intros q Hq. apply (bijection16_range table q Hb) in Hq as Hin'.
    apply list_elem_of_lookup_1 in Hin' as [n Hn].
    assert ((n < 16)%nat) by (apply lookup_lt_Some in Hn; lia).
    exists (Z.of_nat n). rewrite Nat2Z.id. split; [lia|]. split; [done|].
    apply Hinv; [lia | by rewrite Nat2Z.id]. }
  unfold bijection16. apply NoDup_Permutation.
  - apply NoDup_alt. intros a b x Ha Hb'.
    assert (Hla : (a < 16)%nat) by (apply lookup_lt_Some in Ha; lia).
    assert (Hlb : (b < 16)%nat) by (apply lookup_lt_Some in Hb'; lia).
    destruct (Hall (Z.of_nat a)) as (ia & _ & Hta & Hia); [lia|].
    destruct (Hall (Z.of_nat b)) as (ib & _ & Htb & Hib); [lia|].
    rewrite Nat2Z.id in Hia, Hib.
    assert (ia = ib) by congruence. subst ib.
    assert (Z.of_nat a = Z.of_nat b) by congruence. lia.
  - apply NoDup_seqZ.
  - intros x. rewrite elem_of_seqZ. split.
    + intros Hx. apply list_elem_of_lookup_1 in Hx as [n Hn].
      assert ((n < 16)%nat) by (apply lookup_lt_Some in Hn; lia).
      destruct (Hall (Z.of_nat n)) as (i & Hi & _ & Hii); [lia|].
      rewrite Nat2Z.id in Hii. assert (x = i) by congruence. lia.
    + intros Hx. destruct (bijection16_lookup table x Hb) as (q & Hq & Hq16); [lia|].
      apply list_elem_of_lookup_2 with (Z.to_nat q). apply (Hinv x q); [lia | done].
Qed.

Lemma init_inverse_tables sbox pbox round_keys rounds self :
  bijection16 sbox -> bijection16 pbox ->
  SPN.__init__ sbox pbox round_keys rounds = Ok self ->
  SPN.sbox self = sbox /\ SPN.pbox self = pbox /\
  inverts sbox (SPN.inv_sbox self) /\ bijection16 (SPN.inv_sbox self) /\
  inverts pbox (SPN.inv_pbox self) /\ bijection16 (SPN.inv_pbox self).
Proof.
  intros Hs Hp H. unfold SPN.__init__ in H.
  destruct (invert_table_inverts sbox Hs) as (inv_s & Hrun_s & His & Hbs).
  destruct (invert_table_inverts pbox Hp) as (inv_p & Hrun_p & Hip & Hbp).
  rewrite Hrun_s, bind_Ok, Hrun_p, bind_Ok in H. injection H as <-. done.
Qed.

(** On a valid configuration [_inv_permutation] undoes [_permutation]. *)
Lemma inv_permutation_permutation sbox pbox round_keys rounds self (s : Z) :
  bijection16 sbox -> bijection16 pbox ->
  SPN.__init__ sbox pbox round_keys rounds = Ok self ->
  0 <= s < 2 ^ 16 ->
  exists s', SPN._permutation self s = Ok s' /\ SPN._inv_permutation self s' = Ok s.
Proof.
  intros Hs Hp Hinit Hs16.
  destruct (init_inverse_tables _ _ _ _ _ Hs Hp Hinit) as (_ & Hpbox & _ & _ & Hinv & Hbinv).
  unfold SPN._permutation, SPN._inv_permutation. rewrite Hpbox.
  destruct (permute_spec pbox s Hp) as (s' & Hrun & Hrange & Hbits).
  destruct (permute_spec (SPN.inv_pbox self) s' Hbinv) as (s'' & Hrun' & Hrange' & Hbits').
  exists s'. split; [exact Hrun|]. rewrite Hrun'. f_equal.
  apply (bits_eq_below s'' s 16); [lia | done | done|].
  intros i Hi.
  destruct (bijection16_lookup pbox i Hp Hi) as (q & Hq & Hq16).
  rewrite <- (Hbits i q Hi Hq).
  apply (Hbits' q i Hq16). by apply Hinv.
Qed.

(** On a valid configuration [_inv_substitution] undoes [_substitution]. *)
Lemma inv_substitution_substitution sbox pbox round_keys rounds self (s : Z) :
  bijection16 sbox -> bijection16 pbox ->
  SPN.__init__ sbox pbox round_keys rounds = Ok self ->
  0 <= s < 2 ^ 16 ->
  exists s', SPN._substitution self s = Ok s' /\ SPN._inv_substitution self s' = Ok s.
Proof.
  intros Hs Hp Hinit Hs16.
  destruct (init_inverse_tables _ _ _ _ _ Hs Hp Hinit) as (Hsbox & _ & Hinv & Hbinv & _).
  unfold SPN._substitution, SPN._inv_substitution. rewrite Hsbox.
  destruct (substitute_spec sbox s Hs) as (s' & Hrun & Hrange & Hnib).
  destruct (substitute_spec (SPN.inv_sbox self) s' Hbinv) as (s'' & Hrun' & Hsub').
  exists s'. split; [exact Hrun|]. rewrite Hrun'. f_equal.
  apply (substituted_unique (SPN.inv_sbox self) s'); [done|].
  split; [done|]. intros j Hj.
  apply (Hinv (nibble s j) (nibble s' j)); [apply nibble_range | by apply Hnib].
Qed.

(** C1 fails on the code. On the configuration of the repository's tests
    (a bijective S-box and P-box, five round keys, four rounds),
    [encrypt(0x0000, 4)] is [0x37A1] and [decrypt(0x37A1, 4)] is [0x50A8],
    not [0x0000]: [decrypt] sends the state through [_permutation] where
    undoing a round needs [_inv_permutation], which does undo it
    ([inv_permutation_permutation] above). The last three equations show
    the two on one bit: the inverse permutation takes [0x1000] back to
    [0x0001], the permutation takes it on to [0x0800]. *)
Theorem decrypt_does_not_invert_encrypt :
  SPN.__init__ test_sbox test_pbox test_round_keys 4 = Ok test_spn /\
  bijection16 test_sbox /\ bijection16 test_pbox /\
  SPN.encrypt test_spn 0 4 = Ok 0x37A1 /\
  SPN.decrypt test_spn 0x37A1 4 = Ok 0x50A8 /\
  SPN._permutation test_spn 0x0001 = Ok 0x1000 /\
  SPN._inv_permutation test_spn 0x1000 = Ok 0x0001 /\
  SPN._permutation test_spn 0x1000 = Ok 0x0800.
Proof.
  repeat split; try reflexivity.
  - unfold bijection16. compute_done.
  - unfold bijection16. compute_done.
Qed.

(** ** Selection of the key guess *)

Lemma select_selected (score : Z -> Q) (key : Z -> Z) (gs : list Z) (q0 : Q) (k0 : Z) :
  selected score key q0 k0 gs
           (fst (foldl (select_step score key) (q0, k0) gs))
           (snd (foldl (select_step score key) (q0, k0) gs)).
Proof.
  revert q0 k0. induction gs as [|g gs IH]; intros q0 k0.
  - left. cbn. repeat split. intros g Hg. by apply elem_of_nil in Hg.
  - cbn [foldl].
    assert (Hstep : select_step score key (q0, k0) g
                    = if Qlt_le_dec q0 (score g) then (score g, key g) else (q0, k0))
      by reflexivity.
    rewrite Hstep. clear Hstep.
    destruct (Qlt_le_dec q0 (score g)) as [Hlt|Hle].
    + specialize (IH (score g) (key g)).
      destruct (foldl (select_step score key) (score g, key g) gs) as [q k].
      cbn [fst snd] in *.
      destruct IH as [(-> & -> & Hall)|
        (before & g2 & after & -> & -> & -> & Hlt2 & Hbefore & Hafter)].
      * right. exists [], g, gs. repeat split; try done.
        intros g' Hg'. by apply elem_of_nil in Hg'.
      * right. exists (g :: before), g2, after.
        repeat split; try done.
        -- by apply Qlt_trans with (score g).
        -- intros g' Hg'. apply elem_of_cons in Hg' as [->|Hg']; [done | by apply Hbefore].
    + specialize (IH q0 k0).
      destruct (foldl (select_step score key) (q0, k0) gs) as [q k].
      cbn [fst snd] in *.
      destruct IH as [(-> & -> & Hall)|
        (before & g2 & after & -> & -> & -> & Hlt2 & Hbefore & Hafter)].
      * left. repeat split; try done.
        intros g' Hg'. apply elem_of_cons in Hg' as [->|Hg']; [done | by apply Hall].
      * right. exists (g :: before), g2, after.
        repeat split; try done.
        intros g' Hg'. apply elem_of_cons in Hg' as [->|Hg']; [|by apply Hbefore].
        by apply Qle_lt_trans with q0.
Qed.

Lemma for_each_total {A B} (f : B -> A -> result B) (l : list A) (acc : B) :
  (forall acc x, x ∈ l -> exists acc', f acc x = Ok acc') ->
  exists r, for_each l f acc = Ok r.
Proof.
  revert acc. induction l as [|x l IH]; intros acc H; [by exists acc|].
  cbn. destruct (H acc x) as [acc' ->]; [left|]. rewrite bind_Ok.
  apply IH. intros; apply H; by right.
Qed.

Lemma inv_substitution_total (self : Cryptanalysis.t) (state : Z) :
  length (SPN.inv_sbox (Cryptanalysis.spn self)) = 16%nat ->
  exists s', SPN._inv_substitution (Cryptanalysis.spn self) state = Ok s'.
Proof. intros H. by apply substitute_total. Qed.

Lemma partially_decrypt_total (self : Cryptanalysis.t) samples key_guess :
  length (SPN.inv_sbox (Cryptanalysis.spn self)) = 16%nat ->
  Cryptanalysis.variant self = "linear"%string
  \/ Cryptanalysis.variant self = "differential"%string ->
  exists xs ys, Cryptanalysis._partially_decrypt self samples key_guess = Ok (Some (xs, ys)).
Proof.
  intros Hlen Hv. unfold Cryptanalysis._partially_decrypt.
  destruct (decide (Cryptanalysis.variant self = "linear"%string)) as [Hl|Hl].
  - match goal with
    | |- context [for_each samples ?f ?acc] =>
        destruct (for_each_total f samples acc) as [[xs ys] ->];
          [|exists xs, ys; reflexivity]
    end.
    intros [pts partials] [pt ct] _.
    destruct (inv_substitution_total self (Z.lxor ct key_guess) Hlen) as [s' ->].
    eexists. reflexivity.
  - rewrite decide_True by (by destruct Hv).
    match goal with
    | |- context [for_each samples ?f ?acc] =>
        destruct (for_each_total f samples acc) as [[xs ys] ->];
          [|exists xs, ys; reflexivity]
    end.
    intros [ps ps_alpha] [ct ct_alpha] _.
    destruct (inv_substitution_total self (Z.lxor ct key_guess) Hlen) as [s' ->].
    destruct (inv_substitution_total self (Z.lxor ct_alpha key_guess) Hlen) as [s'' ->].
    eexists. reflexivity.
Qed.

Lemma truediv_total (a b : Z) : b ≠ 0 -> exists q, truediv a b = Ok q.
Proof. intros H. unfold truediv. rewrite decide_False by done. by eexists. Qed.

Lemma guess_score_total (self : Cryptanalysis.t) alpha beta samples key_guess :
  length (SPN.inv_sbox (Cryptanalysis.spn self)) = 16%nat ->
  Cryptanalysis.variant self = "linear"%string
  \/ Cryptanalysis.variant self = "differential"%string ->
  samples ≠ [] ->
  exists q, guess_score self alpha beta samples key_guess = Ok q.
Proof.
  intros Hlen Hv Hne.
  destruct (partially_decrypt_total self samples key_guess Hlen Hv) as (xs & ys & Hpd).
  assert (HN : Z.of_nat (length samples) ≠ 0) by (destruct samples; [done | cbn; lia]).
  unfold guess_score, Cryptanalysis.linear_score, Cryptanalysis.differential_score.
  rewrite Hpd, !bind_Ok. cbn [Cryptanalysis.zip_star]. rewrite !bind_Ok.
  destruct (decide _).
  - edestruct truediv_total as [q ->]; [exact HN|]. rewrite bind_Ok. by eexists.
  - edestruct truediv_total as [q ->]; [exact HN|]. by eexists.
Qed.

Lemma quality_linear (self : Cryptanalysis.t) b :
  Cryptanalysis.variant self = "linear"%string ->
  quality self b = Cryptanalysis.bias_max b.
Proof. intros Hv. unfold quality. by rewrite decide_True. Qed.

Lemma quality_differential (self : Cryptanalysis.t) b :
  Cryptanalysis.variant self = "differential"%string ->
  quality self b = Cryptanalysis.prob_max b.
Proof. intros Hv. unfold quality. rewrite decide_False; [done | by rewrite Hv]. Qed.

(** One pass of the guess loop, in terms of the guess's score. *)
Lemma try_guess_step (self : Cryptanalysis.t) alpha beta samples active b g q :
  Cryptanalysis.variant self = "linear"%string
  \/ Cryptanalysis.variant self = "differential"%string ->
  guess_score self alpha beta samples (Cryptanalysis.key_guess_of active g) = Ok q ->
  exists b', Cryptanalysis.try_guess self alpha beta samples active b g = Ok b' /\
    (quality self b', Cryptanalysis.best_key_guess b')
    = select_step (fun _ => q) (fun _ => Cryptanalysis.key_guess_of active g)
                  (quality self b, Cryptanalysis.best_key_guess b) g.
Proof.
  intros Hv Hq. unfold guess_score in Hq. unfold Cryptanalysis.try_guess, select_step.
  cbn [fst].
  destruct Hv as [Hv|Hv].
  - rewrite decide_True in Hq by done.
    rewrite !(quality_linear self) by done.
    rewrite (decide_True (P := Cryptanalysis.variant self = "linear"%string)) by done.
    rewrite Hq, bind_Ok.
    destruct (Qlt_le_dec _ q); rewrite bind_Ok;
      rewrite (decide_False (P := Cryptanalysis.variant self = "differential"%string))
        by (rewrite Hv; done);
      eexists; (split; [reflexivity|]); by rewrite quality_linear.
  - rewrite decide_False in Hq by (rewrite Hv; done).
    rewrite !(quality_differential self) by done.
    rewrite (decide_False (P := Cryptanalysis.variant self = "linear"%string))
      by (rewrite Hv; done).
    rewrite bind_Ok.
    rewrite (decide_True (P := Cryptanalysis.variant self = "differential"%string)) by done.
    rewrite Hq, bind_Ok.
    destruct (Qlt_le_dec _ q); eexists; (split; [reflexivity|]);
      by rewrite quality_differential.
Qed.

Lemma guess_loop (self : Cryptanalysis.t) alpha beta samples active
    (score : Z -> Q) (gs : list Z) (b : Cryptanalysis.best) :
  Cryptanalysis.variant self = "linear"%string
  \/ Cryptanalysis.variant self = "differential"%string ->
  (forall g, g ∈ gs ->
     guess_score self alpha beta samples (Cryptanalysis.key_guess_of active g)
     = Ok (score g)) ->
  exists b', for_each gs (Cryptanalysis.try_guess self alpha beta samples active) b = Ok b' /\
    (quality self b', Cryptanalysis.best_key_guess b')
    = foldl (select_step score (Cryptanalysis.key_guess_of active))
            (quality self b, Cryptanalysis.best_key_guess b) gs.
Proof.
  intros Hv. revert b. induction gs as [|g gs IH]; intros b Hsc.
  - exists b. done.
  - cbn [for_each foldl].
    destruct (try_guess_step self alpha beta samples active b g (score g) Hv) as (b1 & -> & Hb1).
    { apply Hsc. left. }
    rewrite bind_Ok.
    destruct (IH b1) as (b' & -> & Hb'); [intros; apply Hsc; by right|].
    exists b'. split; [done|]. rewrite Hb', Hb1. reflexivity.
Qed.

Lemma enumerate_snd {A} (l : list A) : (Cryptanalysis.enumerate l).*2 = l.
Proof.
  unfold Cryptanalysis.enumerate. apply snd_zip. rewrite length_seqZ. lia.
Qed.

Lemma recovered_lookup (f : Z -> Z) (ps : list (Z * Z)) (m : gmap Z Z) (p : Z) :
  foldl (fun recovered_bits '(i, bit_pos) => <[bit_pos := f bit_pos]> recovered_bits) m ps
    !! p
  = if decide (p ∈ ps.*2) then Some (f p) else m !! p.
Proof.
  revert m. induction ps as [|[i bp] ps IH]; intros m.
  - cbn. rewrite decide_False; [done|]. apply not_elem_of_nil.
  - cbn [foldl fmap list_fmap snd]. rewrite IH.
    destruct (decide (p ∈ ps.*2)) as [Hin|Hn].
    + rewrite decide_True; [done | by right].
    + destruct (decide (bp = p)) as [->|Hne].
      * rewrite lookup_insert_eq. rewrite decide_True; [done | by left].
      * rewrite lookup_insert_ne by done.
        rewrite decide_False; [done|].
        intros H. apply elem_of_cons in H as [->|H]; done.
Qed.

(** C2. For an attack object built by the constructors and a list of
    samples that is not empty (so that every candidate has a score),
    [_find_key_bits] returns without an error an assignment for exactly the
    active bits, and a quality score. The running maximum starts at [0] and
    a candidate replaces it only with a strictly greater score: either no
    candidate's score exceeds [0], and then every active bit is [0] and the
    quality score is [0]; or the result is read off a candidate [g] whose
    score is positive, strictly greater than the score of every candidate
    enumerated before it and at least the score of every candidate
    enumerated after it, the first of the best ones. *)
Theorem find_key_bits_selection (set_iter : gset Z -> list Z)
    (sbox pbox round_keys : list Z) (rounds : Z) (spn : SPN.t)
    (num_rounds_char : Z) (variant : string) (cap : option Z) (fw : FP.t)
    (alpha beta : Z) (attack_samples : list (Z * Z)) :
  set_order set_iter ->
  SPN.__init__ sbox pbox round_keys rounds = Ok spn ->
  FP.__init__ spn num_rounds_char variant cap = Ok fw ->
  attack_samples ≠ [] ->
  let self := Cryptanalysis.__init__ fw in
  let target := FP.get_target_partial_subkey beta in
  let active_bits := set_iter target in
  let guesses := range (Z.shiftl 1 (Z.of_nat (length active_bits))) in
  exists (score : Z -> Q) (bits : gmap Z Z) (q : Q),
    (forall g, g ∈ guesses ->
       guess_score self alpha beta attack_samples
                   (Cryptanalysis.key_guess_of active_bits g) = Ok (score g)) /\
    Cryptanalysis._find_key_bits set_iter self alpha beta attack_samples
    = Ok (Some (bits, q)) /\
    dom bits = target /\
    (((forall g, g ∈ guesses -> (score g <= 0)%Q) /\ q = 0%Q /\
      (forall p, p ∈ target -> bits !! p = Some 0))
     \/
     (exists before g after,
        guesses = before ++ g :: after /\ q = score g /\ (0 < q)%Q /\
        (forall g', g' ∈ before -> (score g' < q)%Q) /\
        (forall g', g' ∈ after -> (score g' <= q)%Q) /\
        (forall p, p ∈ target ->
           bits !! p
           = Some (Z.land (Z.shiftr (Cryptanalysis.key_guess_of active_bits g) p) 1)))).
Proof.
  intros Hord Hspn Hfw Hne self target active_bits guesses.
  assert (Hlen : length (SPN.inv_sbox (Cryptanalysis.spn self)) = 16%nat).
  { unfold FP.__init__ in Hfw. destruct (decide _) in Hfw; [|discriminate].
    injection Hfw as <-. cbn. by eapply init_inv_sbox_length. }
  assert (Hv : Cryptanalysis.variant self = "linear"%string
               \/ Cryptanalysis.variant self = "differential"%string).
  { unfold FP.__init__ in Hfw. destruct (decide _) as [Hv|] in Hfw; [|discriminate].
    injection Hfw as <-. exact Hv. }
  (* every guess has a score *)
  set (sc := fun g =>
         match guess_score self alpha beta attack_samples
                           (Cryptanalysis.key_guess_of active_bits g) with
         | Ok q => q
         | Raise _ => 0%Q
         end).
  assert (Hsc : forall g, guess_score self alpha beta attack_samples
                            (Cryptanalysis.key_guess_of active_bits g) = Ok (sc g)).
  { intros g. subst sc. cbn beta.
    destruct (guess_score_total self alpha beta attack_samples
                (Cryptanalysis.key_guess_of active_bits g) Hlen Hv Hne) as [q ->]. done. }
  destruct (guess_loop self alpha beta attack_samples active_bits sc guesses
              (Cryptanalysis.Best 0 0 0) Hv (fun g _ => Hsc g)) as (b & Hloop & Hb).
  pose proof (select_selected sc (Cryptanalysis.key_guess_of active_bits) guesses 0%Q 0) as Hsel.
  assert (Hq0 : quality self (Cryptanalysis.Best 0 0 0) = 0%Q)
    by (unfold quality; by destruct (decide _)).
  rewrite Hq0 in Hb. cbn [Cryptanalysis.best_key_guess] in Hb. rewrite <- Hb in Hsel.
  cbn [fst snd] in Hsel.
  set (bits := foldl (fun recovered_bits '(i, bit_pos) =>
                        <[bit_pos := Z.land (Z.shiftr (Cryptanalysis.best_key_guess b) bit_pos) 1]>
                          recovered_bits)
                     (∅ : gmap Z Z) (Cryptanalysis.enumerate active_bits)).
  assert (Hin : forall p, p ∈ active_bits <-> p ∈ target).
  { intros p. subst active_bits. rewrite (Hord target). apply elem_of_elements. }
  assert (Hbits : forall p, p ∈ target ->
            bits !! p = Some (Z.land (Z.shiftr (Cryptanalysis.best_key_guess b) p) 1)).
  { intros p Hp. subst bits.
    rewrite (recovered_lookup
               (fun bp => Z.land (Z.shiftr (Cryptanalysis.best_key_guess b) bp) 1)).
    rewrite enumerate_snd, decide_True; [done | by apply Hin]. }
  exists sc, bits, (quality self b).
  split; [intros; apply Hsc|]. split; [|split].
  - unfold Cryptanalysis._find_key_bits. fold target. fold active_bits. fold guesses.
    rewrite Hloop, bind_Ok. fold bits. unfold quality.
    destruct Hv as [Hv|Hv].
    + by rewrite !decide_True by done.
    + rewrite !(decide_False (P := Cryptanalysis.variant self = "linear"%string))
        by (rewrite Hv; done).
      by rewrite decide_True by done.
  - apply set_eq. intros p. rewrite elem_of_dom. subst bits.
    rewrite (recovered_lookup
               (fun bp => Z.land (Z.shiftr (Cryptanalysis.best_key_guess b) bp) 1)).
    rewrite enumerate_snd. rewrite <- Hin.
    destruct (decide (p ∈ active_bits)); [by split; eauto|].
    rewrite lookup_empty. split; [by intros [? ?] | done].
  - destruct Hsel as [(Hq & Hk & Hall)|
      (before & g & after & Hgs & Hq & Hk & Hlt & Hbefore & Hafter)].
    + left. repeat split; [done | done|].
      intros p Hp. rewrite (Hbits p Hp), Hk. by rewrite Z.shiftr_0_l.
    + right. exists before, g, after. repeat split; try done.
      intros p Hp. by rewrite (Hbits p Hp), Hk.
Qed.

Lemma find_key_bits_selection_witness :
  exists (bits : gmap Z Z) (q : Q),
    Cryptanalysis._find_key_bits elements (Cryptanalysis.__init__ test_framework)
                                 0x0001 0x0001 [(0, 0x37A1); (1, 0x8A2B)]
    = Ok (Some (bits, q)) /\
    dom bits = FP.get_target_partial_subkey 0x0001.
Proof.
  destruct (find_key_bits_selection elements test_sbox test_pbox test_round_keys 4
              test_spn 3 "linear" (Some 3) test_framework 0x0001 0x0001
              [(0, 0x37A1); (1, 0x8A2B)])
    as (score & bits & q & _ & Hfind & Hdom & _).
  - intros s. reflexivity.
  - reflexivity.
  - reflexivity.
  - discriminate.
  - exists bits, q. split; [exact Hfind | exact Hdom].
Defined.

(** ** Merging the recovered bits *)

Lemma merge_bits_lookup (g : gmap Z Z) (s : Q) (acc : gmap Z (Z * Q)) (p : Z) :
  Cryptanalysis.merge_bits g s acc !! p
  = match g !! p with
    | None => acc !! p
    | Some v =>
        match acc !! p with
        | None => Some (v, s)
        | Some (v0, s0) => if Qlt_le_dec s0 s then Some (v, s) else Some (v0, s0)
        end
    end.
Proof.
  unfold Cryptanalysis.merge_bits. revert p.
  apply (map_fold_weak_ind
           (fun (r : gmap Z (Z * Q)) (m : gmap Z Z) =>
              forall p, r !! p = match m !! p with
                                 | None => acc !! p
                                 | Some v =>
                                     match acc !! p with
                                     | None => Some (v, s)
                                     | Some (v0, s0) =>
                                         if Qlt_le_dec s0 s then Some (v, s)
                                         else Some (v0, s0)
                                     end
                                 end)).
  - intros p. by rewrite lookup_empty.
  - intros i x m r Hi IH p.
    pose proof (IH i) as IHi. rewrite Hi in IHi.
    destruct (decide (i = p)) as [->|Hne].
    + rewrite lookup_insert_eq. rewrite IHi.
      destruct (acc !! p) as [[v0 s0]|] eqn:Hacc.
      * destruct (Qlt_le_dec s0 s); [by rewrite lookup_insert_eq|]. by rewrite IHi.
      * by rewrite lookup_insert_eq.
    + rewrite (lookup_insert_ne m) by done. rewrite <- IH.
      destruct (r !! i) as [[v0 s0]|].
      * destruct (Qlt_le_dec s0 s); [by rewrite lookup_insert_ne|done].
      * by rewrite lookup_insert_ne.
Qed.

Lemma merge_all_snoc (rs : list (gmap Z Z * Q)) (g : gmap Z Z) (s : Q) :
  merge_all (rs ++ [(g, s)]) = Cryptanalysis.merge_bits g s (merge_all rs).
Proof. unfold merge_all, merge_from. by rewrite foldl_app. Qed.

Lemma merge_all_lookup (rs : list (gmap Z Z * Q)) (p : Z) :
  match merge_all rs !! p with
  | None => forall r, r ∈ rs -> r.1 !! p = None
  | Some (v, s) => kept_from rs p v s
  end.
Proof.
  induction rs as [|[g s] rs IH] using rev_ind.
  - unfold merge_all, merge_from. cbn. rewrite lookup_empty.
    intros r Hr. by apply elem_of_nil in Hr.
  - rewrite merge_all_snoc, merge_bits_lookup.
    destruct (g !! p) as [v|] eqn:Hg.
    + destruct (merge_all rs !! p) as [[v0 s0]|] eqn:Hm.
      * destruct IH as (before & g0 & after & Hrs & Hg0 & Hbefore & Hafter).
        destruct (Qlt_le_dec s0 s) as [Hlt|Hle].
        -- exists rs, g, []. repeat split; [done| |].
           ++ intros r Hr Hp. rewrite Hrs in Hr.
              apply elem_of_app in Hr as [Hr|Hr].
              ** apply Qlt_trans with s0; [by apply Hbefore | done].
              ** apply elem_of_cons in Hr as [->|Hr]; [done|].
                 apply Qle_lt_trans with s0; [by apply Hafter | done].
           ++ intros r Hr. by apply elem_of_nil in Hr.
        -- exists before, g0, (after ++ [(g, s)]). repeat split; [|done|done|].
           ++ rewrite Hrs. by rewrite <- app_assoc.
           ++ intros r Hr Hp. apply elem_of_app in Hr as [Hr|Hr]; [by apply Hafter|].
              apply list_elem_of_singleton in Hr as ->. done.
      * exists rs, g, []. repeat split; [done| |].
        -- intros r Hr [x Hx]. rewrite (IH r Hr) in Hx. done.
        -- intros r Hr. by apply elem_of_nil in Hr.
    + destruct (merge_all rs !! p) as [[v0 s0]|] eqn:Hm.
      * destruct IH as (before & g0 & after & Hrs & Hg0 & Hbefore & Hafter).
        exists before, g0, (after ++ [(g, s)]). repeat split; [|done|done|].
        -- rewrite Hrs. by rewrite <- app_assoc.
        -- intros r Hr Hp. apply elem_of_app in Hr as [Hr|Hr]; [by apply Hafter|].
           apply list_elem_of_singleton in Hr as ->. cbn in Hp. rewrite Hg in Hp.
           by destruct Hp.
      * intros r Hr. apply elem_of_app in Hr as [Hr|Hr]; [by apply IH|].
        apply list_elem_of_singleton in Hr as ->. done.
Qed.

Lemma testbit_shiftl_1 (i p : Z) :
  0 <= p -> Z.testbit (Z.shiftl 1 i) p = bool_decide (p = i).
Proof.
  intros Hp. rewrite Z.shiftl_spec by done. rewrite testbit_1.
  apply bool_decide_ext. lia.
Qed.

Lemma assemble_key_testbit (m : gmap Z (Z * Q)) (p : Z) :
  0 <= p ->
  Z.testbit (Cryptanalysis.assemble_key m) p
  = match m !! p with
    | Some (v, _) => bool_decide (v ≠ 0)
    | None => false
    end.
Proof.
  intros Hp. unfold Cryptanalysis.assemble_key.
  apply (map_fold_weak_ind
           (fun (key : Z) (m : gmap Z (Z * Q)) =>
              Z.testbit key p = match m !! p with
                                | Some (v, _) => bool_decide (v ≠ 0)
                                | None => false
                                end)).
  - rewrite lookup_empty. apply Z.bits_0.
  - intros i [v s] m' key Hi IH.
    destruct (decide (i = p)) as [->|Hne].
    + rewrite lookup_insert_eq. rewrite Hi in IH.
      destruct (decide (v ≠ 0)) as [Hv|Hv].
      * rewrite Z.lor_spec, IH, testbit_shiftl_1 by done.
        by rewrite !bool_decide_eq_true_2.
      * by rewrite IH, bool_decide_eq_false_2.
    + rewrite lookup_insert_ne by done.
      destruct (decide (v ≠ 0)); [|done].
      rewrite Z.lor_spec, IH, testbit_shiftl_1 by done.
      rewrite (bool_decide_eq_false_2 (p = i)) by done. apply orb_false_r.
Qed.

Lemma attack_loop (randint : nat -> Z) (set_iter : gset Z -> list Z)
    (self : Cryptanalysis.t) (n : Z) (chars : list CS.characteristic)
    (acc : gmap Z (Z * Q)) (k : nat) (m : gmap Z (Z * Q)) (k' : nat) :
  for_each chars (Cryptanalysis.attack_characteristic randint set_iter self n) (acc, k)
  = Ok (m, k') ->
  exists rs, Forall2 (outcome_of set_iter self) chars rs /\ m = merge_from acc rs.
Proof.
  revert acc k. induction chars as [|[[alpha beta] score] chars IH]; intros acc k H.
  - cbn in H. injection H as <- <-. exists []. split; [constructor | done].
  - cbn [for_each] in H.
    unfold Cryptanalysis.attack_characteristic at 2 in H.
    destruct (FP.generate_samples randint (Cryptanalysis.framework self) k n alpha)
      as [[[samples|] k1]|]; cbn in H; try discriminate.
    destruct (Cryptanalysis._find_key_bits set_iter self alpha beta samples)
      as [[[bits q]|]|] eqn:Hfind; cbn in H; try discriminate.
    destruct (IH _ _ H) as (rs & Hrs & ->).
    exists ((bits, q) :: rs). split; [|done].
    constructor; [|done]. by exists samples.
Qed.

Lemma find_key_bits_dom (set_iter : gset Z -> list Z) (self : Cryptanalysis.t)
    (alpha beta : Z) (attack_samples : list (Z * Z)) (bits : gmap Z Z) (q : Q) :
  set_order set_iter ->
  Cryptanalysis._find_key_bits set_iter self alpha beta attack_samples
  = Ok (Some (bits, q)) ->
  dom bits = FP.get_target_partial_subkey beta.
Proof.
  intros Hord H. unfold Cryptanalysis._find_key_bits in H.
  destruct (for_each _ _ _) as [b|] in H; [|discriminate]. rewrite bind_Ok in H.
  assert (bits = foldl (fun recovered_bits '(i, bit_pos) =>
                          <[bit_pos := Z.land (Z.shiftr (Cryptanalysis.best_key_guess b)
                                                        bit_pos) 1]> recovered_bits)
                       (∅ : gmap Z Z)
                       (Cryptanalysis.enumerate
                          (set_iter (FP.get_target_partial_subkey beta)))) as ->.
  { repeat (destruct (decide _) in H); congruence. }
  apply set_eq. intros p. rewrite elem_of_dom.
  rewrite (recovered_lookup
             (fun bp => Z.land (Z.shiftr (Cryptanalysis.best_key_guess b) bp) 1)).
  rewrite enumerate_snd.
  assert (Hin : p ∈ set_iter (FP.get_target_partial_subkey beta)
                <-> p ∈ FP.get_target_partial_subkey beta).
  { rewrite (Hord (FP.get_target_partial_subkey beta)). apply elem_of_elements. }
  clear H. destruct (decide (p ∈ _)) as [Hd|Hd].
  - split; [intros _; by apply Hin | eauto].
  - rewrite lookup_empty. split; [by intros [? ?] | intros Hp; by apply Hin in Hp].
Qed.

(** C3. When [find_last_round_key] returns a key, the key is assembled
    from the merge of the outcomes [rs] of [_find_key_bits], one per
    characteristic and in their order, and it is a 16-bit value. A position
    that no outcome recovered is [0] in the key. A position that several
    outcomes recovered keeps the value of the outcome with the strictly
    higher quality score, and on an exact tie of the earlier one: the kept
    entry [(v, s)] comes from an outcome before which every outcome holding
    the position scored strictly less than [s], and after which every one
    scored at most [s]; the key's bit is set exactly when [v] is not zero. *)
Theorem last_round_key_merge (check : CS.checker)
    (randint : nat -> Z) (set_iter : gset Z -> list Z)
    (self : Cryptanalysis.t) (k : nat) (num_attack_samples key : Z) :
  set_order set_iter ->
  Cryptanalysis.find_last_round_key check randint set_iter self k num_attack_samples
  = Ok key ->
  exists chars rs,
    FP.generate_characteristics check (Cryptanalysis.framework self) = Ok chars /\
    Forall2 (outcome_of set_iter self) chars rs /\
    key = Cryptanalysis.assemble_key (merge_all rs) /\
    0 <= key < 2 ^ 16 /\
    (forall p, 0 <= p -> (forall r, r ∈ rs -> r.1 !! p = None) ->
               Z.testbit key p = false) /\
    (forall p, 0 <= p -> (exists r, r ∈ rs /\ is_Some (r.1 !! p)) ->
               exists v s, kept_from rs p v s /\ merge_all rs !! p = Some (v, s) /\
                           Z.testbit key p = bool_decide (v ≠ 0)).
Proof.
  intros Hord H. unfold Cryptanalysis.find_last_round_key in H.
  destruct (FP.generate_characteristics check (Cryptanalysis.framework self))
    as [chars|]; [|discriminate].
  rewrite bind_Ok in H.
  destruct (for_each chars _ _) as [[m k']|] eqn:Hloop; [|discriminate].
  cbn in H. injection H as <-.
  destruct (attack_loop _ _ _ _ _ _ _ _ _ Hloop) as (rs & Hrs & ->).
  fold (merge_all rs).
  assert (Hnone : forall p, 0 <= p -> (forall r, r ∈ rs -> r.1 !! p = None) ->
                  Z.testbit (Cryptanalysis.assemble_key (merge_all rs)) p = false).
  { intros p Hp Hall. rewrite assemble_key_testbit by done.
    pose proof (merge_all_lookup rs p) as Hm.
    destruct (merge_all rs !! p) as [[v s]|]; [|done].
    destruct Hm as (before & g & after & -> & Hg & _).
    assert (Hx : (g, s).1 !! p = None) by (apply Hall, elem_of_app; right; left).
    cbn in Hx. congruence. }
  exists chars, rs. repeat split; try done.
  - (* nonnegative *)
    unfold Cryptanalysis.assemble_key.
    apply (map_fold_weak_ind (fun (key : Z) (_ : gmap Z (Z * Q)) => 0 <= key)); [done|].
    intros i [v s] m r _ IH. destruct (decide _); [|done].
    rewrite Z.lor_nonneg, Z.shiftl_nonneg. lia.
  - (* below 2^16 *)
    set (key := Cryptanalysis.assemble_key (merge_all rs)).
    assert (0 <= key).
    { unfold key, Cryptanalysis.assemble_key.
      apply (map_fold_weak_ind (fun (key : Z) (_ : gmap Z (Z * Q)) => 0 <= key)); [done|].
      intros i [v s] m r _ IH. destruct (decide _); [|done].
      rewrite Z.lor_nonneg, Z.shiftl_nonneg. lia. }
    destruct (decide (key = 0)) as [->|Hne]; [done|].
    apply Z.log2_lt_pow2; [lia|].
    destruct (decide (Z.log2 key < 16)) as [|Hge]; [done|].
    assert (Hbit : Z.testbit key (Z.log2 key) = true) by (apply Z.bit_log2; lia).
    rewrite Hnone in Hbit; [done | lia|].
    intros [bits q] Hr. cbn.
    apply list_elem_of_lookup_1 in Hr as [i Hi].
    destruct (Forall2_lookup_r _ _ _ _ _ Hrs Hi) as ([[alpha beta] sc] & _ & samples & Hfind).
    cbn in Hfind. apply (find_key_bits_dom _ _ _ _ _ _ _ Hord) in Hfind.
    apply not_elem_of_dom. rewrite Hfind. intros Hin. apply target_range in Hin. lia.
  - intros p Hp (r & Hr & Hsome).
    pose proof (merge_all_lookup rs p) as Hm.
    destruct (merge_all rs !! p) as [[v s]|] eqn:Hlook.
    + exists v, s. repeat split; [done|].
      rewrite assemble_key_testbit by done. by rewrite Hlook.
    + rewrite (Hm r Hr) in Hsome. by destruct Hsome.
Qed.

Lemma last_round_key_merge_witness :
  Cryptanalysis.find_last_round_key test_solver test_randint elements
    (Cryptanalysis.__init__ test_framework) 0 2 = Ok 0x0AA0 /\
  exists rs, 0x0AA0 = Cryptanalysis.assemble_key (merge_all rs).
Proof.
  assert (Hrun : Cryptanalysis.find_last_round_key test_solver test_randint elements
                   (Cryptanalysis.__init__ test_framework) 0 2 = Ok 0x0AA0)
    by (vm_compute; reflexivity).
  split; [exact Hrun|].
  destruct (last_round_key_merge test_solver test_randint elements
              (Cryptanalysis.__init__ test_framework) 0 2 0x0AA0)
    as (chars & rs & _ & _ & Hkey & _).
  - intros s. reflexivity.
  - exact Hrun.
  - exists rs. exact Hkey.
Defined.

(** ** Search results *)

Lemma candidate_solver_sound candidates : sound (candidate_solver candidates).
Proof.
  intros s m H. unfold candidate_solver in H. apply find_some in H as [_ H].
  unfold CS.satisfies. apply Forall_forall. intros f Hf.
  rewrite forallb_forall in H. apply H. by apply list_elem_of_In.
Qed.

Lemma is_ok_true {A : Type} (r : result A) : is_ok r = true -> exists a, r = Ok a.
Proof. destruct r; [eauto | discriminate]. Qed.

Lemma bind_is_ok {A B} (r : result A) (f : A -> result B) :
  is_ok (r ≫= f) = true -> exists a, r = Ok a /\ is_ok (f a) = true.
Proof. destruct r as [a|]; [by exists a | discriminate]. Qed.

Lemma elem_of_solver_add (s : CS.optimize) (f g : CS.formula) :
  g ∈ CS.assertions (CS.solver_add s f)
  <-> g ∈ CS.assertions s \/ g = f.
Proof.
  unfold CS.solver_add. cbn. rewrite elem_of_app, list_elem_of_singleton. done.
Qed.

(** What [_add_constraints] leaves in the solver, whatever the rounds added. *)
Lemma add_constraints_endpoints (self self' : CS.t) :
  CS._add_constraints self = Ok self' ->
  CS.in_masks self' = CS.in_masks self /\
  exists in_first in_last,
    getitem (CS.in_masks self) 0 = Ok in_first /\
    getitem (CS.in_masks self) (-1) = Ok in_last /\
    CS.BvNeC (CS.BV in_first) 0 ∈ CS.assertions (CS.solver self') /\
    CS.BvNeC (CS.BV in_last) 0 ∈ CS.assertions (CS.solver self').
Proof.
  unfold CS._add_constraints. intros H.
  apply bind_Ok_inv in H as ([[slv prob_terms] per_round] & _ & H).
  apply bind_Ok_inv in H as (product_expr & _ & H).
  apply bind_Ok_inv in H as (in_first & Hfirst & H).
  apply bind_Ok_inv in H as (in_last & Hlast & H).
  injection H as <-. cbn [CS.solver CS.in_masks].
  split; [done|]. exists in_first, in_last. repeat split; [done | done | |].
  - rewrite !elem_of_solver_add. left. by right.
  - rewrite !elem_of_solver_add. by right.
Qed.

Lemma init_endpoints spn num_rounds variant cap (self : CS.t) :
  CS.__init__ spn num_rounds variant cap = Ok self ->
  exists in_first in_last,
    getitem (CS.in_masks self) 0 = Ok in_first /\
    getitem (CS.in_masks self) (-1) = Ok in_last /\
    CS.BvNeC (CS.BV in_first) 0 ∈ CS.assertions (CS.solver self) /\
    CS.BvNeC (CS.BV in_last) 0 ∈ CS.assertions (CS.solver self).
Proof.
  unfold CS.__init__. intros H.
  destruct (decide _) in H; [|discriminate].
  apply bind_Ok_inv in H as (table & _ & H).
  apply add_constraints_endpoints in H as (Hmasks & in_first & in_last & H0 & Hl & Ha & Hb).
  exists in_first, in_last. rewrite Hmasks. done.
Qed.

Lemma mandatory_loop (masks : list CS.bvar) (required : list Z)
    (slv slv' : CS.optimize) :
  for_each required
    (fun slv i =>
       in_last ← getitem masks (-1);
       nibble ← CS.mk_extract ((i + 1) * 4 - 1) (i * 4) in_last;
       Ok (CS.solver_add slv (CS.BvNeC nibble 0)))
    slv = Ok slv' ->
  (forall f, f ∈ CS.assertions slv -> f ∈ CS.assertions slv') /\
  (forall i, i ∈ required ->
     exists in_last,
       getitem masks (-1) = Ok in_last /\ 0 <= i < 4 /\
       CS.BvNeC (CS.Extract ((i + 1) * 4 - 1) (i * 4) in_last) 0 ∈ CS.assertions slv').
Proof.
  revert slv. induction required as [|i required IH]; intros slv H.
  - cbn in H. injection H as <-. split; [done|]. intros i Hi. by apply elem_of_nil in Hi.
  - cbn [for_each] in H.
    apply bind_Ok_inv in H as (slv1 & Hstep & H).
    apply bind_Ok_inv in Hstep as (in_last & Hlast & Hstep).
    apply bind_Ok_inv in Hstep as (nib & Hnib & Hstep).
    injection Hstep as <-.
    unfold CS.mk_extract in Hnib.
    destruct (decide _) as [Hr|] in Hnib; [|discriminate]. injection Hnib as <-.
    destruct (IH _ H) as [Hmono Hreq]. split.
    + intros f Hf. apply Hmono. rewrite elem_of_solver_add. by left.
    + intros j Hj. apply elem_of_cons in Hj as [->|Hj].
      * exists in_last. split; [done|]. split; [lia|].
        apply Hmono. rewrite elem_of_solver_add. by right.
      * destruct (Hreq j Hj) as (v & Hv & Hrest). exists v. split; [congruence | done].
Qed.

Lemma add_mandatory_nibble_spec (self self' : CS.t) (required : list Z) :
  CS.add_mandatory_nibble self required = Ok self' ->
  CS.in_masks self' = CS.in_masks self /\
  (forall f, f ∈ CS.assertions (CS.solver self) -> f ∈ CS.assertions (CS.solver self')) /\
  (forall i, i ∈ required ->
     exists in_last,
       getitem (CS.in_masks self) (-1) = Ok in_last /\ 0 <= i < 4 /\
       CS.BvNeC (CS.Extract ((i + 1) * 4 - 1) (i * 4) in_last) 0
         ∈ CS.assertions (CS.solver self')).
Proof.
  unfold CS.add_mandatory_nibble. intros H.
  apply bind_Ok_inv in H as (slv & Hloop & H). injection H as <-. cbn.
  split; [done|]. by apply mandatory_loop.
Qed.

Lemma block_spec (self : CS.t) (slv slv' : CS.optimize) alpha beta :
  CS.block self slv alpha beta = Ok slv' ->
  forall f, f ∈ CS.assertions slv -> f ∈ CS.assertions slv'.
Proof.
  unfold CS.block. intros H.
  apply bind_Ok_inv in H as (in_first & _ & H).
  apply bind_Ok_inv in H as (in_last & _ & H).
  injection H as <-. intros f Hf. rewrite elem_of_solver_add. by left.
Qed.

Lemma eval_BvNeC_var (m : CS.model) (v : CS.bvar) :
  CS.eval m (CS.BvNeC (CS.BV v) 0) = true -> CS.as_long m v ≠ 0.
Proof. cbn. intros H. by apply bool_decide_eq_true_1 in H. Qed.

Lemma eval_BvNeC_nibble (m : CS.model) (v : CS.bvar) (i : Z) :
  CS.eval m (CS.BvNeC (CS.Extract ((i + 1) * 4 - 1) (i * 4) v) 0) = true ->
  Z.land (Z.shiftr (CS.as_long m v) (i * 4)) 15 ≠ 0.
Proof.
  cbn. intros H. apply bool_decide_eq_true_1 in H.
  replace ((i + 1) * 4 - 1 - i * 4 + 1) with 4 in H by lia.
  exact H.
Qed.

Section SearchResults.

Variable check : CS.checker.
Hypothesis check_sound : sound check.

(** The results of the enumeration loop are read off models of whatever
    was asserted when the loop started: the loop only adds assertions. *)
Lemma search_loop_reads (base : list CS.formula) (self : CS.t) (n : nat)
    (st st' : CS.search_state) :
  (forall f, f ∈ base -> f ∈ CS.assertions (CS.st_solver st)) ->
  Forall (read_from base self) (CS.st_results st) ->
  CS.search_loop check self n st = Ok st' ->
  Forall (read_from base self) (CS.st_results st').
Proof.
  revert st. induction n as [|n IH]; intros st Hbase Hres H.
  - cbn in H. by injection H as <-.
  - cbn [CS.search_loop] in H.
    destruct (check (CS.st_solver st)) as [m|] eqn:Hcheck; [|by injection H as <-].
    apply bind_Ok_inv in H as (in_first & Hfirst & H).
    apply bind_Ok_inv in H as (in_last & Hlast & H).
    assert (Hm : Forall (fun f => CS.eval m f = true) base).
    { apply Forall_forall. intros f Hf.
      pose proof (check_sound _ _ Hcheck) as Hsat. unfold CS.satisfies in Hsat.
      rewrite Forall_forall in Hsat. apply Hsat. by apply Hbase. }
    destruct (decide _) in H;
      apply bind_Ok_inv in H as (slv & Hblock & H); apply IH in H; try done.
    + cbn. intros f Hf. eapply block_spec; eauto.
    + cbn. intros f Hf. eapply block_spec; eauto.
    + cbn. apply Forall_app. split; [done|].
      constructor; [|constructor]. exists m, in_first, in_last. done.
Qed.

(** C9. With a sound solver, every characteristic [(alpha, beta, score)]
    that [search_best_characteristic] returns has [alpha <> 0] and
    [beta <> 0], and for every nibble index [i] that [add_mandatory_nibble]
    marked, the 4-bit slice of [beta] at nibble position [i] is not zero. *)
Theorem returned_characteristics_nonzero
    (spn : SPN.t) (num_rounds : Z) (variant : string) (cap : option Z)
    (required : list Z) (num_solutions : Z)
    (s0 s1 s2 : CS.t) (results : list CS.characteristic) :
  CS.__init__ spn num_rounds variant cap = Ok s0 ->
  CS.add_mandatory_nibble s0 required = Ok s1 ->
  CS.search_best_characteristic check s1 num_solutions = Ok (results, s2) ->
  forall alpha beta score, (alpha, beta, score) ∈ results ->
    alpha ≠ 0 /\ beta ≠ 0 /\
    forall i, i ∈ required -> Z.land (Z.shiftr beta (i * 4)) 15 ≠ 0.
Proof.
  intros Hinit Hmand Hsearch alpha beta score Hin.
  destruct (init_endpoints _ _ _ _ _ Hinit) as (in_first & in_last & H0 & Hl & Ha & Hb).
  destruct (add_mandatory_nibble_spec _ _ _ Hmand) as (Hmasks & Hmono & Hreq).
  unfold CS.search_best_characteristic in Hsearch.
  apply bind_Ok_inv in Hsearch as (st & Hloop & Hsearch). injection Hsearch as <- _.
  apply (search_loop_reads (CS.assertions (CS.solver s1))) in Hloop;
    [|done|constructor].
  rewrite Forall_forall in Hloop.
  destruct (Hloop _ Hin) as (m & v0 & vl & Hm & Hv0 & Hvl & Heq).
  rewrite Hmasks in Hv0, Hvl.
  assert (v0 = in_first) as -> by congruence.
  assert (vl = in_last) as -> by congruence.
  injection Heq as -> -> _.
  rewrite Forall_forall in Hm.
  split; [|split].
  - apply eval_BvNeC_var, Hm, Hmono, Ha.
  - apply eval_BvNeC_var, Hm, Hmono, Hb.
  - intros i Hi. destruct (Hreq i Hi) as (vl' & Hvl' & _ & Hnib).
    assert (vl' = in_last) as -> by congruence.
    apply eval_BvNeC_nibble, Hm, Hnib.
Qed.

End SearchResults.

Lemma returned_characteristics_nonzero_witness :
  exists s0 s1 results s2,
    CS.__init__ test_spn 3 "linear" (Some 3) = Ok s0 /\
    CS.add_mandatory_nibble s0 [2] = Ok s1 /\
    CS.search_best_characteristic test_solver s1 2 = Ok (results, s2) /\
    endpoints (Ok (results, s2)) = [(4096, 256)] /\
    forall alpha beta score, (alpha, beta, score) ∈ results ->
      alpha ≠ 0 /\ beta ≠ 0 /\
      forall i, i ∈ [2] -> Z.land (Z.shiftr beta (i * 4)) 15 ≠ 0.
Proof.
  assert (Hres : endpoints (s0 ← CS.__init__ test_spn 3 "linear" (Some 3);
                            s1 ← CS.add_mandatory_nibble s0 [2];
                            CS.search_best_characteristic test_solver s1 2)
                 = [(4096, 256)]) by (vm_compute; reflexivity).
  assert (H : is_ok (s0 ← CS.__init__ test_spn 3 "linear" (Some 3);
                     s1 ← CS.add_mandatory_nibble s0 [2];
                     CS.search_best_characteristic test_solver s1 2) = true)
    by (vm_compute; reflexivity).
  apply bind_is_ok in H as (s0 & H0 & H).
  apply bind_is_ok in H as (s1 & H1 & H).
  apply is_ok_true in H as [[results s2] H2].
  rewrite H0, bind_Ok, H1, bind_Ok, H2 in Hres.
  exists s0, s1, results, s2.
  split; [exact H0|]. split; [exact H1|]. split; [exact H2|]. split; [exact Hres|].
  exact (returned_characteristics_nonzero test_solver (candidate_solver_sound _)
           test_spn 3 "linear" (Some 3) [2] 2 s0 s1 s2 results H0 H1 H2).
Defined.

(** ** An attack without samples *)

Lemma generate_characteristics_inv
    (check : CS.checker) (fw : FP.t)
    (chars : list CS.characteristic) :
  FP.generate_characteristics check fw = Ok chars ->
  (FP.variant fw = "linear"%string \/ FP.variant fw = "differential"%string)
  /\ exists c rest, chars = c :: rest.
Proof.
  unfold FP.generate_characteristics.
  change (range 4) with ([0; 1; 2] ++ [3]). rewrite for_each_app. intros H.
  apply bind_Ok_inv in H as (masks & _ & H). cbn [for_each] in H.
  apply bind_Ok_inv in H as (r & H & Hr). cbn in Hr. injection Hr as ->.
  apply bind_Ok_inv in H as (s0 & Hinit & H).
  apply bind_Ok_inv in H as (s1 & _ & H).
  apply bind_Ok_inv in H as ([found s2] & _ & H).
  apply bind_Ok_inv in H as (c & _ & H). injection H as <-.
  split.
  - unfold CS.__init__ in Hinit.
    destruct (decide _) as [Hv|] in Hinit; [done | discriminate].
  - destruct masks as [|c0 masks]; cbn; eauto.
Qed.

Lemma range_shiftl_1 (n : nat) :
  exists rest, range (Z.shiftl 1 (Z.of_nat n)) = 0 :: rest.
Proof.
  unfold range. rewrite Z.shiftl_1_l.
  assert (0 < 2 ^ Z.of_nat n) by (apply Z.pow_pos_nonneg; lia).
  rewrite seqZ_cons by done. eauto.
Qed.

Lemma first_guess_divides_by_zero (self : Cryptanalysis.t) alpha beta active b g :
  Cryptanalysis.variant self = "linear"%string
  \/ Cryptanalysis.variant self = "differential"%string ->
  Cryptanalysis.try_guess self alpha beta [] active b g = Raise ZeroDivisionError.
Proof.
  intros Hv. unfold Cryptanalysis.try_guess, Cryptanalysis.linear_score,
    Cryptanalysis.differential_score, Cryptanalysis._partially_decrypt.
  destruct Hv as [Hv|Hv].
  - rewrite !(decide_True (P := Cryptanalysis.variant self = "linear"%string)) by done.
    reflexivity.
  - rewrite !(decide_False (P := Cryptanalysis.variant self = "linear"%string))
      by (rewrite Hv; done).
    rewrite bind_Ok.
    rewrite !(decide_True (P := Cryptanalysis.variant self = "differential"%string)) by done.
    reflexivity.
Qed.

Lemma generate_no_samples (randint : nat -> Z) (fw : FP.t) (k : nat) alpha :
  FP.variant fw = "linear"%string \/ FP.variant fw = "differential"%string ->
  FP.generate_samples randint fw k 0 alpha = Ok (Some [], k).
Proof.
  intros Hv. unfold FP.generate_samples, FP.draw.
  change (Z.to_nat 0) with 0%nat. rewrite Nat.add_0_r.
  destruct Hv as [Hv|Hv].
  - by rewrite decide_True by done.
  - rewrite decide_False by (rewrite Hv; done). by rewrite decide_True by done.
Qed.

(** [_find_key_bits] on an empty sample list: the first candidate divides
    its match count by the sample count [0]. *)
Lemma find_key_bits_no_samples (set_iter : gset Z -> list Z)
    (self : Cryptanalysis.t) (alpha beta : Z) :
  Cryptanalysis.variant self = "linear"%string
  \/ Cryptanalysis.variant self = "differential"%string ->
  Cryptanalysis._find_key_bits set_iter self alpha beta [] = Raise ZeroDivisionError.
Proof.
  intros Hv. unfold Cryptanalysis._find_key_bits.
  destruct (range_shiftl_1 (length (set_iter (FP.get_target_partial_subkey beta))))
    as [guesses ->].
  cbn [for_each]. by rewrite first_guess_divides_by_zero.
Qed.

(** C10. [_find_key_bits] divides the match count by the sample count
    without a guard: on an empty sample list it raises a division-by-zero
    error, for every characteristic. So when the four characteristics are
    found, [find_last_round_key(0)] does not return a key but fails with
    that error, at the first characteristic. *)
Theorem no_samples_division_by_zero
    (check : CS.checker) (randint : nat -> Z) (set_iter : gset Z -> list Z)
    (fw : FP.t) (k : nat) (chars : list CS.characteristic) :
  FP.generate_characteristics check fw = Ok chars ->
  (forall alpha beta,
     Cryptanalysis._find_key_bits set_iter (Cryptanalysis.__init__ fw) alpha beta []
     = Raise ZeroDivisionError) /\
  Cryptanalysis.find_last_round_key check randint set_iter (Cryptanalysis.__init__ fw) k 0
  = Raise ZeroDivisionError.
Proof.
  intros Hgen.
  destruct (generate_characteristics_inv _ _ _ Hgen) as (Hv & [[alpha beta] sc] & rest & ->).
  split; [intros; by apply find_key_bits_no_samples|].
  unfold Cryptanalysis.find_last_round_key.
  cbn [Cryptanalysis.framework Cryptanalysis.__init__]. rewrite Hgen, bind_Ok.
  cbn [for_each]. unfold Cryptanalysis.attack_characteristic at 2.
  cbn [Cryptanalysis.framework Cryptanalysis.__init__].
  rewrite generate_no_samples by done. rewrite bind_Ok.
  by rewrite find_key_bits_no_samples.
Qed.

Lemma no_samples_division_by_zero_witness :
  Cryptanalysis._find_key_bits elements (Cryptanalysis.__init__ test_framework) 1 1 []
  = Raise ZeroDivisionError /\
  Cryptanalysis.find_last_round_key test_solver test_randint elements
    (Cryptanalysis.__init__ test_framework) 0 0 = Raise ZeroDivisionError.
Proof.
  assert (H : is_ok (FP.generate_characteristics test_solver test_framework) = true)
    by (vm_compute; reflexivity).
  destruct (FP.generate_characteristics test_solver test_framework)
    as [chars|] eqn:Hgen; [|discriminate].
  destruct (no_samples_division_by_zero test_solver test_randint elements
              test_framework 0 chars Hgen) as [Hfind Hkey].
  split; [apply Hfind | exact Hkey].
Defined.

(** ** Round trips of the substitution and the permutation *)

Lemma init_fields sbox pbox round_keys rounds self :
  SPN.__init__ sbox pbox round_keys rounds = Ok self ->
  SPN.sbox self = sbox /\ SPN.pbox self = pbox /\
  SPN.round_keys self = round_keys /\ SPN.rounds self = rounds /\
  SPN.invert_table sbox = Ok (SPN.inv_sbox self) /\
  SPN.invert_table pbox = Ok (SPN.inv_pbox self).
Proof.
  unfold SPN.__init__. intros H.
  apply bind_Ok_inv in H as (inv_s & Hs & H).
  apply bind_Ok_inv in H as (inv_p & Hp & H).
  injection H as <-. cbn. done.
Qed.

Lemma nibble_mod s j : 0 <= j < 4 -> nibble (s mod 2 ^ 16) j = nibble s j.
Proof.
  intros Hj. apply Z.bits_inj'. intros n Hn.
  rewrite !testbit_nibble by lia.
  destruct (decide (n < 4)) as [Hlt|Hge].
  - rewrite Z.mod_pow2_bits_low by lia. done.
  - by rewrite bool_decide_eq_false_2.
Qed.

Lemma inverts_sym (t t' : list Z) :
  bijection16 t -> inverts t t' -> inverts t' t.
Proof.
  intros Ht Hinv i v Hi Hv.
  apply (bijection16_range t i Ht) in Hi as Hin.
  apply list_elem_of_lookup_1 in Hin as [n Hn].
  assert ((n < 16)%nat).
  { apply lookup_lt_Some in Hn. by rewrite (bijection16_length t Ht) in Hn. }
  assert (Hn' : t' !! Z.to_nat i = Some (Z.of_nat n)).
  { apply Hinv; [lia | by rewrite Nat2Z.id]. }
  assert (v = Z.of_nat n) as -> by congruence.
  by rewrite Nat2Z.id.
Qed.

Lemma substitute_inverse (t t' : list Z) (s : Z) :
  bijection16 t -> bijection16 t' -> inverts t t' ->
  exists s', SPN.substitute t s = Ok s' /\ 0 <= s' < 2 ^ 16 /\
             SPN.substitute t' s' = Ok (s mod 2 ^ 16).
Proof.
  intros Ht Ht' Hinv.
  destruct (substitute_spec t s Ht) as (s' & Hrun & Hrange & Hnib).
  destruct (substitute_spec t' s' Ht') as (s'' & Hrun' & Hsub').
  exists s'. split; [done|]. split; [done|]. rewrite Hrun'. f_equal.
  apply (substituted_unique t' s'); [done|].
  split; [apply Z.mod_pos_bound; lia|]. intros j Hj. rewrite nibble_mod by done.
  apply (Hinv (nibble s j) (nibble s' j)); [apply nibble_range | by apply Hnib].
Qed.

Lemma permute_inverse (t t' : list Z) (s : Z) :
  bijection16 t -> bijection16 t' -> inverts t t' ->
  exists s', SPN.permute t s = Ok s' /\ 0 <= s' < 2 ^ 16 /\
             SPN.permute t' s' = Ok (s mod 2 ^ 16).
Proof.
  intros Ht Ht' Hinv.
  destruct (permute_spec t s Ht) as (s' & Hrun & Hrange & Hbits).
  destruct (permute_spec t' s' Ht') as (s'' & Hrun' & Hrange' & Hbits').
  exists s'. split; [done|]. split; [done|]. rewrite Hrun'. f_equal.
  apply (bits_eq_below s'' (s mod 2 ^ 16) 16); [lia | done | apply Z.mod_pos_bound; lia |].
  intros i Hi. rewrite Z.mod_pow2_bits_low by lia.
  destruct (bijection16_lookup t i Ht Hi) as (q & Hq & Hq16).
  rewrite <- (Hbits i q Hi Hq).
  apply (Hbits' q i Hq16). by apply Hinv.
Qed.

Lemma mod_16bit (s : Z) : 0 <= s < 2 ^ 16 -> s mod 2 ^ 16 = s.
Proof. intros H. apply Z.mod_small. lia. Qed.

Lemma lxor_cancel_r (a k : Z) : Z.lxor (Z.lxor a k) k = a.
Proof. by rewrite Z.lxor_assoc, Z.lxor_nilpotent, Z.lxor_0_r. Qed.

(** X1. For a cipher that [__init__] built from a bijective S-box,
    [_substitution] and [_inv_substitution] undo each other on every integer
    state, in both orders: the first one returns a 16-bit value, and the
    other one applied to that value returns the state reduced to its low 16
    bits, which is the state itself when it is a 16-bit value. *)
Theorem substitution_round_trip sbox pbox round_keys rounds self (s : Z) :
  bijection16 sbox ->
  SPN.__init__ sbox pbox round_keys rounds = Ok self ->
  (exists s', SPN._substitution self s = Ok s' /\ 0 <= s' < 2 ^ 16 /\
              SPN._inv_substitution self s' = Ok (s mod 2 ^ 16)) /\
  (exists s', SPN._inv_substitution self s = Ok s' /\ 0 <= s' < 2 ^ 16 /\
              SPN._substitution self s' = Ok (s mod 2 ^ 16)).
Proof.
  intros Hs Hinit.
  destruct (init_fields _ _ _ _ _ Hinit) as (Hsbox & _ & _ & _ & Hinv_s & _).
  destruct (invert_table_inverts sbox Hs) as (inv & Hrun & Hinv & Hbinv).
  assert (SPN.inv_sbox self = inv) as Heq by congruence.
  unfold SPN._substitution, SPN._inv_substitution. rewrite Hsbox, Heq.
  split.
  - by apply substitute_inverse.
  - apply substitute_inverse; [done | done | by apply inverts_sym].
Qed.

Lemma substitution_round_trip_witness :
  (exists s', SPN._substitution test_spn 0x1234 = Ok s' /\ 0 <= s' < 2 ^ 16 /\
              SPN._inv_substitution test_spn s' = Ok (0x1234 mod 2 ^ 16)) /\
  (exists s', SPN._inv_substitution test_spn 0x1234 = Ok s' /\ 0 <= s' < 2 ^ 16 /\
              SPN._substitution test_spn s' = Ok (0x1234 mod 2 ^ 16)).
Proof.
  apply (substitution_round_trip test_sbox test_pbox test_round_keys 4 test_spn 0x1234).
  - unfold bijection16. compute_done.
  - reflexivity.
Defined.

(** X2. For a cipher that [__init__] built from a bijective P-box,
    [_permutation] and [_inv_permutation] undo each other on every integer
    state, in both orders: the first one returns a 16-bit value, and the
    other one applied to that value returns the state reduced to its low 16
    bits. *)
Theorem permutation_round_trip sbox pbox round_keys rounds self (s : Z) :
  bijection16 pbox ->
  SPN.__init__ sbox pbox round_keys rounds = Ok self ->
  (exists s', SPN._permutation self s = Ok s' /\ 0 <= s' < 2 ^ 16 /\
              SPN._inv_permutation self s' = Ok (s mod 2 ^ 16)) /\
  (exists s', SPN._inv_permutation self s = Ok s' /\ 0 <= s' < 2 ^ 16 /\
              SPN._permutation self s' = Ok (s mod 2 ^ 16)).
Proof.
  intros Hp Hinit.
  destruct (init_fields _ _ _ _ _ Hinit) as (_ & Hpbox & _ & _ & _ & Hinv_p).
  destruct (invert_table_inverts pbox Hp) as (inv & Hrun & Hinv & Hbinv).
  assert (SPN.inv_pbox self = inv) as Heq by congruence.
  unfold SPN._permutation, SPN._inv_permutation. rewrite Hpbox, Heq.
  split.
  - by apply permute_inverse.
  - apply permute_inverse; [done | done | by apply inverts_sym].
Qed.

Lemma permutation_round_trip_witness :
  (exists s', SPN._permutation test_spn 0x1234 = Ok s' /\ 0 <= s' < 2 ^ 16 /\
              SPN._inv_permutation test_spn s' = Ok (0x1234 mod 2 ^ 16)) /\
  (exists s', SPN._inv_permutation test_spn 0x1234 = Ok s' /\ 0 <= s' < 2 ^ 16 /\
              SPN._permutation test_spn s' = Ok (0x1234 mod 2 ^ 16)).
Proof.
  apply (permutation_round_trip test_sbox test_pbox test_round_keys 4 test_spn 0x1234).
  - unfold bijection16. compute_done.
  - reflexivity.
Defined.

Lemma getitem_inv_nonneg {A} (l : list A) (i : Z) (x : A) :
  0 <= i -> getitem l i = Ok x -> l !! Z.to_nat i = Some x.
Proof.
  intros Hi. unfold getitem, norm_index.
  destruct (decide (0 <= i < Z.of_nat (length l))) as [Hin|Hout].
  - rewrite bind_Ok. destruct (l !! Z.to_nat i); [congruence | discriminate].
  - rewrite decide_False by lia. discriminate.
Qed.

(** X3. When the S-box and the P-box are bijections on [0..15], the
    inverse tables that [__init__] stores are bijections on [0..15] too, and
    for all [i] and [v] in [0..15], [sbox[i] == v] exactly when
    [inv_sbox[v] == i], and [pbox[i] == v] exactly when [inv_pbox[v] == i]. *)
Theorem inverse_tables_invert sbox pbox round_keys rounds self :
  bijection16 sbox -> bijection16 pbox ->
  SPN.__init__ sbox pbox round_keys rounds = Ok self ->
  bijection16 (SPN.inv_sbox self) /\ bijection16 (SPN.inv_pbox self) /\
  forall i v, 0 <= i < 16 -> 0 <= v < 16 ->
    (getitem (SPN.sbox self) i = Ok v <-> getitem (SPN.inv_sbox self) v = Ok i) /\
    (getitem (SPN.pbox self) i = Ok v <-> getitem (SPN.inv_pbox self) v = Ok i).
Proof.
  intros Hs Hp Hinit.
  destruct (init_inverse_tables _ _ _ _ _ Hs Hp Hinit)
    as (Hsbox & Hpbox & His & Hbs & Hip & Hbp).
  split; [done|]. split; [done|]. intros i v Hi Hv. rewrite Hsbox, Hpbox.
  split; split; intros H.
  - apply getitem_nonneg; [lia|]. apply His; [done|]. apply getitem_inv_nonneg; [lia|done].
  - apply getitem_nonneg; [lia|].
    apply (inverts_sym sbox (SPN.inv_sbox self) Hs His); [done|].
    apply getitem_inv_nonneg; [lia|done].
  - apply getitem_nonneg; [lia|]. apply Hip; [done|]. apply getitem_inv_nonneg; [lia|done].
  - apply getitem_nonneg; [lia|].
    apply (inverts_sym pbox (SPN.inv_pbox self) Hp Hip); [done|].
    apply getitem_inv_nonneg; [lia|done].
Qed.

Lemma inverse_tables_invert_witness :
  bijection16 (SPN.inv_sbox test_spn) /\ bijection16 (SPN.inv_pbox test_spn) /\
  forall i v, 0 <= i < 16 -> 0 <= v < 16 ->
    (getitem (SPN.sbox test_spn) i = Ok v <-> getitem (SPN.inv_sbox test_spn) v = Ok i) /\
    (getitem (SPN.pbox test_spn) i = Ok v <-> getitem (SPN.inv_pbox test_spn) v = Ok i).
Proof.
  apply (inverse_tables_invert test_sbox test_pbox test_round_keys 4 test_spn).
  - unfold bijection16. compute_done.
  - unfold bijection16. compute_done.
  - reflexivity.
Defined.

(** ** Inverse tables of arbitrary tables, and the round keys [encrypt] reads *)

Lemma setitem_slot (inv : list Z) (val i : Z) (inv' : list Z) :
  length inv = 16%nat ->
  setitem inv val i = Ok inv' ->
  inv' = <[Z.to_nat (val mod 16) := i]> inv.
Proof.
  intros Hlen. unfold setitem, norm_index. rewrite Hlen.
  destruct (decide (0 <= val < Z.of_nat 16)) as [Hin|Hout].
  - rewrite bind_Ok. intros [= <-]. by rewrite Z.mod_small by lia.
  - destruct (decide (- Z.of_nat 16 <= val < 0)) as [Hneg|Hno]; [|discriminate].
    rewrite bind_Ok. intros [= <-]. f_equal. f_equal.
    apply (Z.mod_unique val 16 (-1)); lia.
Qed.

Lemma invert_loop_last (table : list Z) (inv : list Z) :
  SPN.invert_table table = Ok inv -> last_positions table inv.
Proof.
  unfold SPN.invert_table. revert inv.
  induction table as [|v table IH] using rev_ind; intros inv.
  - cbn. intros [= <-]. split; [done|]. intros q Hq. right. split.
    + intros i v Hv. by rewrite lookup_nil in Hv.
    + apply (lookup_replicate_2 16 0 (Z.to_nat q)). lia.
  - rewrite length_app. cbn [length].
    replace (Z.of_nat (length table + 1)) with (Z.of_nat (length table) + 1) by lia.
    rewrite seqZ_app by lia. cbn [seqZ]. rewrite Z.add_0_l.
    change (seqZ (Z.of_nat (length table)) 1) with [Z.of_nat (length table)].
    rewrite zip_with_app by (rewrite length_seqZ; lia).
    rewrite for_each_app. intros H.
    apply bind_Ok_inv in H as (inv0 & Hrun & Hset).
    destruct (IH inv0 Hrun) as [Hlen0 Hlast].
    cbn [zip_with for_each] in Hset.
    apply bind_Ok_inv in Hset as (inv1 & Hset & [= <-]).
    apply (setitem_slot _ _ _ _ Hlen0) in Hset. subst inv1.
    split; [by rewrite length_insert|].
    assert (Hslot : 0 <= v mod 16 < 16) by (apply Z.mod_pos_bound; lia).
    intros q Hq. destruct (decide (v mod 16 = q)) as [Heq|Hne].
    + left. exists (length table), v. split; [by apply list_lookup_middle|].
      split; [done|]. split.
      * rewrite Heq. apply list_lookup_insert_eq. lia.
      * intros j w Hj Hw. apply lookup_lt_Some in Hw.
        rewrite length_app in Hw. cbn in Hw. lia.
    + rewrite list_lookup_insert_ne by lia.
      destruct (Hlast q Hq) as [(i & w & Hi & Hw & Hinv & Hlater) | [Hnone Hinv]].
      * left. exists i, w. split; [by apply lookup_app_l_Some|].
        split; [done|]. split; [done|].
        intros j u Hj Hu. apply lookup_app_Some in Hu as [Hu | [Hge Hu]].
        -- by eapply Hlater.
        -- apply list_lookup_singleton_Some in Hu as [_ <-]. done.
      * right. split; [|done]. intros i u Hu.
        apply lookup_app_Some in Hu as [Hu | [Hge Hu]].
        -- by eapply Hnone.
        -- apply list_lookup_singleton_Some in Hu as [_ <-]. done.
Qed.

(** X4. Whenever [__init__] returns, for any tables at all, each
    inverse table has 16 slots, and slot [q] holds the last position of the
    table whose value addresses it, or [0] when no value does. A value [v]
    addresses the slot [v mod 16], since Python counts a negative index from
    the end; so a repeated value keeps its later position only, and a table
    that is not a bijection is accepted without an error. *)
Theorem inverse_tables_last_position sbox pbox round_keys rounds self :
  SPN.__init__ sbox pbox round_keys rounds = Ok self ->
  last_positions sbox (SPN.inv_sbox self) /\ last_positions pbox (SPN.inv_pbox self).
Proof.
  intros Hinit.
  destruct (init_fields _ _ _ _ _ Hinit) as (_ & _ & _ & _ & Hs & Hp).
  split; by apply invert_loop_last.
Qed.

Lemma inverse_tables_last_position_witness :
  last_positions [3; 3; -1; 3] [0; 0; 0; 3; 0; 0; 0; 0; 0; 0; 0; 0; 0; 0; 0; 2] /\
  last_positions [] (replicate 16 0).
Proof.
  apply (inverse_tables_last_position [3; 3; -1; 3] [] [] 4
           (SPN.Build [3; 3; -1; 3] [0; 0; 0; 3; 0; 0; 0; 0; 0; 0; 0; 0; 0; 0; 0; 2]
                      [] (replicate 16 0) 4 [])).
  reflexivity.
Defined.

Lemma getitem_out_of_range {A} (l : list A) (i : Z) :
  ~ (- Z.of_nat (length l) <= i < Z.of_nat (length l)) ->
  getitem l i = Raise IndexError.
Proof.
  intros H. unfold getitem, norm_index.
  rewrite decide_False by lia. rewrite decide_False by lia. done.
Qed.

Lemma getitem_in_range {A} (l : list A) (i : Z) :
  - Z.of_nat (length l) <= i < Z.of_nat (length l) ->
  exists x, getitem l i = Ok x.
Proof.
  intros H. unfold getitem, norm_index.
  destruct (decide (0 <= i < Z.of_nat (length l))) as [Hin|Hout].
  - rewrite bind_Ok. destruct (lookup_lt_is_Some_2 l (Z.to_nat i)) as [x Hx]; [lia|].
    rewrite Hx. eauto.
  - rewrite decide_True by lia. rewrite bind_Ok.
    destruct (lookup_lt_is_Some_2 l (Z.to_nat (Z.of_nat (length l) + i))) as [x Hx]; [lia|].
    rewrite Hx. eauto.
Qed.

Lemma encrypt_round_total (self : SPN.t) (N s i : Z) :
  bijection16 (SPN.sbox self) -> bijection16 (SPN.pbox self) ->
  1 <= i <= Z.of_nat (length (SPN.round_keys self)) ->
  exists s', SPN.encrypt_round self N s i = Ok s' /\ 0 <= s' < 2 ^ 16.
Proof.
  intros Hs Hp Hi. unfold SPN.encrypt_round.
  destruct (getitem_in_range (SPN.round_keys self) (i - 1)) as [k Hk]; [lia|].
  rewrite Hk, bind_Ok.
  destruct (substitute_spec (SPN.sbox self) (Z.lxor s k) Hs) as (s2 & Hs2 & Hr2 & _).
  unfold SPN._substitution. rewrite Hs2, bind_Ok.
  destruct (decide (i ≠ N)); [|eauto].
  destruct (permute_spec (SPN.pbox self) s2 Hp) as (s3 & Hs3 & Hr3 & _).
  unfold SPN._permutation. rewrite Hs3. eauto.
Qed.

Lemma encrypt_rounds_total (self : SPN.t) (N : Z) (l : list Z) (s : Z) :
  bijection16 (SPN.sbox self) -> bijection16 (SPN.pbox self) ->
  (forall i, i ∈ l -> 1 <= i <= Z.of_nat (length (SPN.round_keys self))) ->
  exists s', for_each l (SPN.encrypt_round self N) s = Ok s' /\
             (l = [] /\ s' = s \/ 0 <= s' < 2 ^ 16).
Proof.
  intros Hs Hp. revert s. induction l as [|i l IH]; intros s Hl.
  - exists s. split; [done|]. by left.
  - destruct (encrypt_round_total self N s i Hs Hp) as (s1 & Hs1 & Hr1).
    { apply Hl. left. }
    destruct (IH s1) as (s' & Hs' & Hr').
    { intros j Hj. apply Hl. by right. }
    exists s'. cbn [for_each]. rewrite Hs1, bind_Ok. split; [done|]. right.
    destruct Hr' as [[_ ->]|]; done.
Qed.

Lemma encrypt_round_key_bounds (self : SPN.t) (P N : Z) :
  bijection16 (SPN.sbox self) -> bijection16 (SPN.pbox self) ->
  let n := Z.of_nat (length (SPN.round_keys self)) in
  (- n <= N < n -> succeeds (SPN.encrypt self P N)) /\
  (~ (- n <= N < n) -> SPN.encrypt self P N = Raise IndexError).
Proof.
  intros Hs Hp n. unfold SPN.encrypt, range2. replace (N + 1 - 1) with N by lia.
  split.
  - intros HN.
    destruct (encrypt_rounds_total self N (seqZ 1 N) P Hs Hp) as (s & Hrun & _).
    { intros i Hi. apply elem_of_seqZ in Hi. lia. }
    rewrite Hrun, bind_Ok.
    destruct (getitem_in_range (SPN.round_keys self) N) as [k Hk]; [done|].
    rewrite Hk, bind_Ok. by eexists.
  - intros HN. destruct (decide (N < 0)) as [Hneg|Hpos].
    + rewrite seqZ_nil by lia. cbn [for_each]. rewrite bind_Ok.
      by rewrite getitem_out_of_range.
    + assert (Hn : n <= N) by lia.
      replace N with (n + (N - n)) at 1 by lia.
      rewrite seqZ_app by lia. rewrite for_each_app.
      destruct (encrypt_rounds_total self N (seqZ 1 n) P Hs Hp) as (s & Hrun & _).
      { intros i Hi. apply elem_of_seqZ in Hi. lia. }
      rewrite Hrun, bind_Ok.
      destruct (decide (N = n)) as [->|Hne].
      * rewrite Z.sub_diag, seqZ_nil by lia. cbn [for_each]. rewrite bind_Ok.
        by rewrite getitem_out_of_range.
      * rewrite seqZ_cons by lia. cbn [for_each].
        unfold SPN.encrypt_round at 2.
        rewrite (getitem_out_of_range (SPN.round_keys self) (1 + n - 1)) by lia.
        reflexivity.
Qed.

(** ** Range and injectivity of [encrypt] *)

(** X6. For bijective tables and at least one round, whatever integer
    the plaintext is, the ciphertext that [encrypt] returns is a 16-bit value
    whenever the last round key it xors in, [round_keys[N]], is one. *)
Theorem encrypt_range (self : SPN.t) (P N c k : Z) :
  bijection16 (SPN.sbox self) -> bijection16 (SPN.pbox self) ->
  1 <= N ->
  getitem (SPN.round_keys self) N = Ok k -> 0 <= k < 2 ^ 16 ->
  SPN.encrypt self P N = Ok c ->
  0 <= c < 2 ^ 16.
Proof.
  intros Hs Hp HN Hk Hk16. unfold SPN.encrypt, range2.
  replace (N + 1 - 1) with N by lia. intros H.
  apply bind_Ok_inv in H as (s & Hrun & H). rewrite Hk, bind_Ok in H.
  injection H as <-.
  assert (Hlen : N < Z.of_nat (length (SPN.round_keys self))).
  { destruct (decide (N < Z.of_nat (length (SPN.round_keys self)))); [done|].
    rewrite getitem_out_of_range in Hk by lia. discriminate. }
  destruct (encrypt_rounds_total self N (seqZ 1 N) P Hs Hp) as (s' & Hrun' & Hr).
  { intros i Hi. apply elem_of_seqZ in Hi. lia. }
  assert (s' = s) as -> by congruence.
  destruct Hr as [[Hnil _]|Hr].
  - rewrite seqZ_cons in Hnil by lia. discriminate.
  - apply lxor_below; [lia | done | done].
Qed.

Lemma encrypt_range_witness : 0 <= 0x37A1 < 2 ^ 16.
Proof.
  apply (encrypt_range test_spn 0 4 0x37A1 0xCAFE).
  - unfold bijection16. compute_done.
  - unfold bijection16. compute_done.
  - lia.
  - reflexivity.
  - lia.
  - reflexivity.
Defined.

Lemma lxor_low_inj (a b k : Z) :
  0 <= a < 2 ^ 16 -> 0 <= b < 2 ^ 16 ->
  Z.lxor a k mod 2 ^ 16 = Z.lxor b k mod 2 ^ 16 -> a = b.
Proof.
  intros Ha Hb H. apply (bits_eq_below a b 16); [lia|done|done|].
  intros m Hm. apply (f_equal (fun x => Z.testbit x m)) in H.
  rewrite !Z.mod_pow2_bits_low, !Z.lxor_spec in H by lia.
  destruct (Z.testbit a m), (Z.testbit b m), (Z.testbit k m); done.
Qed.

Lemma substitute_inj (sbox : list Z) (x y a : Z) :
  bijection16 sbox ->
  SPN.substitute sbox x = Ok a -> SPN.substitute sbox y = Ok a ->
  x mod 2 ^ 16 = y mod 2 ^ 16.
Proof.
  intros Hs Hx Hy.
  destruct (invert_table_inverts sbox Hs) as (inv & _ & Hinv & Hbinv).
  destruct (substitute_inverse sbox inv x Hs Hbinv Hinv) as (a1 & Ha1 & _ & Hback1).
  destruct (substitute_inverse sbox inv y Hs Hbinv Hinv) as (a2 & Ha2 & _ & Hback2).
  assert (a1 = a) as -> by congruence. assert (a2 = a) as -> by congruence.
  congruence.
Qed.

Lemma permute_inj (pbox : list Z) (x y a : Z) :
  bijection16 pbox ->
  SPN.permute pbox x = Ok a -> SPN.permute pbox y = Ok a ->
  x mod 2 ^ 16 = y mod 2 ^ 16.
Proof.
  intros Hp Hx Hy.
  destruct (invert_table_inverts pbox Hp) as (inv & _ & Hinv & Hbinv).
  destruct (permute_inverse pbox inv x Hp Hbinv Hinv) as (a1 & Ha1 & _ & Hback1).
  destruct (permute_inverse pbox inv y Hp Hbinv Hinv) as (a2 & Ha2 & _ & Hback2).
  assert (a1 = a) as -> by congruence. assert (a2 = a) as -> by congruence.
  congruence.
Qed.

Lemma substitute_range (sbox : list Z) (x a : Z) :
  bijection16 sbox -> SPN.substitute sbox x = Ok a -> 0 <= a < 2 ^ 16.
Proof.
  intros Hs Hx. destruct (substitute_spec sbox x Hs) as (a' & Ha' & Hr & _). congruence.
Qed.

Lemma permute_range (pbox : list Z) (x a : Z) :
  bijection16 pbox -> SPN.permute pbox x = Ok a -> 0 <= a < 2 ^ 16.
Proof.
  intros Hp Hx. destruct (permute_spec pbox x Hp) as (a' & Ha' & Hr & _). congruence.
Qed.

Lemma encrypt_round_range (self : SPN.t) (N i s c : Z) :
  bijection16 (SPN.sbox self) -> bijection16 (SPN.pbox self) ->
  SPN.encrypt_round self N s i = Ok c -> 0 <= c < 2 ^ 16.
Proof.
  intros Hs Hp. unfold SPN.encrypt_round, SPN._substitution, SPN._permutation.
  intros H. apply bind_Ok_inv in H as (k & _ & H).
  apply bind_Ok_inv in H as (a & Ha & H).
  destruct (decide (i ≠ N)).
  - exact (permute_range _ _ _ Hp H).
  - injection H as <-. exact (substitute_range _ _ _ Hs Ha).
Qed.

Lemma encrypt_round_inj (self : SPN.t) (N i s t c : Z) :
  bijection16 (SPN.sbox self) -> bijection16 (SPN.pbox self) ->
  0 <= s < 2 ^ 16 -> 0 <= t < 2 ^ 16 ->
  SPN.encrypt_round self N s i = Ok c -> SPN.encrypt_round self N t i = Ok c ->
  s = t.
Proof.
  intros Hs Hp Hs16 Ht16. unfold SPN.encrypt_round, SPN._substitution, SPN._permutation.
  intros H1 H2.
  apply bind_Ok_inv in H1 as (k & Hk & H1). rewrite Hk, bind_Ok in H2.
  apply bind_Ok_inv in H1 as (a & Ha & H1).
  apply bind_Ok_inv in H2 as (b & Hb & H2).
  pose proof (substitute_range _ _ _ Hs Ha) as Ha16.
  pose proof (substitute_range _ _ _ Hs Hb) as Hb16.
  assert (a = b) as <-.
  { destruct (decide (i ≠ N)).
    - pose proof (permute_inj _ _ _ _ Hp H1 H2) as Heq.
      by rewrite !mod_16bit in Heq by done.
    - congruence. }
  apply (lxor_low_inj s t k Hs16 Ht16).
  exact (substitute_inj _ _ _ _ Hs Ha Hb).
Qed.

Lemma encrypt_rounds_inj (self : SPN.t) (N : Z) (l : list Z) (s t c : Z) :
  bijection16 (SPN.sbox self) -> bijection16 (SPN.pbox self) ->
  0 <= s < 2 ^ 16 -> 0 <= t < 2 ^ 16 ->
  for_each l (SPN.encrypt_round self N) s = Ok c ->
  for_each l (SPN.encrypt_round self N) t = Ok c ->
  s = t.
Proof.
  intros Hs Hp. revert s t. induction l as [|i l IH]; intros s t Hs16 Ht16.
  - cbn. congruence.
  - cbn [for_each]. intros H1 H2.
    apply bind_Ok_inv in H1 as (s1 & Hs1 & H1).
    apply bind_Ok_inv in H2 as (t1 & Ht1 & H2).
    assert (s1 = t1) as <-.
    { apply IH; [|  | done | done].
      - exact (encrypt_round_range _ _ _ _ _ Hs Hp Hs1).
      - exact (encrypt_round_range _ _ _ _ _ Hs Hp Ht1). }
    exact (encrypt_round_inj _ _ _ _ _ _ Hs Hp Hs16 Ht16 Hs1 Ht1).
Qed.

(** X7. For bijective tables and any round keys and round count,
    [encrypt] maps two 16-bit plaintexts to the same ciphertext only when
    they are the same plaintext. *)
Theorem encrypt_injective (self : SPN.t) (P P' N c : Z) :
  bijection16 (SPN.sbox self) -> bijection16 (SPN.pbox self) ->
  0 <= P < 2 ^ 16 -> 0 <= P' < 2 ^ 16 ->
  SPN.encrypt self P N = Ok c -> SPN.encrypt self P' N = Ok c ->
  P = P'.
Proof.
  intros Hs Hp HP HP'. unfold SPN.encrypt. intros H1 H2.
  apply bind_Ok_inv in H1 as (s & Hs1 & H1).
  apply bind_Ok_inv in H2 as (t & Ht1 & H2).
  apply bind_Ok_inv in H1 as (k & Hk & [= <-]). rewrite Hk, bind_Ok in H2.
  injection H2 as H2.
  assert (s = t) as <-.
  { rewrite <- (lxor_cancel_r s k), <- (lxor_cancel_r t k). by rewrite H2. }
  by eapply encrypt_rounds_inj.
Qed.

Lemma encrypt_injective_witness : 0 = 0.
Proof.
  apply (encrypt_injective test_spn 0 0 4 0x37A1).
  - unfold bijection16. compute_done.
  - unfold bijection16. compute_done.
  - lia.
  - lia.
  - reflexivity.
  - reflexivity.
Defined.

(** ** Decryption with an involutive P-box, and round counts *)

Lemma getitem_Forall {A} (P : A -> Prop) (l : list A) (i : Z) (x : A) :
  Forall P l -> getitem l i = Ok x -> P x.
Proof.
  intros HP. unfold getitem. intros H.
  apply bind_Ok_inv in H as (k & _ & H).
  destruct (l !! k) as [y|] eqn:Hy; [|discriminate].
  injection H as <-. by eapply Forall_lookup_1.
Qed.

(** One round of [decrypt] undoes the same round of [encrypt] when the
    round applies no permutation or the P-box is its own inverse. *)
Lemma decrypt_round_encrypt_round sbox pbox round_keys rounds self (N s i : Z) :
  bijection16 sbox -> bijection16 pbox ->
  SPN.__init__ sbox pbox round_keys rounds = Ok self ->
  Forall (fun k => 0 <= k < 2 ^ 16) round_keys ->
  0 <= s < 2 ^ 16 ->
  1 <= i <= Z.of_nat (length round_keys) ->
  (i = N \/ inverts pbox pbox) ->
  exists s1, SPN.encrypt_round self N s i = Ok s1 /\ 0 <= s1 < 2 ^ 16 /\
             SPN.decrypt_round self N s1 i = Ok s.
Proof.
  intros Hs Hp Hinit Hkeys Hs16 Hi Hcase.
  destruct (init_inverse_tables _ _ _ _ _ Hs Hp Hinit)
    as (Hsbox & Hpbox & His & Hbs & _ & _).
  destruct (init_fields _ _ _ _ _ Hinit) as (_ & _ & Hrk & _).
  unfold SPN.encrypt_round, SPN.decrypt_round,
    SPN._substitution, SPN._inv_substitution, SPN._permutation.
  rewrite Hsbox, Hpbox, Hrk.
  destruct (getitem_in_range round_keys (i - 1)) as [k Hk]; [lia|].
  pose proof (getitem_Forall _ _ _ _ Hkeys Hk) as Hk16. cbn beta in Hk16.
  rewrite Hk, bind_Ok.
  assert (Hx : 0 <= Z.lxor s k < 2 ^ 16) by (apply lxor_below; [lia|done|done]).
  destruct (substitute_inverse sbox (SPN.inv_sbox self) (Z.lxor s k) Hs Hbs His)
    as (a & Ha & Ha16 & Hback).
  rewrite (mod_16bit _ Hx) in Hback.
  rewrite Ha, bind_Ok.
  destruct (decide (i ≠ N)) as [Hne|Heq].
  - destruct Hcase as [?|Hinvol]; [done|].
    destruct (permute_inverse pbox pbox a Hp Hp Hinvol) as (b & Hb & Hb16 & Hpb).
    rewrite (mod_16bit _ Ha16) in Hpb.
    exists b. split; [done|]. split; [done|].
    rewrite Hpb, bind_Ok, Hback, bind_Ok, bind_Ok. by rewrite lxor_cancel_r.
  - exists a. split; [done|]. split; [done|].
    rewrite bind_Ok, Hback, bind_Ok, bind_Ok. by rewrite lxor_cancel_r.
Qed.

Lemma decrypt_rounds_encrypt_rounds sbox pbox round_keys rounds self (N : Z)
    (l : list Z) (s : Z) :
  bijection16 sbox -> bijection16 pbox ->
  SPN.__init__ sbox pbox round_keys rounds = Ok self ->
  Forall (fun k => 0 <= k < 2 ^ 16) round_keys ->
  0 <= s < 2 ^ 16 ->
  (forall i, i ∈ l -> 1 <= i <= Z.of_nat (length round_keys)
                      /\ (i = N \/ inverts pbox pbox)) ->
  exists s', for_each l (SPN.encrypt_round self N) s = Ok s' /\
             for_each (reverse l) (SPN.decrypt_round self N) s' = Ok s.
Proof.
  intros Hs Hp Hinit Hkeys. revert s. induction l as [|i l IH]; intros s Hs16 Hl.
  - exists s. done.
  - destruct (Hl i) as [Hi Hcase]; [left|].
    destruct (decrypt_round_encrypt_round _ _ _ _ _ N s i Hs Hp Hinit Hkeys Hs16 Hi Hcase)
      as (s1 & Henc & Hs1 & Hdec).
    destruct (IH s1 Hs1) as (s' & Hrun & Hback).
    { intros j Hj. apply Hl. by right. }
    exists s'. cbn [for_each]. rewrite Henc, bind_Ok. split; [done|].
    rewrite reverse_cons, for_each_app, Hback, bind_Ok. cbn [for_each].
    by rewrite Hdec.
Qed.

(** X8. For a cipher built from bijective tables with 16-bit round
    keys, a 16-bit plaintext and a round count [N] with [1 <= N < n] for [n]
    round keys: when [N = 1], or when the P-box is its own inverse,
    [encrypt] returns a ciphertext and [decrypt] of that ciphertext returns
    the plaintext. *)
Theorem decrypt_inverts_encrypt_involution sbox pbox round_keys rounds self (P N : Z) :
  bijection16 sbox -> bijection16 pbox ->
  SPN.__init__ sbox pbox round_keys rounds = Ok self ->
  Forall (fun k => 0 <= k < 2 ^ 16) round_keys ->
  0 <= P < 2 ^ 16 ->
  1 <= N < Z.of_nat (length round_keys) ->
  (N = 1 \/ inverts pbox pbox) ->
  exists C, SPN.encrypt self P N = Ok C /\ SPN.decrypt self C N = Ok P.
Proof.
  intros Hs Hp Hinit Hkeys HP HN Hcase.
  destruct (init_fields _ _ _ _ _ Hinit) as (_ & _ & Hrk & _).
  destruct (decrypt_rounds_encrypt_rounds _ _ _ _ _ N (range2 1 (N + 1)) P
              Hs Hp Hinit Hkeys HP) as (s & Hrun & Hback).
  { intros i Hi. apply elem_of_seqZ in Hi. split; [lia|].
    destruct Hcase as [->|?]; [left; lia | by right]. }
  destruct (getitem_in_range round_keys N) as [k Hk]; [lia|].
  exists (Z.lxor s k). unfold SPN.encrypt, SPN.decrypt. rewrite Hrk.
  rewrite Hrun, bind_Ok, Hk, !bind_Ok. split; [done|].
  by rewrite lxor_cancel_r.
Qed.

Lemma decrypt_inverts_encrypt_involution_witness :
  exists C, SPN.encrypt (SPN.Build test_sbox
                           [8; 1; 12; 6; 14; 13; 11; 3; 10; 5; 9; 0; 4; 2; 15; 7]
                           transpose_pbox transpose_pbox 4 test_round_keys)
                        0x1234 4 = Ok C /\
            SPN.decrypt (SPN.Build test_sbox
                           [8; 1; 12; 6; 14; 13; 11; 3; 10; 5; 9; 0; 4; 2; 15; 7]
                           transpose_pbox transpose_pbox 4 test_round_keys)
                        C 4 = Ok 0x1234.
Proof.
  apply (decrypt_inverts_encrypt_involution test_sbox transpose_pbox test_round_keys 4).
  - unfold bijection16. compute_done.
  - unfold bijection16. compute_done.
  - reflexivity.
  - repeat constructor; lia.
  - lia.
  - cbn. lia.
  - right. intros i v Hi.
    assert (i = 0 \/ i = 1 \/ i = 2 \/ i = 3 \/ i = 4 \/ i = 5 \/ i = 6 \/ i = 7 \/
            i = 8 \/ i = 9 \/ i = 10 \/ i = 11 \/ i = 12 \/ i = 13 \/ i = 14 \/ i = 15)
      as Hcases by lia.
    repeat (destruct Hcases as [->|Hcases]; [by intros [= <-]|]).
    subst i. by intros [= <-].
Defined.

Lemma decrypt_rounds_total (self : SPN.t) (N : Z) (l : list Z) (s : Z) :
  length (SPN.inv_sbox self) = 16%nat -> bijection16 (SPN.pbox self) ->
  (forall i, i ∈ l -> 1 <= i <= Z.of_nat (length (SPN.round_keys self))) ->
  exists s', for_each l (SPN.decrypt_round self N) s = Ok s'.
Proof.
  intros Hlen Hp Hl. apply for_each_total. intros acc i Hi.
  unfold SPN.decrypt_round, SPN._permutation, SPN._inv_substitution.
  assert (exists a, (if decide (i ≠ N) then SPN.permute (SPN.pbox self) acc else Ok acc)
                    = Ok a) as [a ->].
  { destruct (decide (i ≠ N)); [|eauto].
    destruct (permute_spec (SPN.pbox self) acc Hp) as (a & Ha & _). eauto. }
  rewrite bind_Ok.
  destruct (substitute_total (SPN.inv_sbox self) a Hlen) as [b ->]. rewrite bind_Ok.
  destruct (getitem_in_range (SPN.round_keys self) (i - 1)) as [k ->].
  { specialize (Hl i Hi). lia. }
  rewrite bind_Ok. eauto.
Qed.

(** X5. For a cipher built from bijective tables and [n] round keys,
    [encrypt] and [decrypt] both return a value for every text when the round
    count [N] satisfies [-n <= N < n], and both raise [IndexError] for every
    other [N]: a round count of [n] or more runs past the round keys, and a
    negative count runs no round and reads the key [round_keys[N]] from the
    end of the list. *)
Theorem round_count_bounds sbox pbox round_keys rounds self (text N : Z) :
  bijection16 sbox -> bijection16 pbox ->
  SPN.__init__ sbox pbox round_keys rounds = Ok self ->
  let n := Z.of_nat (length round_keys) in
  (- n <= N < n ->
   succeeds (SPN.encrypt self text N) /\ succeeds (SPN.decrypt self text N)) /\
  (~ (- n <= N < n) ->
   SPN.encrypt self text N = Raise IndexError /\
   SPN.decrypt self text N = Raise IndexError).
Proof.
  intros Hs Hp Hinit n.
  destruct (init_inverse_tables _ _ _ _ _ Hs Hp Hinit)
    as (Hsbox & Hpbox & _ & Hbs & _ & _).
  destruct (init_fields _ _ _ _ _ Hinit) as (_ & _ & Hrk & _).
  rewrite <- Hsbox in Hs. rewrite <- Hpbox in Hp.
  pose proof (encrypt_round_key_bounds self text N Hs Hp) as Henc.
  cbn zeta in Henc. rewrite Hrk in Henc. fold n in Henc.
  destruct Henc as [Hok Herr].
  split.
  - intros HN. split; [by apply Hok|].
    unfold SPN.decrypt.
    destruct (getitem_in_range (SPN.round_keys self) N) as [k ->]; [by rewrite Hrk|].
    rewrite bind_Ok.
    apply (decrypt_rounds_total self N); [by apply bijection16_length | done |].
    intros i Hi. apply elem_of_reverse, elem_of_seqZ in Hi. rewrite Hrk. lia.
  - intros HN. split; [by apply Herr|].
    unfold SPN.decrypt. rewrite getitem_out_of_range by (by rewrite Hrk). done.
Qed.

Lemma round_count_bounds_witness :
  (succeeds (SPN.encrypt test_spn 0 (-5)) /\ succeeds (SPN.decrypt test_spn 0 (-5))) /\
  SPN.encrypt test_spn 0 5 = Raise IndexError /\
  SPN.decrypt test_spn 0 5 = Raise IndexError.
Proof.
  split.
  - apply (round_count_bounds test_sbox test_pbox test_round_keys 4 test_spn 0 (-5)).
    + unfold bijection16. compute_done.
    + unfold bijection16. compute_done.
    + reflexivity.
    + cbn. lia.
  - apply (round_count_bounds test_sbox test_pbox test_round_keys 4 test_spn 0 5).
    + unfold bijection16. compute_done.
    + unfold bijection16. compute_done.
    + reflexivity.
    + cbn. lia.
Defined.

(** ** Shape of the look-up table *)

Lemma table_lookup_all (variant : string) (sbox : list Z) (cnt : Z -> Z -> Z) :
  variant = "linear"%string \/ variant = "differential"%string ->
  (forall alpha beta, 0 <= alpha < 16 -> 0 <= beta < 16 ->
     CS.count_matches variant sbox alpha beta = Ok (cnt alpha beta)) ->
  exists table, CS.compute_look_up_table variant sbox = Ok table /\
    forall alpha beta,
      table !! (alpha, beta)
      = if decide (0 <= alpha < 16 /\ 0 <= beta < 16)
        then Some (table_entry variant (CS.prob_of (cnt alpha beta)))
        else None.
Proof.
  intros Hv Hcnt. eexists. split.
  - unfold CS.compute_look_up_table.
    apply (outer_loop variant sbox cnt); [done|].
    intros alpha beta Ha Hb. apply elem_of_seqZ in Ha, Hb. apply Hcnt; lia.
  - intros alpha beta.
    rewrite (lookup_outer (fun a b => table_entry variant (CS.prob_of (cnt a b)))).
    unfold range. destruct (decide (0 <= alpha < 16 /\ 0 <= beta < 16)) as [Hin|Hout].
    + rewrite decide_True; [done|]. rewrite !elem_of_seqZ. lia.
    + rewrite decide_False; [done|]. rewrite !elem_of_seqZ. lia.
Qed.

Lemma count_matches_total (variant : string) (sbox : list Z) :
  length sbox = 16%nat ->
  variant = "linear"%string \/ variant = "differential"%string ->
  exists cnt : Z -> Z -> Z,
    (forall alpha beta, 0 <= alpha < 16 -> 0 <= beta < 16 ->
       CS.count_matches variant sbox alpha beta = Ok (cnt alpha beta)) /\
    (forall alpha beta, 0 <= cnt alpha beta <= 16).
Proof.
  intros Hlen [-> | ->].
  - exists (fun a b => Z.of_nat (linear_agreements sbox a b)). split.
    + intros. by apply count_matches_linear.
    + intros a b. unfold linear_agreements.
      pose proof (length_filter
        (fun x => parity (Z.land a x) = parity (Z.land b (sbox_at sbox x))) (range 16)) as H.
      unfold range in H at 2. rewrite length_seqZ in H. lia.
  - exists (fun a b => Z.of_nat (differential_hits sbox a b)). split.
    + intros. by apply count_matches_differential.
    + intros a b. unfold differential_hits.
      pose proof (length_filter
        (fun x => Z.lxor (sbox_at sbox x) (sbox_at sbox (Z.lxor x a)) = b) (range 16)) as H.
      unfold range in H at 2. rewrite length_seqZ in H. lia.
Qed.

Lemma with_sentinel_nonzero (q : Q) : ~ (with_sentinel q == 0)%Q.
Proof.
  unfold with_sentinel. destruct (Qeq_bool q 0) eqn:Hq.
  - discriminate.
  - by apply Qeq_bool_neq.
Qed.

Lemma with_sentinel_cases (q : Q) :
  with_sentinel q = (1 # 1000000)%Q \/ with_sentinel q = q /\ ~ (q == 0)%Q.
Proof.
  unfold with_sentinel. destruct (Qeq_bool q 0) eqn:Hq.
  - by left.
  - right. split; [done|]. by apply Qeq_bool_neq.
Qed.

(** X9. For an S-box with 16 entries (bijective or not) and the
    variant ["linear"] or ["differential"], [_compute_look_up_table] returns a
    table whose keys are exactly the pairs [(alpha, beta)] with both masks in
    [0..15]. No entry of it is zero; a linear entry lies between [-1/2] and
    [1/2], and a differential entry is positive and at most [1]. *)
Theorem look_up_table_shape (self_spn : SPN.t) (variant : string) :
  length (SPN.sbox self_spn) = 16%nat ->
  variant = "linear"%string \/ variant = "differential"%string ->
  exists table, CS._compute_look_up_table self_spn variant = Ok table /\
    (forall alpha beta,
       is_Some (table !! (alpha, beta)) <-> 0 <= alpha < 16 /\ 0 <= beta < 16) /\
    (forall alpha beta q, table !! (alpha, beta) = Some q ->
       ~ (q == 0)%Q /\
       (variant = "linear"%string -> (- (1 # 2) <= q <= 1 # 2)%Q) /\
       (variant = "differential"%string -> (0 < q <= 1)%Q)).
Proof.
  intros Hlen Hv.
  destruct (count_matches_total variant _ Hlen Hv) as (cnt & Hcnt & Hrange).
  destruct (table_lookup_all variant _ cnt Hv Hcnt) as (table & Htab & Hlook).
  exists table. split; [exact Htab|]. split.
  - intros a b. rewrite Hlook.
    destruct (decide (0 <= a < 16 /\ 0 <= b < 16)) as [Hin|Hout].
    + split; [done | eauto].
    + split; [by intros [? ?] | done].
  - intros a b q. rewrite Hlook.
    destruct (decide (0 <= a < 16 /\ 0 <= b < 16)) as [Hin|Hout]; [|done].
    intros [= <-]. specialize (Hrange a b). unfold table_entry.
    split; [destruct (decide (variant = "linear"%string)); apply with_sentinel_nonzero|].
    split.
    + intros ->. rewrite decide_True by done.
      destruct (with_sentinel_cases (CS.prob_of (cnt a b) - (1 # 2))) as [-> | [-> _]].
      * done.
      * unfold CS.prob_of, Qle, Qminus, Qplus, Qopp. cbn. lia.
    + intros ->. rewrite decide_False by done.
      destruct (with_sentinel_cases (CS.prob_of (cnt a b))) as [-> | [-> Hnz]].
      * done.
      * assert (cnt a b ≠ 0).
        { intros H0. apply Hnz. rewrite H0. reflexivity. }
        unfold CS.prob_of, Qle, Qlt. cbn. lia.
Qed.

Lemma look_up_table_shape_witness :
  exists table, CS._compute_look_up_table test_spn "linear" = Ok table /\
    (forall alpha beta,
       is_Some (table !! (alpha, beta)) <-> 0 <= alpha < 16 /\ 0 <= beta < 16) /\
    (forall alpha beta q, table !! (alpha, beta) = Some q ->
       ~ (q == 0)%Q /\
       ("linear"%string = "linear"%string -> (- (1 # 2) <= q <= 1 # 2)%Q) /\
       ("linear"%string = "differential"%string -> (0 < q <= 1)%Q)).
Proof.
  apply (look_up_table_shape test_spn "linear").
  - reflexivity.
  - by left.
Defined.

(** ** Entries of the look-up table with a zero mask *)

Lemma length_filter_all {A} (P : A -> Prop) `{!forall x, Decision (P x)} (l : list A) :
  (forall x, x ∈ l -> P x) -> length (filter P l) = length l.
Proof.
  induction l as [|x l IH]; intros Hall; [done|].
  rewrite filter_cons, decide_True by (apply Hall; left).
  cbn [length]. rewrite IH; [done|]. intros; apply Hall; by right.
Qed.

Lemma length_filter_none {A} (P : A -> Prop) `{!forall x, Decision (P x)} (l : list A) :
  (forall x, x ∈ l -> ~ P x) -> length (filter P l) = 0%nat.
Proof.
  induction l as [|x l IH]; intros Hnone; [done|].
  rewrite filter_cons, decide_False by (apply Hnone; left).
  apply IH. intros; apply Hnone; by right.
Qed.

Lemma sbox_at_inj (sbox : list Z) (x y : Z) :
  bijection16 sbox -> 0 <= x < 16 -> 0 <= y < 16 ->
  sbox_at sbox x = sbox_at sbox y -> x = y.
Proof.
  intros Hb Hx Hy. unfold sbox_at.
  destruct (bijection16_lookup sbox x Hb Hx) as (v & Hv & _).
  destruct (bijection16_lookup sbox y Hb Hy) as (w & Hw & _).
  rewrite Hv, Hw. cbn. intros ->.
  assert (Z.to_nat x = Z.to_nat y)
    by (eapply NoDup_lookup; eauto using bijection16_NoDup).
  lia.
Qed.

Lemma sbox_at_range16 (sbox : list Z) :
  length sbox = 16%nat -> sbox_at sbox <$> range 16 = sbox.
Proof.
  intros Hlen. apply list_eq. intros i. unfold range.
  rewrite list_lookup_fmap.
  destruct (decide (i < 16)%nat) as [Hlt|Hge].
  - rewrite (lookup_seqZ_lt 0 16 i) by lia. cbn. unfold sbox_at.
    replace (Z.to_nat (0 + Z.of_nat i)) with i by lia.
    destruct (lookup_lt_is_Some_2 sbox i) as [v ->]; [lia|done].
  - rewrite (lookup_seqZ_ge 0 16 i) by lia. cbn.
    symmetry. apply lookup_ge_None. lia.
Qed.

Lemma length_filter_fmap {A B} (P : B -> Prop) `{!forall x, Decision (P x)}
    (f : A -> B) (l : list A) :
  length (filter P (f <$> l)) = length (filter (fun x => P (f x)) l).
Proof.
  induction l as [|x l IH]; [done|].
  rewrite fmap_cons, !filter_cons. destruct (decide (P (f x))); cbn [length]; lia.
Qed.

(** The number of positions of a bijective S-box whose value satisfies
    [P] is the number of values in [0..15] that satisfy [P]. *)
Lemma count_over_values (P : Z -> Prop) `{!forall x, Decision (P x)} (sbox : list Z) :
  bijection16 sbox ->
  length (filter (fun x => P (sbox_at sbox x)) (range 16))
  = length (filter P (seqZ 0 16)).
Proof.
  intros Hb.
  rewrite <- (length_filter_fmap P (sbox_at sbox)).
  rewrite sbox_at_range16 by by apply bijection16_length.
  unfold bijection16 in Hb. by rewrite Hb.
Qed.

Lemma balanced_mask (m : Z) :
  1 <= m < 16 ->
  length (filter (fun x => parity 0 = parity (Z.land m x)) (seqZ 0 16)) = 8%nat /\
  length (filter (fun x => parity (Z.land m x) = parity 0) (range 16)) = 8%nat.
Proof.
  intros Hm.
  assert (m = 1 \/ m = 2 \/ m = 3 \/ m = 4 \/ m = 5 \/ m = 6 \/ m = 7 \/ m = 8 \/
          m = 9 \/ m = 10 \/ m = 11 \/ m = 12 \/ m = 13 \/ m = 14 \/ m = 15)
    as Hcases by lia.
  repeat (destruct Hcases as [->|Hcases]; [split; vm_compute; reflexivity|]).
  subst m. split; vm_compute; reflexivity.
Qed.

Lemma linear_agreements_trivial (sbox : list Z) :
  bijection16 sbox ->
  linear_agreements sbox 0 0 = 16%nat /\
  forall m, 1 <= m < 16 ->
    linear_agreements sbox m 0 = 8%nat /\ linear_agreements sbox 0 m = 8%nat.
Proof.
  intros Hb. unfold linear_agreements. split.
  - rewrite length_filter_all; [done|]. intros x _. by rewrite !Z.land_0_l.
  - intros m Hm. destruct (balanced_mask m Hm) as [Hval Hpos]. split.
    + exact Hpos.
    + rewrite <- Hval.
      rewrite <- (count_over_values (fun y => parity 0 = parity (Z.land m y)) sbox Hb).
      reflexivity.
Qed.

Lemma differential_hits_trivial (sbox : list Z) :
  bijection16 sbox ->
  differential_hits sbox 0 0 = 16%nat /\
  forall m, 1 <= m < 16 ->
    differential_hits sbox m 0 = 0%nat /\ differential_hits sbox 0 m = 0%nat.
Proof.
  intros Hb. unfold differential_hits. split.
  - rewrite length_filter_all; [done|]. intros x _.
    by rewrite Z.lxor_0_r, Z.lxor_nilpotent.
  - intros m Hm. split.
    + apply length_filter_none. intros x Hx Heq. apply elem_of_seqZ in Hx.
      apply Z.lxor_eq in Heq.
      apply (sbox_at_inj sbox) in Heq; [|done|lia|apply (lxor_below x m 4); lia].
      assert (Z.lxor (Z.lxor x m) x = Z.lxor x x) by congruence.
      rewrite Z.lxor_nilpotent, (Z.lxor_comm x m), lxor_cancel_r in H. lia.
    + apply length_filter_none. intros x Hx.
      rewrite Z.lxor_0_r, Z.lxor_nilpotent. lia.
Qed.

(** X10. For a bijective S-box, in both tables the entry of the
    masks [(0, 0)] is the largest possible one ([1/2] in the linear table, [1]
    in the differential table), and every entry with exactly one of the two
    masks zero, [(m, 0)] or [(0, m)] with [1 <= m < 16], is the stand-in that
    the code stores for a zero bias or probability. *)
Theorem look_up_table_trivial_masks (self_spn : SPN.t) :
  bijection16 (SPN.sbox self_spn) ->
  (exists table, CS._compute_look_up_table self_spn "linear" = Ok table /\
     (exists q, table !! (0, 0) = Some q /\ (q == 1 # 2)%Q) /\
     (forall m, 1 <= m < 16 ->
        table !! (m, 0) = Some CS.sentinel /\ table !! (0, m) = Some CS.sentinel)) /\
  (exists table, CS._compute_look_up_table self_spn "differential" = Ok table /\
     (exists q, table !! (0, 0) = Some q /\ (q == 1)%Q) /\
     (forall m, 1 <= m < 16 ->
        table !! (m, 0) = Some CS.sentinel /\ table !! (0, m) = Some CS.sentinel)).
Proof.
  intros Hb. pose proof (bijection16_length _ Hb) as Hlen.
  destruct (linear_agreements_trivial _ Hb) as [Hl0 Hlm].
  destruct (differential_hits_trivial _ Hb) as [Hd0 Hdm].
  split.
  - destruct (table_lookup "linear" (SPN.sbox self_spn)
                (fun a b => Z.of_nat (linear_agreements (SPN.sbox self_spn) a b)))
      as (table & Htab & Hlook); [by left | by intros; apply count_matches_linear|].
    exists table. split; [exact Htab|]. split.
    + eexists. split; [apply Hlook; lia|]. rewrite Hl0. reflexivity.
    + intros m Hm. destruct (Hlm m Hm) as [H1 H2].
      rewrite !Hlook by lia. rewrite H1, H2. done.
  - destruct (table_lookup "differential" (SPN.sbox self_spn)
                (fun a b => Z.of_nat (differential_hits (SPN.sbox self_spn) a b)))
      as (table & Htab & Hlook); [by right | by intros; apply count_matches_differential|].
    exists table. split; [exact Htab|]. split.
    + eexists. split; [apply Hlook; lia|]. rewrite Hd0. reflexivity.
    + intros m Hm. destruct (Hdm m Hm) as [H1 H2].
      rewrite !Hlook by lia. rewrite H1, H2. done.
Qed.

Lemma look_up_table_trivial_masks_witness :
  (exists table, CS._compute_look_up_table test_spn "linear" = Ok table /\
     (exists q, table !! (0, 0) = Some q /\ (q == 1 # 2)%Q) /\
     (forall m, 1 <= m < 16 ->
        table !! (m, 0) = Some CS.sentinel /\ table !! (0, m) = Some CS.sentinel)) /\
  (exists table, CS._compute_look_up_table test_spn "differential" = Ok table /\
     (exists q, table !! (0, 0) = Some q /\ (q == 1)%Q) /\
     (forall m, 1 <= m < 16 ->
        table !! (m, 0) = Some CS.sentinel /\ table !! (0, m) = Some CS.sentinel)).
Proof.
  apply (look_up_table_trivial_masks test_spn).
  unfold bijection16. compute_done.
Defined.

(** ** The assertions of the searcher *)

Lemma for_each_prefix_invariant {A B} (P : list A -> B -> Prop)
    (f : B -> A -> result B) (l : list A) (acc r : B) :
  P [] acc ->
  (forall done x acc r,
     x ∈ l -> P done acc -> f acc x = Ok r -> P (done ++ [x]) r) ->
  for_each l f acc = Ok r -> P l r.
Proof.
  intros H0 Hstep.
  assert (Hgen : forall rest done acc,
             (forall x, x ∈ rest -> x ∈ l) ->
             P done acc -> for_each rest f acc = Ok r -> P (done ++ rest) r).
  { induction rest as [|x rest IH]; intros done acc' Hsub HP Hrun.
    - cbn in Hrun. injection Hrun as <-. by rewrite app_nil_r.
    - cbn [for_each] in Hrun. apply bind_Ok_inv in Hrun as (acc1 & Hx & Hrun).
      replace (done ++ x :: rest) with ((done ++ [x]) ++ rest)
        by (by rewrite <- app_assoc).
      apply (IH _ acc1); [intros; apply Hsub; by right | | done].
      apply (Hstep done x acc'); [apply Hsub; left | done | done]. }
  apply (Hgen l [] acc); done.
Qed.

Lemma getitem_fmap_range {A} (f : Z -> A) (n r : Z) (v : A) :
  0 <= r -> getitem (f <$> range n) r = Ok v -> v = f r /\ r < n.
Proof.
  intros Hr H. apply getitem_inv_nonneg in H; [|done].
  unfold range in H. rewrite list_lookup_fmap in H.
  destruct (seqZ 0 n !! Z.to_nat r) as [x|] eqn:Hx; [|discriminate].
  apply lookup_seqZ in Hx as [-> Hlt]. cbn in H. injection H as <-.
  split; [f_equal; lia | lia].
Qed.

Lemma getitem_fmap_range_last {A} (f : Z -> A) (n : Z) (v : A) :
  getitem (f <$> range (n + 1)) (-1) = Ok v -> 0 <= n /\ v = f n.
Proof.
  unfold getitem, norm_index, range. rewrite length_fmap, length_seqZ.
  rewrite decide_False by lia.
  destruct (decide _) as [Hin|]; [|discriminate]. rewrite bind_Ok.
  rewrite list_lookup_fmap.
  destruct (seqZ 0 (n + 1) !! _) as [x|] eqn:Hx; [|discriminate].
  apply lookup_seqZ in Hx as [-> Hlt]. cbn. intros [= <-].
  split; [lia|]. f_equal. lia.
Qed.

Lemma mk_extract_Ok (hi lo : Z) (v : CS.bvar) (e : CS.bvexpr) :
  CS.mk_extract hi lo v = Ok e -> e = CS.Extract hi lo v /\ 0 <= lo <= hi /\ hi < 16.
Proof.
  unfold CS.mk_extract. destruct (decide _) as [H|]; [|discriminate].
  intros [= <-]. done.
Qed.

Section Constraints.

Variable self : CS.t.
Variable R : Z.
Hypothesis self_in : CS.in_masks self = CS.In_ <$> range (R + 1).
Hypothesis self_out : CS.out_masks self = CS.Out_ <$> range (R + 1).
Hypothesis self_rounds : CS.num_rounds self = R.

Lemma nibble_constraints_step (r j : Z) slv pt cs act slv' pt' cs' act' :
  0 <= r ->
  CS.nibble_constraints self r (slv, pt, cs, act) j = Ok (slv', pt', cs', act') ->
  0 <= j < 4 /\
  pt' = pt ++ [CS.RVar (CS.Prob r j)] /\
  cs' = cs ++ [inactive_stays r j] /\
  (forall f, f ∈ CS.assertions slv' <->
             f ∈ CS.assertions slv \/ f = entry_choice (CS.look_up_table self) r j
             \/ f = CS.BoolEq (CS.Active r j) (CS.BvNeC (in_nibble r j) 0)).
Proof.
  intros Hr. unfold CS.nibble_constraints. rewrite self_in, self_out. intros H.
  apply bind_Ok_inv in H as (in_r & Hin & H).
  apply getitem_fmap_range in Hin as [-> _]; [|done].
  apply bind_Ok_inv in H as (in_nib & Hnib & H).
  apply mk_extract_Ok in Hnib as [-> Hj].
  apply bind_Ok_inv in H as (out_r & Hout & H).
  apply getitem_fmap_range in Hout as [-> _]; [|done].
  apply bind_Ok_inv in H as (out_nib & Hnib' & H).
  apply mk_extract_Ok in Hnib' as [-> _].
  injection H as <- <- <- _.
  split; [lia|]. split; [done|]. split; [done|].
  intros f. rewrite !elem_of_solver_add. unfold entry_choice, in_nibble, out_nibble.
  tauto.
Qed.

Lemma nibble_loop (r : Z) slv pt slv' pt' cs' act' :
  0 <= r ->
  for_each (range 4) (CS.nibble_constraints self r) (slv, pt, [], [])
  = Ok (slv', pt', cs', act') ->
  pt' = pt ++ ((fun j => CS.RVar (CS.Prob r j)) <$> range 4) /\
  (forall f, f ∈ CS.assertions slv -> f ∈ CS.assertions slv') /\
  (forall j, 0 <= j < 4 -> entry_choice (CS.look_up_table self) r j ∈ CS.assertions slv') /\
  (forall j, 0 <= j < 4 -> inactive_stays r j ∈ cs').
Proof.
  intros Hr Hrun.
  apply (for_each_prefix_invariant
           (fun done '(slv1, pt1, cs1, act1) =>
              pt1 = pt ++ ((fun j => CS.RVar (CS.Prob r j)) <$> done) /\
              (forall f, f ∈ CS.assertions slv -> f ∈ CS.assertions slv1) /\
              (forall j, j ∈ done -> entry_choice (CS.look_up_table self) r j ∈ CS.assertions slv1) /\
              (forall j, j ∈ done -> inactive_stays r j ∈ cs1))) in Hrun.
  - destruct Hrun as (Hpt & Hmono & Hentry & Hstay).
    split; [done|]. split; [done|].
    split; intros j Hj; [apply Hentry | apply Hstay]; apply elem_of_seqZ; lia.
  - split; [by rewrite app_nil_r|]. split; [done|].
    split; intros j Hj; by apply elem_of_nil in Hj.
  - intros done j [[[slv1 pt1] cs1] act1] [[[slv2 pt2] cs2] act2] _
      (Hpt & Hmono & Hentry & Hstay) Hstep.
    apply nibble_constraints_step in Hstep as (_ & -> & -> & Hslv); [|done].
    split; [by rewrite Hpt, fmap_app, app_assoc|].
    split; [intros f Hf; apply Hslv; left; by apply Hmono|].
    split; intros k Hk; apply elem_of_app in Hk as [Hk|Hk].
    + apply Hslv. left. by apply Hentry.
    + apply list_elem_of_singleton in Hk as ->. apply Hslv. right. by left.
    + apply elem_of_app. left. by apply Hstay.
    + apply list_elem_of_singleton in Hk as ->. apply elem_of_app. right.
      by apply list_elem_of_singleton.
Qed.

Lemma permutation_loop (r : Z) slv slv' :
  0 <= r ->
  for_each (range 16) (CS.permutation_constraint self r) slv = Ok slv' ->
  (forall f, f ∈ CS.assertions slv -> f ∈ CS.assertions slv') /\
  (forall i, 0 <= i < 16 ->
     exists p, getitem (SPN.pbox (CS.spn self)) i = Ok p /\ 0 <= p < 16 /\
               bit_moves r i p ∈ CS.assertions slv').
Proof.
  intros Hr Hrun.
  apply (for_each_prefix_invariant
           (fun done slv1 =>
              (forall f, f ∈ CS.assertions slv -> f ∈ CS.assertions slv1) /\
              (forall i, i ∈ done ->
                 exists p, getitem (SPN.pbox (CS.spn self)) i = Ok p /\ 0 <= p < 16 /\
                           bit_moves r i p ∈ CS.assertions slv1))) in Hrun.
  - destruct Hrun as [Hmono Hbits]. split; [done|].
    intros i Hi. apply Hbits. apply elem_of_seqZ. lia.
  - split; [done|]. intros i Hi. by apply elem_of_nil in Hi.
  - intros done i slv1 slv2 Hi [Hmono Hbits] Hstep.
    unfold CS.permutation_constraint in Hstep. rewrite self_in, self_out in Hstep.
    apply bind_Ok_inv in Hstep as (out_r & Hout & Hstep).
    apply getitem_fmap_range in Hout as [-> _]; [|done].
    apply bind_Ok_inv in Hstep as (bit & Hbit & Hstep).
    apply mk_extract_Ok in Hbit as [-> _].
    apply bind_Ok_inv in Hstep as (p & Hp & Hstep).
    apply bind_Ok_inv in Hstep as (in_next & Hnext & Hstep).
    apply getitem_fmap_range in Hnext as [-> _]; [|lia].
    apply bind_Ok_inv in Hstep as (moved & Hmoved & Hstep).
    apply mk_extract_Ok in Hmoved as [-> Hp16].
    injection Hstep as <-.
    split.
    + intros f Hf. apply elem_of_solver_add. left. by apply Hmono.
    + intros k Hk. apply elem_of_app in Hk as [Hk|Hk].
      * destruct (Hbits k Hk) as (q & Hq & Hq16 & Hin).
        exists q. split; [done|]. split; [done|].
        apply elem_of_solver_add. by left.
      * apply list_elem_of_singleton in Hk as ->.
        exists p. split; [done|]. split; [lia|].
        apply elem_of_solver_add. by right.
Qed.

Lemma round_asserted_mono (A A' : list CS.formula) (r : Z) :
  (forall f, f ∈ A -> f ∈ A') ->
  round_asserted (SPN.pbox (CS.spn self)) (CS.look_up_table self) A r -> round_asserted (SPN.pbox (CS.spn self)) (CS.look_up_table self) A' r.
Proof.
  intros Hsub (Hentry & (cs & Hcs & Hstay) & Hbits).
  split; [intros; apply Hsub; by apply Hentry|].
  split; [exists cs; split; [by apply Hsub | done]|].
  intros i Hi. destruct (Hbits i Hi) as (p & Hp & Hp16 & Hin).
  exists p. split; [done|]. split; [done|]. by apply Hsub.
Qed.

Lemma round_constraints_step (r : Z) slv pt per slv' pt' per' :
  0 <= r ->
  CS.round_constraints self (slv, pt, per) r = Ok (slv', pt', per') ->
  pt' = pt ++ ((fun j => CS.RVar (CS.Prob r j)) <$> range 4) /\
  (forall f, f ∈ CS.assertions slv -> f ∈ CS.assertions slv') /\
  round_asserted (SPN.pbox (CS.spn self)) (CS.look_up_table self) (CS.assertions slv') r.
Proof.
  intros Hr. unfold CS.round_constraints. intros H.
  apply bind_Ok_inv in H as ([[[slv1 pt1] cs1] act1] & Hnib & H).
  apply bind_Ok_inv in H as (slv2 & Hperm & H). injection H as <- <- _.
  apply nibble_loop in Hnib as (Hpt & Hmono1 & Hentry & Hstay); [|done].
  apply permutation_loop in Hperm as [Hmono2 Hbits]; [|done].
  split; [done|]. split.
  - intros f Hf. apply Hmono2, elem_of_solver_add. left. by apply Hmono1.
  - split; [|split].
    + intros j Hj. apply Hmono2, elem_of_solver_add. left. by apply Hentry.
    + exists cs1. split; [|done]. apply Hmono2, elem_of_solver_add. by right.
    + done.
Qed.

Lemma rounds_loop slv pt per slv' pt' per' :
  for_each (range R) (CS.round_constraints self) (slv, pt, per) = Ok (slv', pt', per') ->
  pt' = pt ++ ((fun '(r, j) => CS.RVar (CS.Prob r j)) <$> positions (range R)) /\
  (forall f, f ∈ CS.assertions slv -> f ∈ CS.assertions slv') /\
  (forall r, 0 <= r < R -> round_asserted (SPN.pbox (CS.spn self)) (CS.look_up_table self) (CS.assertions slv') r).
Proof.
  intros Hrun.
  apply (for_each_prefix_invariant
           (fun done '(slv1, pt1, per1) =>
              pt1 = pt ++ ((fun '(r, j) => CS.RVar (CS.Prob r j)) <$> positions done) /\
              (forall f, f ∈ CS.assertions slv -> f ∈ CS.assertions slv1) /\
              (forall r, r ∈ done ->
                 round_asserted (SPN.pbox (CS.spn self)) (CS.look_up_table self) (CS.assertions slv1) r))) in Hrun.
  - destruct Hrun as (Hpt & Hmono & Hrounds). split; [done|]. split; [done|].
    intros r Hr. apply Hrounds. apply elem_of_seqZ. lia.
  - split; [by rewrite app_nil_r|]. split; [done|].
    intros r Hr. by apply elem_of_nil in Hr.
  - intros done r [[slv1 pt1] per1] [[slv2 pt2] per2] Hr (Hpt & Hmono & Hrounds) Hstep.
    apply elem_of_seqZ in Hr.
    apply round_constraints_step in Hstep as (-> & Hmono' & Hround); [|lia].
    split.
    + rewrite Hpt. unfold positions. rewrite fmap_app, concat_app, fmap_app.
      cbn [fmap list_fmap concat]. rewrite app_nil_r, <- list_fmap_compose.
      by rewrite app_assoc.
    + split; [intros f Hf; by apply Hmono', Hmono|].
      intros k Hk. apply elem_of_app in Hk as [Hk|Hk].
      * eapply round_asserted_mono; [exact Hmono' | by apply Hrounds].
      * by apply list_elem_of_singleton in Hk as ->.
Qed.

Lemma add_constraints_asserted (self' : CS.t) :
  CS._add_constraints self = Ok self' ->
  1 <= R /\
  CS.in_masks self' = CS.in_masks self /\
  CS.look_up_table self' = CS.look_up_table self /\
  CS.prob_terms self'
  = ((fun '(r, j) => CS.RVar (CS.Prob r j)) <$> positions (range R)) /\
  (forall f, f ∈ CS.assertions (CS.solver self) ->
             f ∈ CS.assertions (CS.solver self')) /\
  (forall r, 0 <= r < R ->
     round_asserted (SPN.pbox (CS.spn self)) (CS.look_up_table self) (CS.assertions (CS.solver self')) r) /\
  (exists product_expr,
     CS.reduce_mul (CS.prob_terms self') = Ok product_expr /\
     CS.RealEq (CS.RVar CS.TotalBias) product_expr
       ∈ CS.assertions (CS.solver self')).
Proof.
  unfold CS._add_constraints. rewrite self_rounds. intros H.
  apply bind_Ok_inv in H as ([[slv pt] per] & Hloop & H).
  apply bind_Ok_inv in H as (product_expr & Hprod & H).
  apply bind_Ok_inv in H as (in_first & _ & H).
  apply bind_Ok_inv in H as (in_last & _ & H).
  injection H as <-. cbn [CS.solver CS.in_masks CS.look_up_table CS.prob_terms].
  apply rounds_loop in Hloop as (Hpt & Hmono & Hrounds). cbn [app] in Hpt.
  assert (Hkeep : forall f,
            f ∈ CS.assertions slv
            \/ f = CS.RealEq (CS.RVar CS.TotalBias) product_expr ->
            f ∈ CS.assertions
                  (CS.solver_add
                     (CS.solver_add
                        match CS.max_active_sboxes self with
                        | Some cap =>
                            CS.solver_add
                              (CS.solver_maximize
                                 (CS.solver_add slv
                                    (CS.RealEq (CS.RVar CS.TotalBias) product_expr))
                                 (CS.RVar CS.TotalBias))
                              (CS.AtMost (concat per) cap)
                        | None =>
                            CS.solver_maximize
                              (CS.solver_add slv
                                 (CS.RealEq (CS.RVar CS.TotalBias) product_expr))
                              (CS.RVar CS.TotalBias)
                        end
                        (CS.BvNeC (CS.BV in_first) 0))
                     (CS.BvNeC (CS.BV in_last) 0))).
  { intros f Hf. rewrite !elem_of_solver_add. left. left.
    destruct (CS.max_active_sboxes self) as [cap|].
    - rewrite elem_of_solver_add. left. cbn [CS.solver_maximize CS.assertions].
      by rewrite elem_of_solver_add.
    - cbn [CS.solver_maximize CS.assertions]. by rewrite elem_of_solver_add. }
  split.
  { destruct (decide (1 <= R)) as [|Hle]; [done|].
    unfold range in Hpt. rewrite seqZ_nil in Hpt by lia. cbn in Hpt.
    rewrite Hpt in Hprod. discriminate. }
  split; [done|]. split; [done|]. split; [done|]. split.
  { intros f Hf. apply Hkeep. left. by apply Hmono. }
  split.
  { intros r Hr. eapply round_asserted_mono; [|by apply Hrounds].
    intros f Hf. apply Hkeep. by left. }
  exists product_expr. split; [done|]. apply Hkeep. by right.
Qed.

End Constraints.

Lemma store_entry_keys (variant : string) (alpha beta : Z) (prob : Q)
    (t : gmap (Z * Z) Q) (a b : Z) :
  is_Some (CS.store_entry variant alpha beta prob t !! (a, b)) ->
  (a, b) = (alpha, beta) \/ is_Some (t !! (a, b)).
Proof.
  unfold CS.store_entry.
  destruct (decide (variant = "linear"%string)), (decide (variant = "differential"%string));
    rewrite ?lookup_insert_is_Some; intuition auto.
Qed.

Lemma table_keys_range (variant : string) (sbox : list Z) (t : gmap (Z * Z) Q) :
  CS.compute_look_up_table variant sbox = Ok t -> keys_in_range t.
Proof.
  unfold CS.compute_look_up_table. intros H.
  refine (for_each_prefix_invariant (fun _ t => keys_in_range t) _ _ _ _ _ _ H).
  - intros a b Hab. rewrite lookup_empty in Hab. by destruct Hab.
  - intros _ alpha t1 t2 Halpha Ht1 Hinner. apply elem_of_seqZ in Halpha.
    refine (for_each_prefix_invariant (fun _ t => keys_in_range t) _ _ _ _ _ _ Hinner).
    + done.
    + intros _ beta t3 t4 Hbeta Ht3 Hstep. apply elem_of_seqZ in Hbeta.
      apply bind_Ok_inv in Hstep as (count & _ & Hstep). injection Hstep as <-.
      intros a b Hab. apply store_entry_keys in Hab as [[= -> ->]|Hab]; [lia|].
      by apply Ht3.
Qed.

Lemma init_asserted (spn : SPN.t) (R : Z) (variant : string) (cap : option Z)
    (s0 : CS.t) :
  CS.__init__ spn R variant cap = Ok s0 ->
  1 <= R /\
  CS.in_masks s0 = CS.In_ <$> range (R + 1) /\
  CS._compute_look_up_table spn variant = Ok (CS.look_up_table s0) /\
  CS.prob_terms s0
  = ((fun '(r, j) => CS.RVar (CS.Prob r j)) <$> positions (range R)) /\
  (forall r, 0 <= r < R ->
     round_asserted (SPN.pbox spn) (CS.look_up_table s0)
                    (CS.assertions (CS.solver s0)) r) /\
  (exists product_expr,
     CS.reduce_mul (CS.prob_terms s0) = Ok product_expr /\
     CS.RealEq (CS.RVar CS.TotalBias) product_expr
       ∈ CS.assertions (CS.solver s0)).
Proof.
  unfold CS.__init__. intros H.
  destruct (decide _) in H; [|discriminate].
  apply bind_Ok_inv in H as (t & Htable & H).
  apply (add_constraints_asserted _ R) in H
    as (HR & Hmasks & Htab & Hpt & _ & Hrounds & Hprod); [|done|done|done].
  cbn in Hmasks, Htab, Hrounds. rewrite Htab.
  split; [done|]. split; [done|]. split; [done|]. split; [done|].
  split; [|done]. intros r Hr. by apply Hrounds.
Qed.

(** ** Returned characteristics are trails *)

Lemma eval_nibble (m : CS.model) (v : CS.bvar) (j : Z) :
  CS.eval_bv m (CS.Extract ((j + 1) * 4 - 1) (j * 4) v) = nibble (CS.as_long m v) j.
Proof.
  cbn. replace ((j + 1) * 4 - 1 - j * 4 + 1) with 4 by lia. reflexivity.
Qed.

Lemma eval_BvEqC_nibble (m : CS.model) (v : CS.bvar) (j c : Z) :
  CS.eval m (CS.BvEqC (CS.Extract ((j + 1) * 4 - 1) (j * 4) v) c) = true ->
  nibble (CS.as_long m v) j = c mod 16.
Proof.
  cbn [CS.eval]. intros H. apply bool_decide_eq_true_1 in H.
  rewrite eval_nibble in H. cbn [CS.width] in H.
  by replace ((j + 1) * 4 - 1 - j * 4 + 1) with 4 in H by lia.
Qed.

Lemma eval_entry_choice (m : CS.model) (table : gmap (Z * Z) Q) (r j : Z) :
  keys_in_range table ->
  CS.eval m (entry_choice table r j) = true ->
  exists v,
    table !! (nibble (CS.as_long m (CS.In_ r)) j, nibble (CS.as_long m (CS.Out_ r)) j)
    = Some v /\
    (CS.real_val m (CS.Prob r j) == v)%Q.
Proof.
  intros Hkeys. unfold entry_choice. cbn [CS.eval]. intros H.
  apply existsb_exists in H as (f & Hf & Heval).
  apply list_elem_of_In, list_elem_of_fmap in Hf as ([[a b] v] & -> & Hin).
  apply elem_of_map_to_list in Hin.
  cbn [CS.eval forallb] in Heval.
  apply andb_prop in Heval as [Ha Heval]. apply andb_prop in Heval as [Hb Heval].
  apply andb_prop in Heval as [Hv _].
  apply eval_BvEqC_nibble in Ha, Hb.
  destruct (Hkeys a b) as [Ha16 Hb16]; [eauto|].
  rewrite Z.mod_small in Ha, Hb by lia.
  exists v. rewrite Ha, Hb. split; [done|].
  cbn [CS.eval_real] in Hv. by apply Qeq_bool_iff.
Qed.

Lemma eval_inactive_stays (m : CS.model) (r j : Z) :
  CS.eval m (inactive_stays r j) = true ->
  nibble (CS.as_long m (CS.In_ r)) j = 0 -> nibble (CS.as_long m (CS.Out_ r)) j = 0.
Proof.
  unfold inactive_stays, in_nibble, out_nibble. cbn [CS.eval]. intros H Hin.
  rewrite (bool_decide_eq_true_2 (CS.eval_bv m _ = _)) in H.
  - cbn [implb] in H. apply bool_decide_eq_true_1 in H.
    rewrite eval_nibble in H. by rewrite H.
  - rewrite eval_nibble. by rewrite Hin.
Qed.

Lemma eval_bit_moves (m : CS.model) (r i p : Z) :
  0 <= i -> 0 <= p ->
  CS.eval m (bit_moves r i p) = true ->
  Z.testbit (CS.as_long m (CS.In_ (r + 1))) p = Z.testbit (CS.as_long m (CS.Out_ r)) i.
Proof.
  intros Hi Hp. unfold bit_moves. cbn [CS.eval CS.eval_bv]. intros H.
  apply bool_decide_eq_true_1 in H.
  replace (p - p + 1) with 1 in H by lia. replace (i - i + 1) with 1 in H by lia.
  apply (f_equal (fun x => Z.testbit x 0)) in H.
  rewrite !Z.land_spec, !Z.shiftr_spec in H by lia.
  change (Z.testbit (Z.ones 1) 0) with true in H. rewrite !andb_true_r in H.
  by rewrite !Z.add_0_l in H.
Qed.

Lemma qprod_cons (x : Q) (l : list Q) : qprod (x :: l) = (x * qprod l)%Q.
Proof. reflexivity. Qed.

Lemma qprod_app (l1 l2 : list Q) : (qprod (l1 ++ l2) == qprod l1 * qprod l2)%Q.
Proof.
  induction l1 as [|x l1 IH].
  - change (qprod l2 == 1 * qprod l2)%Q. ring.
  - rewrite <- app_comm_cons, !qprod_cons, IH. ring.
Qed.

Lemma qprod_fmap_eq {A} (f g : A -> Q) (l : list A) :
  (forall x, x ∈ l -> (f x == g x)%Q) -> (qprod (f <$> l) == qprod (g <$> l))%Q.
Proof.
  induction l as [|x l IH]; intros H; [reflexivity|].
  rewrite !fmap_cons, !qprod_cons.
  rewrite IH by (intros; apply H; by right). rewrite (H x) by left. reflexivity.
Qed.

Lemma eval_foldl_RMul (m : CS.model) (x : CS.rexpr) (rest : list CS.rexpr) :
  (CS.eval_real m (foldl CS.RMul x rest)
   == CS.eval_real m x * qprod (CS.eval_real m <$> rest))%Q.
Proof.
  revert x. induction rest as [|y rest IH]; intros x.
  - change (CS.eval_real m x == CS.eval_real m x * 1)%Q. ring.
  - cbn [foldl]. rewrite IH, fmap_cons, qprod_cons. cbn [CS.eval_real]. ring.
Qed.

Lemma eval_product (m : CS.model) (terms : list CS.rexpr) (e : CS.rexpr) :
  CS.reduce_mul terms = Ok e ->
  (CS.eval_real m e == qprod (CS.eval_real m <$> terms))%Q.
Proof.
  destruct terms as [|x rest]; [discriminate|]. cbn [CS.reduce_mul]. intros [= <-].
  rewrite fmap_cons, qprod_cons. apply eval_foldl_RMul.
Qed.

Lemma elem_of_positions (rounds : list Z) (r j : Z) :
  (r, j) ∈ positions rounds <-> r ∈ rounds /\ 0 <= j < 4.
Proof.
  unfold positions. induction rounds as [|r' rounds IH].
  - cbn. rewrite !elem_of_nil. tauto.
  - cbn [fmap list_fmap concat]. rewrite elem_of_app, IH, elem_of_cons.
    rewrite list_elem_of_fmap. split.
    + intros [(j' & [= -> ->] & Hj') | [Hr Hj]]; [|tauto].
      apply elem_of_seqZ in Hj'. split; [by left | lia].
    + intros [[->|Hr] Hj]; [|tauto].
      left. exists j. split; [done|]. apply elem_of_seqZ. lia.
Qed.

Lemma as_long_range (m : CS.model) (v : CS.bvar) : 0 <= CS.as_long m v < 2 ^ 16.
Proof. unfold CS.as_long. apply Z.mod_pos_bound. lia. Qed.

(** A model of the constraints that [__init__] asserts is a trail. *)
Lemma model_is_trail (spn : SPN.t) (R : Z) (variant : string) (cap : option Z)
    (s0 : CS.t) (m : CS.model) :
  CS.__init__ spn R variant cap = Ok s0 ->
  Forall (fun f => CS.eval m f = true) (CS.assertions (CS.solver s0)) ->
  trail (SPN.pbox spn) (CS.look_up_table s0) R
        (CS.as_long m (CS.In_ 0), CS.as_long m (CS.In_ R), CS.real_val m CS.TotalBias).
Proof.
  intros Hinit Hm. rewrite Forall_forall in Hm.
  destruct (init_asserted _ _ _ _ _ Hinit)
    as (HR & Hmasks & Htable & Hpt & Hrounds & (e & He & Hprod)).
  pose proof (table_keys_range _ _ _ Htable) as Hkeys.
  exists (fun r => CS.as_long m (CS.In_ r)), (fun r => CS.as_long m (CS.Out_ r)).
  cbn [fst snd]. split; [done|]. split; [done|].
  split; [intros r; split; apply as_long_range|].
  assert (Hentry : forall r j, 0 <= r < R -> 0 <= j < 4 ->
            exists v,
              CS.look_up_table s0
                !! (nibble (CS.as_long m (CS.In_ r)) j, nibble (CS.as_long m (CS.Out_ r)) j)
              = Some v /\ (CS.real_val m (CS.Prob r j) == v)%Q).
  { intros r j Hr Hj. destruct (Hrounds r Hr) as (Hchoice & _ & _).
    apply eval_entry_choice; [done|]. apply Hm. by apply Hchoice. }
  split; [|split].
  - intros r j Hr Hj. split.
    + destruct (Hentry r j Hr Hj) as (v & Hv & _). eauto.
    + destruct (Hrounds r Hr) as (_ & (cs & Hcs & Hstay) & _).
      apply eval_inactive_stays.
      apply Hm in Hcs. cbn [CS.eval] in Hcs. rewrite forallb_forall in Hcs.
      apply Hcs. apply list_elem_of_In. by apply Hstay.
  - intros r i p Hr Hi Hp. destruct (Hrounds r Hr) as (_ & _ & Hbits).
    destruct (Hbits i Hi) as (p' & Hp' & Hp16 & Hin).
    assert (p' = p) as -> by congruence.
    apply eval_bit_moves; [lia | lia |]. by apply Hm.
  - apply Hm in Hprod. cbn [CS.eval CS.eval_real] in Hprod.
    apply Qeq_bool_iff in Hprod. rewrite Hprod, (eval_product m _ _ He), Hpt.
    unfold trail_entries. rewrite <- list_fmap_compose.
    apply qprod_fmap_eq. intros [r j] Hrj.
    apply elem_of_positions in Hrj as [Hr Hj]. apply elem_of_seqZ in Hr.
    destruct (Hentry r j) as (v & Hv & Hq); [lia | done |].
    cbn. rewrite Hv. exact Hq.
Qed.

(** X13. With a solver whose models satisfy the assertions, every
    characteristic [(alpha, beta, score)] that [search_best_characteristic]
    returns, on a searcher that the constructor built and
    [add_mandatory_nibble] extended, is a trail through the cipher: there are
    16-bit input and output masks for every round, starting at [alpha] and
    ending at [beta], such that every S-box position has an entry in the
    look-up table, an S-box with a zero input mask has a zero output mask,
    the P-box carries each bit of a round's output mask to the next input
    mask, and [score] is the product of the table entries over all S-box
    positions. *)
Theorem returned_characteristics_are_trails
    (check : CS.checker) (spn : SPN.t) (R : Z) (variant : string) (cap : option Z)
    (required : list Z) (num_solutions : Z)
    (s0 s1 s2 : CS.t) (results : list CS.characteristic) :
  sound check ->
  CS.__init__ spn R variant cap = Ok s0 ->
  CS.add_mandatory_nibble s0 required = Ok s1 ->
  CS.search_best_characteristic check s1 num_solutions = Ok (results, s2) ->
  CS._compute_look_up_table spn variant = Ok (CS.look_up_table s0) /\
  forall c, c ∈ results -> trail (SPN.pbox spn) (CS.look_up_table s0) R c.
Proof.
  intros Hsound Hinit Hmand Hsearch.
  destruct (init_asserted _ _ _ _ _ Hinit) as (HR & Hmasks & Htable & _).
  split; [done|]. intros c Hc.
  destruct (add_mandatory_nibble_spec _ _ _ Hmand) as (Hmasks1 & Hmono & _).
  unfold CS.search_best_characteristic in Hsearch.
  apply bind_Ok_inv in Hsearch as (st & Hloop & Hsearch). injection Hsearch as <- _.
  apply (search_loop_reads check Hsound (CS.assertions (CS.solver s0))) in Hloop;
    [|done|constructor].
  rewrite Forall_forall in Hloop.
  destruct (Hloop _ Hc) as (m & v0 & vl & Hm & Hv0 & Hvl & ->).
  rewrite Hmasks1, Hmasks in Hv0, Hvl.
  apply getitem_fmap_range in Hv0 as [-> _]; [|done].
  apply getitem_fmap_range_last in Hvl as [_ ->].
  by eapply model_is_trail.
Qed.

Lemma returned_characteristics_are_trails_witness :
  exists s0 s1 results s2,
    CS.__init__ test_spn 3 "linear" (Some 3) = Ok s0 /\
    CS.add_mandatory_nibble s0 [2] = Ok s1 /\
    CS.search_best_characteristic test_solver s1 2 = Ok (results, s2) /\
    endpoints (Ok (results, s2)) = [(4096, 256)] /\
    CS._compute_look_up_table test_spn "linear" = Ok (CS.look_up_table s0) /\
    forall c, c ∈ results -> trail test_pbox (CS.look_up_table s0) 3 c.
Proof.
  assert (Hres : endpoints (s0 ← CS.__init__ test_spn 3 "linear" (Some 3);
                            s1 ← CS.add_mandatory_nibble s0 [2];
                            CS.search_best_characteristic test_solver s1 2)
                 = [(4096, 256)]) by (vm_compute; reflexivity).
  assert (H : is_ok (s0 ← CS.__init__ test_spn 3 "linear" (Some 3);
                     s1 ← CS.add_mandatory_nibble s0 [2];
                     CS.search_best_characteristic test_solver s1 2) = true)
    by (vm_compute; reflexivity).
  apply bind_is_ok in H as (s0 & H0 & H).
  apply bind_is_ok in H as (s1 & H1 & H).
  apply is_ok_true in H as [[results s2] H2].
  rewrite H0, bind_Ok, H1, bind_Ok, H2 in Hres.
  exists s0, s1, results, s2.
  split; [exact H0|]. split; [exact H1|]. split; [exact H2|]. split; [exact Hres|].
  exact (returned_characteristics_are_trails test_solver test_spn 3 "linear" (Some 3)
           [2] 2 s0 s1 s2 results (candidate_solver_sound _) H0 H1 H2).
Defined.

(** ** Construction of the searcher *)

Lemma compute_table_total (spn : SPN.t) (variant : string) :
  length (SPN.sbox spn) = 16%nat ->
  variant = "linear"%string \/ variant = "differential"%string ->
  exists table, CS._compute_look_up_table spn variant = Ok table.
Proof.
  intros Hlen Hv.
  destruct (count_matches_total variant _ Hlen Hv) as (cnt & Hcnt & _).
  destruct (table_lookup variant _ cnt Hv Hcnt) as (table & Htab & _).
  by exists table.
Qed.

(** X11. With a 16-entry S-box and a valid variant, a number of
    rounds of the characteristic that is zero or negative makes the
    constructor of the searcher raise [TypeError] (the product of an empty
    list of terms has no start value), and so does
    [generate_characteristics] of a framework with that number of rounds. *)
Theorem searcher_without_rounds (fw : FP.t) (check : CS.checker) :
  length (SPN.sbox (FP.spn fw)) = 16%nat ->
  FP.variant fw = "linear"%string \/ FP.variant fw = "differential"%string ->
  FP.num_rounds_char fw <= 0 ->
  CS.__init__ (FP.spn fw) (FP.num_rounds_char fw) (FP.variant fw)
              (FP.max_active_sboxes fw) = Raise TypeError /\
  FP.generate_characteristics check fw = Raise TypeError.
Proof.
  intros Hlen Hv HR.
  assert (Hinit : CS.__init__ (FP.spn fw) (FP.num_rounds_char fw) (FP.variant fw)
                              (FP.max_active_sboxes fw) = Raise TypeError).
  { unfold CS.__init__. rewrite decide_True by done.
    destruct (compute_table_total _ _ Hlen Hv) as [table ->]. rewrite bind_Ok.
    unfold CS._add_constraints, CS._define_variables. cbn [CS.num_rounds].
    unfold range. rewrite (seqZ_nil 0 (FP.num_rounds_char fw)) by lia. reflexivity. }
  split; [done|].
  unfold FP.generate_characteristics. change (range 4) with [0; 1; 2; 3].
  cbn [for_each]. by rewrite Hinit.
Qed.

Lemma searcher_without_rounds_witness :
  CS.__init__ test_spn 0 "linear" (Some 3) = Raise TypeError /\
  FP.generate_characteristics test_solver (FP.Build test_spn 0 "linear" (Some 3))
  = Raise TypeError.
Proof.
  apply (searcher_without_rounds (FP.Build test_spn 0 "linear" (Some 3)) test_solver).
  - reflexivity.
  - by left.
  - cbn. lia.
Defined.

Lemma getitem_fmap_range_Ok {A} (f : Z -> A) (n r : Z) :
  0 <= r < n -> getitem (f <$> range n) r = Ok (f r).
Proof.
  intros Hr. apply getitem_nonneg; [lia|]. unfold range.
  rewrite list_lookup_fmap, (lookup_seqZ_lt 0 n (Z.to_nat r)) by lia.
  cbn. f_equal. f_equal. lia.
Qed.

Lemma getitem_fmap_range_last_Ok {A} (f : Z -> A) (n : Z) :
  0 <= n -> getitem (f <$> range (n + 1)) (-1) = Ok (f n).
Proof.
  intros Hn. unfold getitem, norm_index, range. rewrite length_fmap, length_seqZ.
  rewrite decide_False by lia. rewrite decide_True by lia. rewrite bind_Ok.
  rewrite list_lookup_fmap.
  rewrite (lookup_seqZ_lt 0 (n + 1) (Z.to_nat (Z.of_nat (Z.to_nat (n + 1)) + -1))) by lia.
  cbn. f_equal. f_equal. lia.
Qed.

Lemma mk_extract_nibble (j : Z) (v : CS.bvar) :
  0 <= j < 4 ->
  CS.mk_extract ((j + 1) * 4 - 1) (j * 4) v = Ok (CS.Extract ((j + 1) * 4 - 1) (j * 4) v).
Proof. intros Hj. unfold CS.mk_extract. by rewrite decide_True by lia. Qed.

Lemma mk_extract_bit (i : Z) (v : CS.bvar) :
  0 <= i < 16 -> CS.mk_extract i i v = Ok (CS.Extract i i v).
Proof. intros Hi. unfold CS.mk_extract. by rewrite decide_True by lia. Qed.

Lemma round_constraints_total (self : CS.t) (R : Z) st (r : Z) :
  CS.in_masks self = CS.In_ <$> range (R + 1) ->
  CS.out_masks self = CS.Out_ <$> range (R + 1) ->
  bijection16 (SPN.pbox (CS.spn self)) ->
  0 <= r < R ->
  exists st', CS.round_constraints self st r = Ok st'.
Proof.
  intros Hin Hout Hp Hr. destruct st as [[slv pt] per]. unfold CS.round_constraints.
  destruct (for_each_total (CS.nibble_constraints self r) (range 4) (slv, pt, [], []))
    as [[[[slv1 pt1] cs1] act1] ->].
  { intros [[[s p] c] a] j Hj. apply elem_of_seqZ in Hj.
    unfold CS.nibble_constraints. rewrite Hin, Hout.
    repeat first [rewrite bind_Ok | rewrite getitem_fmap_range_Ok by lia
                  | rewrite mk_extract_nibble by lia].
    by eexists. }
  rewrite bind_Ok.
  destruct (for_each_total (CS.permutation_constraint self r) (range 16)
              (CS.solver_add slv1 (CS.And cs1))) as [slv2 ->].
  { intros s i Hi. apply elem_of_seqZ in Hi.
    unfold CS.permutation_constraint. rewrite Hin, Hout.
    destruct (bijection16_lookup _ i Hp) as (p & Hpi & Hp16); [lia|].
    rewrite (getitem_nonneg (SPN.pbox (CS.spn self)) i p) by (lia || done).
    repeat first [rewrite bind_Ok | rewrite getitem_fmap_range_Ok by lia
                  | rewrite mk_extract_bit by lia].
    by eexists. }
  rewrite bind_Ok. by eexists.
Qed.

Lemma positions_range_cons (R : Z) :
  1 <= R -> exists rest, positions (range R) = (0, 0) :: rest.
Proof.
  intros HR. unfold positions, range. rewrite (seqZ_cons 0 R) by lia.
  cbn [fmap list_fmap concat]. rewrite (seqZ_cons 0 4) by lia.
  cbn [fmap list_fmap app]. eauto.
Qed.

Lemma searcher_init_total (spn : SPN.t) (R : Z) (variant : string) (cap : option Z) :
  length (SPN.sbox spn) = 16%nat -> bijection16 (SPN.pbox spn) ->
  variant = "linear"%string \/ variant = "differential"%string ->
  1 <= R ->
  exists s0, CS.__init__ spn R variant cap = Ok s0.
Proof.
  intros Hlen Hp Hv HR. unfold CS.__init__. rewrite decide_True by done.
  destruct (compute_table_total _ _ Hlen Hv) as [table ->]. rewrite bind_Ok.
  set (self := CS._define_variables _).
  assert (Hin : CS.in_masks self = CS.In_ <$> range (R + 1)) by reflexivity.
  assert (Hout : CS.out_masks self = CS.Out_ <$> range (R + 1)) by reflexivity.
  assert (Hrounds : CS.num_rounds self = R) by reflexivity.
  unfold CS._add_constraints. rewrite Hrounds.
  destruct (for_each_total (CS.round_constraints self) (range R)
              (CS.solver self, [], CS.active_sboxes_per_round self))
    as [[[slv pt] per] Hloop].
  { intros st r Hr. apply elem_of_seqZ in Hr.
    apply (round_constraints_total self R); [done | done | done | lia]. }
  rewrite Hloop, bind_Ok.
  apply (rounds_loop self R Hin Hout) in Hloop as (Hpt & _ & _).
  destruct (positions_range_cons R HR) as [rest Hpos].
  rewrite Hpos in Hpt. cbn in Hpt. rewrite Hpt. cbn [CS.reduce_mul]. rewrite bind_Ok.
  rewrite Hin. rewrite (getitem_fmap_range_Ok CS.In_ (R + 1) 0) by lia. rewrite bind_Ok.
  rewrite getitem_fmap_range_last_Ok by lia. rewrite bind_Ok. by eexists.
Qed.

Lemma mandatory_loop_total (masks : list CS.bvar) (R : Z) (required : list Z)
    (slv : CS.optimize) :
  masks = CS.In_ <$> range (R + 1) -> 0 <= R ->
  (Forall (fun i => 0 <= i < 4) required ->
   exists slv',
     for_each required
       (fun slv i =>
          in_last ← getitem masks (-1);
          nibble ← CS.mk_extract ((i + 1) * 4 - 1) (i * 4) in_last;
          Ok (CS.solver_add slv (CS.BvNeC nibble 0)))
       slv = Ok slv') /\
  (~ Forall (fun i => 0 <= i < 4) required ->
   for_each required
     (fun slv i =>
        in_last ← getitem masks (-1);
        nibble ← CS.mk_extract ((i + 1) * 4 - 1) (i * 4) in_last;
        Ok (CS.solver_add slv (CS.BvNeC nibble 0)))
     slv = Raise Z3Exception).
Proof.
  intros -> HR. rewrite (getitem_fmap_range_last_Ok CS.In_ R HR).
  revert slv. induction required as [|i required IH]; intros slv.
  - split; [by exists slv|]. intros H. destruct H. constructor.
  - cbn [for_each]. rewrite bind_Ok.
    destruct (decide (0 <= i < 4)) as [Hi|Hi].
    + rewrite mk_extract_nibble by done. rewrite !bind_Ok.
      destruct (IH (CS.solver_add slv
                      (CS.BvNeC (CS.Extract ((i + 1) * 4 - 1) (i * 4) (CS.In_ R)) 0)))
        as [Hok Herr].
      split.
      * intros Hall. apply Hok. by inversion Hall.
      * intros Hnot. apply Herr. intros Hall. apply Hnot. by constructor.
    + split; [intros Hall; by inversion Hall|]. intros _.
      unfold CS.mk_extract. rewrite decide_False by lia. reflexivity.
Qed.

Lemma add_mandatory_nibble_total (s0 : CS.t) (R : Z) (required : list Z) :
  CS.in_masks s0 = CS.In_ <$> range (R + 1) -> 0 <= R ->
  (Forall (fun i => 0 <= i < 4) required ->
   exists s1, CS.add_mandatory_nibble s0 required = Ok s1) /\
  (~ Forall (fun i => 0 <= i < 4) required ->
   CS.add_mandatory_nibble s0 required = Raise Z3Exception).
Proof.
  intros Hin HR. unfold CS.add_mandatory_nibble.
  destruct (mandatory_loop_total (CS.in_masks s0) R required (CS.solver s0) Hin HR)
    as [Hok Herr].
  split.
  - intros Hall. destruct (Hok Hall) as [slv' ->]. rewrite bind_Ok. by eexists.
  - intros Hnot. by rewrite (Herr Hnot).
Qed.

(** X12. With a 16-entry S-box, a bijective P-box, a valid variant
    and at least one round, the constructor of the searcher returns a
    searcher with one probability term per S-box position, [4 * R] in all.
    On that searcher, [add_mandatory_nibble] returns when every required
    block index is in [0..3], and raises the solver's exception when one is
    not. *)
Theorem searcher_construction (spn : SPN.t) (R : Z) (variant : string)
    (cap : option Z) (required : list Z) :
  length (SPN.sbox spn) = 16%nat -> bijection16 (SPN.pbox spn) ->
  variant = "linear"%string \/ variant = "differential"%string ->
  1 <= R ->
  exists s0,
    CS.__init__ spn R variant cap = Ok s0 /\
    Z.of_nat (length (CS.prob_terms s0)) = 4 * R /\
    (Forall (fun i => 0 <= i < 4) required ->
     succeeds (CS.add_mandatory_nibble s0 required)) /\
    (~ Forall (fun i => 0 <= i < 4) required ->
     CS.add_mandatory_nibble s0 required = Raise Z3Exception).
Proof.
  intros Hlen Hp Hv HR.
  destruct (searcher_init_total spn R variant cap Hlen Hp Hv HR) as [s0 Hinit].
  exists s0. split; [done|].
  destruct (init_asserted _ _ _ _ _ Hinit) as (_ & Hmasks & _ & Hpt & _).
  split.
  - rewrite Hpt, length_fmap. unfold positions.
    assert (Hgen : forall l : list Z,
              Z.of_nat (length (concat ((fun r => (fun j => (r, j)) <$> range 4) <$> l)))
              = 4 * Z.of_nat (length l)).
    { induction l as [|r l IH]; [done|].
      cbn [fmap list_fmap concat]. rewrite length_app, length_fmap.
      unfold range at 1. rewrite length_seqZ. cbn [length].
      change (list_fmap Z (list (Z * Z)) (fun r0 => (fun j => (r0, j)) <$> range 4) l)
        with ((fun r0 => (fun j => (r0, j)) <$> range 4) <$> l).
      lia. }
    rewrite Hgen. unfold range. rewrite length_seqZ. lia.
  - destruct (add_mandatory_nibble_total s0 R required Hmasks) as [Hok Herr]; [lia|].
    split; [|done]. intros Hall. destruct (Hok Hall) as [s1 Hs1]. by exists s1.
Qed.

Lemma searcher_construction_witness :
  exists s0,
    CS.__init__ test_spn 3 "linear" (Some 3) = Ok s0 /\
    Z.of_nat (length (CS.prob_terms s0)) = 4 * 3 /\
    (Forall (fun i => 0 <= i < 4) [4] ->
     succeeds (CS.add_mandatory_nibble s0 [4])) /\
    (~ Forall (fun i => 0 <= i < 4) [4] ->
     CS.add_mandatory_nibble s0 [4] = Raise Z3Exception).
Proof.
  apply (searcher_construction test_spn 3 "linear" (Some 3) [4]).
  - reflexivity.
  - unfold bijection16. compute_done.
  - by left.
  - lia.
Defined.

(** ** Enumeration of the characteristics *)

Lemma search_loop_distinct (check : CS.checker) (self : CS.t) (n : nat)
    (st st' : CS.search_state) :
  seen_results st ->
  CS.search_loop check self n st = Ok st' ->
  seen_results st' /\
  (length (CS.st_results st') <= length (CS.st_results st) + n)%nat.
Proof.
  revert st. induction n as [|n IH]; intros st Hinv H.
  - cbn in H. injection H as <-. split; [done | lia].
  - cbn [CS.search_loop] in H.
    destruct (check (CS.st_solver st)) as [m|]; [|injection H as <-; split; [done | lia]].
    apply bind_Ok_inv in H as (in_first & Hfirst & H).
    apply bind_Ok_inv in H as (in_last & Hlast & H).
    destruct (decide _) as [Hseen|Hnew] in H;
      apply bind_Ok_inv in H as (slv & Hblock & H); apply IH in H.
    + cbn [CS.st_results] in H. destruct H as [H Hlen]. split; [done | lia].
    + done.
    + cbn [CS.st_results] in H. destruct H as [H Hlen]. split; [done|].
      rewrite length_app in Hlen. cbn [length] in Hlen. lia.
    + destruct Hinv as [Hnd Hiff]. unfold seen_results, mask_pairs.
      cbn [CS.st_results CS.st_seen]. rewrite fmap_app. cbn [fmap list_fmap fst snd].
      split.
      * apply NoDup_app. split; [done|]. split; [|apply NoDup_singleton].
        intros p Hp Hp'. apply list_elem_of_singleton in Hp' as ->.
        apply Hnew. by apply Hiff.
      * intros p. rewrite elem_of_app, list_elem_of_singleton, elem_of_union,
          elem_of_singleton. by rewrite (Hiff p).
Qed.

(** X14. [search_best_characteristic] returns at most
    [num_solutions] characteristics, and no two of them have the same pair of
    masks [(alpha, beta)]. This holds for every solver. *)
Theorem search_results_distinct (check : CS.checker) (self self' : CS.t)
    (num_solutions : Z) (results : list CS.characteristic) :
  CS.search_best_characteristic check self num_solutions = Ok (results, self') ->
  (length results <= Z.to_nat num_solutions)%nat /\ NoDup (mask_pairs results).
Proof.
  unfold CS.search_best_characteristic. intros H.
  apply bind_Ok_inv in H as (st & Hloop & H). injection H as <- _.
  apply search_loop_distinct in Hloop as [[Hnd _] Hlen].
  - cbn [CS.st_results length] in Hlen. split; [lia | done].
  - split; [constructor|]. intros p. cbn. rewrite elem_of_nil. set_solver.
Qed.

Lemma search_results_distinct_witness :
  exists s0 s1 results s2,
    CS.__init__ test_spn 3 "linear" (Some 3) = Ok s0 /\
    CS.add_mandatory_nibble s0 [2] = Ok s1 /\
    CS.search_best_characteristic test_solver s1 2 = Ok (results, s2) /\
    (length results <= Z.to_nat 2)%nat /\ NoDup (mask_pairs results).
Proof.
  assert (H : is_ok (s0 ← CS.__init__ test_spn 3 "linear" (Some 3);
                     s1 ← CS.add_mandatory_nibble s0 [2];
                     CS.search_best_characteristic test_solver s1 2) = true)
    by (vm_compute; reflexivity).
  apply bind_is_ok in H as (s0 & H0 & H).
  apply bind_is_ok in H as (s1 & H1 & H).
  apply is_ok_true in H as [[results s2] H2].
  exists s0, s1, results, s2.
  split; [exact H0|]. split; [exact H1|]. split; [exact H2|].
  exact (search_results_distinct test_solver s1 s2 2 results H2).
Defined.

Lemma search_loop_fills (check : CS.checker) (self : CS.t) (n : nat)
    (st st' : CS.search_state) :
  sound check ->
  seen_blocked self st ->
  CS.search_loop check self n st = Ok st' ->
  length (CS.st_results st') = (length (CS.st_results st) + n)%nat
  \/ check (CS.st_solver st') = None.
Proof.
  intros Hsound. revert st. induction n as [|n IH]; intros st Hinv H.
  - cbn in H. injection H as <-. left. lia.
  - cbn [CS.search_loop] in H.
    destruct (check (CS.st_solver st)) as [m|] eqn:Hcheck;
      [|injection H as <-; by right].
    apply bind_Ok_inv in H as (in_first & Hfirst & H).
    apply bind_Ok_inv in H as (in_last & Hlast & H).
    pose proof (Hsound _ _ Hcheck) as Hsat. unfold CS.satisfies in Hsat.
    rewrite Forall_forall in Hsat.
    destruct (decide _) as [Hseen|Hnew] in H.
    + (* a model of the assertions cannot repeat a blocked pair *)
      exfalso. destruct (Hinv _ _ Hseen) as (Ha & Hb & v0 & vl & Hv0 & Hvl & Hin).
      assert (v0 = in_first) as -> by congruence.
      assert (vl = in_last) as -> by congruence.
      apply Hsat in Hin. cbn in Hin.
      rewrite !Z.mod_small in Hin by (apply as_long_range).
      rewrite orb_false_r in Hin. apply orb_prop in Hin as [Hin|Hin];
        by apply bool_decide_eq_true_1 in Hin.
    + apply bind_Ok_inv in H as (slv & Hblock & H).
      apply IH in H.
      * cbn [CS.st_results] in H. rewrite length_app in H. cbn [length] in H.
        destruct H as [H|H]; [left; lia | by right].
      * unfold CS.block in Hblock. rewrite Hfirst, bind_Ok, Hlast, bind_Ok in Hblock.
        injection Hblock as <-.
        intros a b Hab. cbn [CS.st_seen CS.st_solver] in *.
        apply elem_of_union in Hab as [Hab|Hab].
        -- destruct (Hinv _ _ Hab) as (Ha & Hb & v0 & vl & Hv0 & Hvl & Hin).
           split; [done|]. split; [done|]. exists v0, vl.
           split; [done|]. split; [done|]. apply elem_of_solver_add. by left.
        -- apply elem_of_singleton in Hab. injection Hab as -> ->.
           split; [apply as_long_range|]. split; [apply as_long_range|].
           exists in_first, in_last. split; [done|]. split; [done|].
           apply elem_of_solver_add. by right.
Qed.

(** X15. With a solver whose models satisfy the assertions,
    [search_best_characteristic] returns exactly [num_solutions]
    characteristics unless the solver reports no model of the assertions of
    the returned searcher: no pass of the loop is spent on a repeated pair of
    masks, because every returned pair has been excluded by an assertion. *)
Theorem search_stops_short_only_without_model (check : CS.checker)
    (self self' : CS.t) (num_solutions : Z) (results : list CS.characteristic) :
  sound check ->
  CS.search_best_characteristic check self num_solutions = Ok (results, self') ->
  length results = Z.to_nat num_solutions \/ check (CS.solver self') = None.
Proof.
  intros Hsound. unfold CS.search_best_characteristic. intros H.
  apply bind_Ok_inv in H as (st & Hloop & H). injection H as <- <-.
  apply (search_loop_fills check self _ _ _ Hsound) in Hloop.
  - cbn [CS.st_results length CS.solver] in *. destruct Hloop; [left; lia | by right].
  - intros a b Hab. cbn in Hab. set_solver.
Qed.

Lemma search_stops_short_only_without_model_witness :
  exists s0 s1 results s2,
    CS.__init__ test_spn 3 "linear" (Some 3) = Ok s0 /\
    CS.add_mandatory_nibble s0 [2] = Ok s1 /\
    CS.search_best_characteristic test_solver s1 2 = Ok (results, s2) /\
    endpoints (Ok (results, s2)) = [(4096, 256)] /\
    (length results = Z.to_nat 2 \/ test_solver (CS.solver s2) = None).
Proof.
  assert (Hres : endpoints (s0 ← CS.__init__ test_spn 3 "linear" (Some 3);
                            s1 ← CS.add_mandatory_nibble s0 [2];
                            CS.search_best_characteristic test_solver s1 2)
                 = [(4096, 256)]) by (vm_compute; reflexivity).
  assert (H : is_ok (s0 ← CS.__init__ test_spn 3 "linear" (Some 3);
                     s1 ← CS.add_mandatory_nibble s0 [2];
                     CS.search_best_characteristic test_solver s1 2) = true)
    by (vm_compute; reflexivity).
  apply bind_is_ok in H as (s0 & H0 & H).
  apply bind_is_ok in H as (s1 & H1 & H).
  apply is_ok_true in H as [[results s2] H2].
  rewrite H0, bind_Ok, H1, bind_Ok, H2 in Hres.
  exists s0, s1, results, s2.
  split; [exact H0|]. split; [exact H1|]. split; [exact H2|]. split; [exact Hres|].
  exact (search_stops_short_only_without_model test_solver s1 s2 2 results
           (candidate_solver_sound _) H2).
Defined.

(** ** Characteristics for the four nibbles of the key *)

Lemma target_contains (beta j p : Z) :
  0 <= j < 4 -> nibble beta j ≠ 0 -> j * 4 <= p < j * 4 + 4 ->
  p ∈ FP.get_target_partial_subkey beta.
Proof.
  intros Hj Hn Hp. rewrite target_eq. unfold target_bits_spec.
  apply elem_of_union_list. exists (nibble_positions j). split.
  - apply list_elem_of_fmap. exists j. split; [done|].
    apply list_elem_of_filter. split; [done|]. apply elem_of_seqZ. lia.
  - unfold nibble_positions. set_unfold. lia.
Qed.

Lemma search_results_masks (check : CS.checker)
    (spn : SPN.t) (num_rounds : Z) (variant : string) (cap : option Z)
    (required : list Z) (num_solutions : Z)
    (s0 s1 s2 : CS.t) (results : list CS.characteristic) :
  sound check ->
  CS.__init__ spn num_rounds variant cap = Ok s0 ->
  CS.add_mandatory_nibble s0 required = Ok s1 ->
  CS.search_best_characteristic check s1 num_solutions = Ok (results, s2) ->
  forall c, c ∈ results ->
    0 <= c.1.1 < 2 ^ 16 /\ c.1.1 ≠ 0 /\ 0 <= c.1.2 < 2 ^ 16 /\ c.1.2 ≠ 0 /\
    forall i, i ∈ required -> nibble c.1.2 i ≠ 0.
Proof.
  intros Hsound Hinit Hmand Hsearch c Hin.
  destruct (init_endpoints _ _ _ _ _ Hinit) as (in_first & in_last & H0 & Hl & Ha & Hb).
  destruct (add_mandatory_nibble_spec _ _ _ Hmand) as (Hmasks & Hmono & Hreq).
  unfold CS.search_best_characteristic in Hsearch.
  apply bind_Ok_inv in Hsearch as (st & Hloop & Hsearch). injection Hsearch as <- _.
  apply (search_loop_reads check Hsound (CS.assertions (CS.solver s1))) in Hloop;
    [|done|constructor].
  rewrite Forall_forall in Hloop.
  destruct (Hloop _ Hin) as (m & v0 & vl & Hm & Hv0 & Hvl & ->).
  rewrite Hmasks in Hv0, Hvl.
  assert (v0 = in_first) as -> by congruence.
  assert (vl = in_last) as -> by congruence.
  rewrite Forall_forall in Hm. cbn [fst snd].
  split; [apply as_long_range|]. split; [apply eval_BvNeC_var, Hm, Hmono, Ha|].
  split; [apply as_long_range|]. split; [apply eval_BvNeC_var, Hm, Hmono, Hb|].
  intros i Hi. destruct (Hreq i Hi) as (vl' & Hvl' & _ & Hnib).
  assert (vl' = in_last) as -> by congruence.
  apply eval_BvNeC_nibble, Hm, Hnib.
Qed.

Lemma generate_characteristics_covers (check : CS.checker) (fw : FP.t)
    (chars : list CS.characteristic) :
  sound check ->
  FP.generate_characteristics check fw = Ok chars ->
  Forall2 covers_nibble (range 4) chars.
Proof.
  intros Hsound. unfold FP.generate_characteristics. intros H.
  refine (for_each_prefix_invariant
            (fun done masks => Forall2 covers_nibble done masks) _ _ _ _ _ _ H).
  - constructor.
  - intros done i masks masks' Hi Hdone Hstep. cbn beta in Hstep.
    apply bind_Ok_inv in Hstep as (s0 & Hinit & Hstep).
    apply bind_Ok_inv in Hstep as (s1 & Hmand & Hstep).
    apply bind_Ok_inv in Hstep as ([found s2] & Hsearch & Hstep).
    apply bind_Ok_inv in Hstep as (c & Hc & Hstep). injection Hstep as <-.
    apply Forall2_app; [done|]. constructor; [|constructor].
    apply getitem_inv_nonneg in Hc; [|lia]. apply list_elem_of_lookup_2 in Hc.
    destruct (search_results_masks check _ _ _ _ _ _ _ _ _ _ Hsound Hinit Hmand Hsearch
                c Hc) as (Ha & Ha0 & Hb & _ & Hreq).
    repeat split; try done; try lia. apply Hreq. by left.
Qed.

(** X16. With a solver whose models satisfy the assertions, a
    call of [generate_characteristics] that returns gives four
    characteristics; the one at index [i] has 16-bit masks, a non-zero
    [alpha], and a [beta] whose nibble [i] is not zero. So the target bits of
    the four characteristics together are all 16 positions of the last round
    key. *)
Theorem characteristics_cover_last_round_key (check : CS.checker) (fw : FP.t)
    (chars : list CS.characteristic) :
  sound check ->
  FP.generate_characteristics check fw = Ok chars ->
  length chars = 4%nat /\
  (forall (i : nat) c, chars !! i = Some c -> covers_nibble (Z.of_nat i) c) /\
  ⋃ ((fun c : CS.characteristic => FP.get_target_partial_subkey c.1.2) <$> chars)
  = list_to_set (seqZ 0 16).
Proof.
  intros Hsound Hgen.
  pose proof (generate_characteristics_covers _ _ _ Hsound Hgen) as Hcov.
  assert (Hlen : length chars = 4%nat).
  { apply Forall2_length in Hcov. by rewrite <- Hcov. }
  assert (Hnth : forall (i : nat) c, chars !! i = Some c -> covers_nibble (Z.of_nat i) c).
  { intros i c Hc.
    assert ((i < 4)%nat) by (apply lookup_lt_Some in Hc; lia).
    eapply (Forall2_lookup_lr _ _ _ i); [exact Hcov | | exact Hc].
    unfold range. by rewrite (lookup_seqZ_lt 0 4 i) by lia. }
  split; [done|]. split; [done|].
  apply set_eq. intros p. rewrite elem_of_union_list, elem_of_list_to_set, elem_of_seqZ.
  split.
  - intros (X & HX & Hp). apply list_elem_of_fmap in HX as (c & -> & _).
    apply target_range in Hp. lia.
  - intros Hp.
    assert (Hq : 0 <= p / 4 < 4)
      by (split; [apply Z.div_pos | apply Z.div_lt_upper_bound]; lia).
    destruct (lookup_lt_is_Some_2 chars (Z.to_nat (p / 4))) as [c Hc]; [lia|].
    exists (FP.get_target_partial_subkey c.1.2). split.
    + apply list_elem_of_fmap. exists c. split; [done|]. by eapply list_elem_of_lookup_2.
    + destruct (Hnth _ _ Hc) as (_ & _ & _ & Hnib). rewrite Z2Nat.id in Hnib by lia.
      apply (target_contains _ (p / 4)); [done | done |].
      pose proof (Z.div_mod p 4). pose proof (Z.mod_pos_bound p 4). lia.
Qed.

Lemma characteristics_cover_last_round_key_witness :
  exists chars,
    FP.generate_characteristics test_solver test_framework = Ok chars /\
    length chars = 4%nat /\
    (forall (i : nat) c, chars !! i = Some c -> covers_nibble (Z.of_nat i) c) /\
    ⋃ ((fun c : CS.characteristic => FP.get_target_partial_subkey c.1.2) <$> chars)
    = list_to_set (seqZ 0 16).
Proof.
  assert (H : is_ok (FP.generate_characteristics test_solver test_framework) = true)
    by (vm_compute; reflexivity).
  apply is_ok_true in H as [chars Hgen].
  exists chars. split; [exact Hgen|].
  exact (characteristics_cover_last_round_key test_solver test_framework chars
           (candidate_solver_sound _) Hgen).
Defined.

(** One pass of the loop of [generate_characteristics] appends a
    characteristic or fails on the empty list of results. *)
Lemma characteristic_step (check : CS.checker) (fw : FP.t) (s0 : CS.t)
    (masks : list CS.characteristic) (i : Z) :
  CS.__init__ (FP.spn fw) (FP.num_rounds_char fw) (FP.variant fw)
              (FP.max_active_sboxes fw) = Ok s0 ->
  0 <= i < 4 ->
  exists s1, CS.add_mandatory_nibble s0 [i] = Ok s1 /\
    ((exists c,
        (searcher ← CS.__init__ (FP.spn fw) (FP.num_rounds_char fw) (FP.variant fw)
                                (FP.max_active_sboxes fw);
         searcher ← CS.add_mandatory_nibble searcher [i];
         '(found, _) ← CS.search_best_characteristic check searcher 1;
         c ← getitem found 0;
         Ok (masks ++ [c])) = Ok (masks ++ [c])) \/
     (searcher ← CS.__init__ (FP.spn fw) (FP.num_rounds_char fw) (FP.variant fw)
                             (FP.max_active_sboxes fw);
      searcher ← CS.add_mandatory_nibble searcher [i];
      '(found, _) ← CS.search_best_characteristic check searcher 1;
      c ← getitem found 0;
      Ok (masks ++ [c])) = Raise IndexError) /\
    (check (CS.solver s1) = None ->
     (searcher ← CS.__init__ (FP.spn fw) (FP.num_rounds_char fw) (FP.variant fw)
                             (FP.max_active_sboxes fw);
      searcher ← CS.add_mandatory_nibble searcher [i];
      '(found, _) ← CS.search_best_characteristic check searcher 1;
      c ← getitem found 0;
      Ok (masks ++ [c])) = Raise IndexError).
Proof.
  intros Hinit Hi.
  destruct (init_asserted _ _ _ _ _ Hinit) as (HR & Hmasks & _).
  destruct (add_mandatory_nibble_total s0 (FP.num_rounds_char fw) [i] Hmasks)
    as [Hok _]; [lia|].
  destruct Hok as [s1 Hs1]; [by constructor|].
  exists s1. split; [done|]. rewrite Hinit, bind_Ok, Hs1, bind_Ok.
  destruct (add_mandatory_nibble_spec _ _ _ Hs1) as (Hmasks1 & _).
  rewrite Hmasks in Hmasks1.
  unfold CS.search_best_characteristic. change (Z.to_nat 1) with 1%nat.
  cbn [CS.search_loop CS.st_solver].
  destruct (check (CS.solver s1)) as [m|].
  - split; [|done]. left.
    unfold CS.block. rewrite Hmasks1.
    rewrite (getitem_fmap_range_Ok CS.In_ (FP.num_rounds_char fw + 1) 0) by lia.
    rewrite getitem_fmap_range_last_Ok by lia. rewrite !bind_Ok.
    rewrite decide_False by set_solver. rewrite !bind_Ok. cbn. eauto.
  - split; [by right | done].
Qed.

(** X17. When the solver finds no model for the searcher with the
    mandatory nibble [i] (for some [i] in [0..3]),
    [generate_characteristics] raises [IndexError]: it takes element [0] of
    an empty list of results. *)
Theorem no_model_index_error (check : CS.checker) (fw : FP.t) (s0 s1 : CS.t) (i : Z) :
  CS.__init__ (FP.spn fw) (FP.num_rounds_char fw) (FP.variant fw)
              (FP.max_active_sboxes fw) = Ok s0 ->
  0 <= i < 4 ->
  CS.add_mandatory_nibble s0 [i] = Ok s1 ->
  check (CS.solver s1) = None ->
  FP.generate_characteristics check fw = Raise IndexError.
Proof.
  intros Hinit Hi Hs1 Hnone. unfold FP.generate_characteristics.
  assert (Hfail : forall masks,
            (searcher ← CS.__init__ (FP.spn fw) (FP.num_rounds_char fw) (FP.variant fw)
                                    (FP.max_active_sboxes fw);
             searcher ← CS.add_mandatory_nibble searcher [i];
             '(found, _) ← CS.search_best_characteristic check searcher 1;
             c ← getitem found 0;
             Ok (masks ++ [c])) = Raise IndexError).
  { intros masks.
    destruct (characteristic_step check fw s0 masks i Hinit Hi) as (s1' & Hs1' & _ & H).
    apply H. congruence. }
  assert (Hstep : forall masks j, 0 <= j < 4 ->
            (exists c,
               (searcher ← CS.__init__ (FP.spn fw) (FP.num_rounds_char fw) (FP.variant fw)
                                       (FP.max_active_sboxes fw);
                searcher ← CS.add_mandatory_nibble searcher [j];
                '(found, _) ← CS.search_best_characteristic check searcher 1;
                c ← getitem found 0;
                Ok (masks ++ [c])) = Ok (masks ++ [c])) \/
            (searcher ← CS.__init__ (FP.spn fw) (FP.num_rounds_char fw) (FP.variant fw)
                                    (FP.max_active_sboxes fw);
             searcher ← CS.add_mandatory_nibble searcher [j];
             '(found, _) ← CS.search_best_characteristic check searcher 1;
             c ← getitem found 0;
             Ok (masks ++ [c])) = Raise IndexError).
  { intros masks j Hj.
    by destruct (characteristic_step check fw s0 masks j Hinit Hj) as (_ & _ & H & _). }
  change (range 4) with [0; 1; 2; 3]. cbn [for_each].
  assert (i = 0 \/ i = 1 \/ i = 2 \/ i = 3) as [-> | [-> | [-> | ->]]] by lia.
  - by rewrite Hfail.
  - destruct (Hstep [] 0) as [[c0 ->] | ->]; [lia | | done]. rewrite bind_Ok.
    by rewrite Hfail.
  - destruct (Hstep [] 0) as [[c0 ->] | ->]; [lia | | done]. rewrite bind_Ok.
    destruct (Hstep ([] ++ [c0]) 1) as [[c1 ->] | ->]; [lia | | done]. rewrite bind_Ok.
    by rewrite Hfail.
  - destruct (Hstep [] 0) as [[c0 ->] | ->]; [lia | | done]. rewrite bind_Ok.
    destruct (Hstep ([] ++ [c0]) 1) as [[c1 ->] | ->]; [lia | | done]. rewrite bind_Ok.
    destruct (Hstep (([] ++ [c0]) ++ [c1]) 2) as [[c2 ->] | ->]; [lia | | done].
    rewrite bind_Ok. by rewrite Hfail.
Qed.

Lemma no_model_index_error_witness :
  FP.generate_characteristics (candidate_solver []) test_framework = Raise IndexError.
Proof.
  assert (H : is_ok (s0 ← CS.__init__ test_spn 3 "linear" (Some 3);
                     CS.add_mandatory_nibble s0 [0]) = true)
    by (vm_compute; reflexivity).
  apply bind_is_ok in H as (s0 & H0 & H).
  apply is_ok_true in H as [s1 H1].
  apply (no_model_index_error (candidate_solver []) test_framework s0 s1 0).
  - exact H0.
  - lia.
  - exact H1.
  - reflexivity.
Defined.

(** ** Samples, partial decryption and key guesses *)

Lemma map_result_Ok {A B} (f : A -> result B) (l : list A) (ys : list B) :
  FP.map_result f l = Ok ys -> Forall2 (fun x y => f x = Ok y) l ys.
Proof.
  revert ys. induction l as [|x l IH]; intros ys H.
  - cbn in H. injection H as <-. constructor.
  - cbn [FP.map_result] in H. apply bind_Ok_inv in H as (y & Hy & H).
    apply bind_Ok_inv in H as (ys' & Hys & H). injection H as <-.
    constructor; [done | by apply IH].
Qed.

Lemma lookup_draw (randint : nat -> Z) (k : nat) (n : Z) (j : nat) (pt : Z) :
  FP.draw randint k n !! j = Some pt -> pt = randint (k + j)%nat.
Proof.
  unfold FP.draw. rewrite list_lookup_fmap. intros H.
  destruct (seq k (Z.to_nat n) !! j) as [i|] eqn:Hi; [|discriminate].
  apply lookup_seq in Hi as [-> _]. cbn in H. congruence.
Qed.

Lemma length_draw (randint : nat -> Z) (k : nat) (n : Z) :
  length (FP.draw randint k n) = Z.to_nat n.
Proof. unfold FP.draw. by rewrite length_fmap, length_seq. Qed.

(** X18. When [generate_samples] returns, it has drawn one random
    plaintext per sample, in order. For the variant ["linear"] the samples
    are the pairs of a drawn plaintext and its ciphertext under the full
    cipher; for ["differential"] they are the pairs of the ciphertexts of a
    drawn plaintext and of that plaintext xor [alpha]; there are
    [num_samples] of them. For any other variant the result is [None] and
    nothing is drawn. *)
Theorem generate_samples_pairs (randint : nat -> Z) (fw : FP.t) (k : nat)
    (num_samples alpha : Z) (samples : option (list (Z * Z))) (k' : nat) :
  FP.generate_samples randint fw k num_samples alpha = Ok (samples, k') ->
  k' = (k + length (default [] samples))%nat /\
  (FP.variant fw = "linear"%string ->
   exists pairs, samples = Some pairs /\ length pairs = Z.to_nat num_samples /\
     forall (j : nat) pt ct, pairs !! j = Some (pt, ct) ->
       pt = randint (k + j)%nat /\
       SPN.encrypt (FP.spn fw) pt (SPN.rounds (FP.spn fw)) = Ok ct) /\
  (FP.variant fw = "differential"%string ->
   exists pairs, samples = Some pairs /\ length pairs = Z.to_nat num_samples /\
     forall (j : nat) ct ct_alpha, pairs !! j = Some (ct, ct_alpha) ->
       SPN.encrypt (FP.spn fw) (randint (k + j)%nat) (SPN.rounds (FP.spn fw)) = Ok ct /\
       SPN.encrypt (FP.spn fw) (Z.lxor (randint (k + j)%nat) alpha)
                   (SPN.rounds (FP.spn fw)) = Ok ct_alpha) /\
  (FP.variant fw ≠ "linear"%string -> FP.variant fw ≠ "differential"%string ->
   samples = None).
Proof.
  unfold FP.generate_samples. intros H.
  destruct (decide (FP.variant fw = "linear"%string)) as [Hlin|Hnlin].
  - apply bind_Ok_inv in H as (cts & Hcts & H). injection H as <- <-.
    apply map_result_Ok in Hcts. pose proof (Forall2_length _ _ _ Hcts) as Hlen.
    rewrite length_draw in Hlen. cbn [from_option id].
    rewrite length_zip_with, length_draw, <- Hlen, Nat.min_id.
    split; [done|]. split; [|split].
    + intros _. eexists. split; [done|].
      split; [by rewrite length_zip_with, length_draw, <- Hlen, Nat.min_id|].
      intros j pt ct Hj. apply lookup_zip_with_Some in Hj as (x & y & [= <- <-] & Hx & Hy).
      split; [by eapply lookup_draw|].
      exact (Forall2_lookup_lr _ _ _ j _ _ Hcts Hx Hy).
    + intros Hd. rewrite Hd in Hlin. discriminate.
    + done.
  - destruct (decide (FP.variant fw = "differential"%string)) as [Hdiff|Hndiff].
    + apply bind_Ok_inv in H as (cts & Hcts & H).
      apply bind_Ok_inv in H as (cts' & Hcts' & H). injection H as <- <-.
      apply map_result_Ok in Hcts, Hcts'.
      pose proof (Forall2_length _ _ _ Hcts) as Hlen.
      pose proof (Forall2_length _ _ _ Hcts') as Hlen'.
      rewrite length_fmap in Hlen'. rewrite length_draw in Hlen, Hlen'. cbn [from_option id].
      rewrite length_zip_with, <- Hlen, <- Hlen', Nat.min_id.
      split; [done|]. split; [done|]. split; [|done].
      intros _. eexists. split; [done|].
      split; [by rewrite length_zip_with, <- Hlen, <- Hlen', Nat.min_id|].
      intros j ct ct' Hj. apply lookup_zip_with_Some in Hj as (x & y & [= <- <-] & Hx & Hy).
      destruct (lookup_lt_is_Some_2 (FP.draw randint k num_samples) j) as [pt Hpt].
      { rewrite length_draw, Hlen. by eapply lookup_lt_Some. }
      pose proof (lookup_draw _ _ _ _ _ Hpt) as Hpt'. subst pt. split.
      * exact (Forall2_lookup_lr _ _ _ j _ _ Hcts Hpt Hx).
      * refine (Forall2_lookup_lr _ _ _ j _ _ Hcts' _ Hy).
        by rewrite list_lookup_fmap, Hpt.
    + injection H as <- <-. cbn. split; [lia|]. done.
Qed.

Lemma generate_samples_pairs_witness :
  FP.generate_samples test_randint test_framework 0 2 1
  = Ok (Some [(6789, 8929); (19134, 7324)], 2%nat) /\
  exists pairs, Some [(6789, 8929); (19134, 7324)] = Some pairs /\
    length pairs = Z.to_nat 2 /\
    forall (j : nat) pt ct, pairs !! j = Some (pt, ct) ->
      pt = test_randint (0 + j)%nat /\
      SPN.encrypt test_spn pt 4 = Ok ct.
Proof.
  assert (Hrun : FP.generate_samples test_randint test_framework 0 2 1
                 = Ok (Some [(6789, 8929); (19134, 7324)], 2%nat))
    by (vm_compute; reflexivity).
  split; [exact Hrun|].
  destruct (generate_samples_pairs test_randint test_framework 0 2 1 _ _ Hrun)
    as (_ & Hlin & _).
  apply Hlin. reflexivity.
Defined.

Lemma nibble_lxor (x y j : Z) :
  0 <= j -> nibble (Z.lxor x y) j = Z.lxor (nibble x j) (nibble y j).
Proof.
  intros Hj. apply Z.bits_inj'. intros n Hn.
  rewrite Z.lxor_spec, !testbit_nibble, Z.lxor_spec by lia.
  by destruct (bool_decide (n < 4)).
Qed.

Lemma encrypt_last_round (self : SPN.t) (pt N : Z) :
  1 <= N ->
  SPN.encrypt self pt N
  = (u ← last_sbox_input self pt N;
     s ← SPN._substitution self u;
     k ← getitem (SPN.round_keys self) N;
     Ok (Z.lxor s k)).
Proof.
  intros HN. unfold SPN.encrypt, last_sbox_input, range2.
  replace (N + 1 - 1) with ((N - 1) + 1) by lia.
  rewrite seqZ_app by lia. rewrite for_each_app.
  destruct (for_each (seqZ 1 (N - 1)) (SPN.encrypt_round self N) pt) as [s|e];
    [|reflexivity].
  rewrite !bind_Ok. replace (1 + (N - 1)) with N by lia.
  change (seqZ N 1) with [N]. cbn [for_each]. unfold SPN.encrypt_round.
  destruct (getitem (SPN.round_keys self) (N - 1)) as [k|e]; [|reflexivity].
  rewrite !bind_Ok.
  destruct (SPN._substitution self (Z.lxor s k)) as [a|e]; [|reflexivity].
  rewrite !bind_Ok. rewrite decide_False by (intros H; by apply H). reflexivity.
Qed.

(** X19. On a valid cipher, let [u] be the state that
    enters the S-boxes of round [N] when [pt] is encrypted, and [ct] the
    ciphertext. [_partially_decrypt] of the sample [(pt, ct)] with a key guess
    returns [pt] with a 16-bit value whose nibble [j] is the nibble [j] of
    [u] for every [j] at which the guess has the nibble of the round key
    [round_keys[N]]. *)
Theorem partial_decryption_recovers_sbox_input
    (sbox pbox round_keys : list Z) (rounds : Z) (spn : SPN.t)
    (num_rounds_char : Z) (cap : option Z) (fw : FP.t) (pt N key_guess : Z) :
  bijection16 sbox -> bijection16 pbox ->
  SPN.__init__ sbox pbox round_keys rounds = Ok spn ->
  FP.__init__ spn num_rounds_char "linear" cap = Ok fw ->
  1 <= N < Z.of_nat (length round_keys) ->
  exists u ct k_last partial,
    last_sbox_input spn pt N = Ok u /\
    SPN.encrypt spn pt N = Ok ct /\
    getitem round_keys N = Ok k_last /\
    Cryptanalysis._partially_decrypt (Cryptanalysis.__init__ fw) [(pt, ct)] key_guess
    = Ok (Some ([pt], [partial])) /\
    0 <= partial < 2 ^ 16 /\
    forall j, 0 <= j < 4 -> nibble key_guess j = nibble k_last j ->
              nibble partial j = nibble u j.
Proof.
  intros Hs Hp Hinit Hfw HN.
  destruct (init_inverse_tables _ _ _ _ _ Hs Hp Hinit)
    as (Hsbox & Hpbox & His & Hbs & _ & _).
  destruct (init_fields _ _ _ _ _ Hinit) as (_ & _ & Hrk & _).
  injection Hfw as <-.
  assert (Hs' : bijection16 (SPN.sbox spn)) by by rewrite Hsbox.
  assert (Hp' : bijection16 (SPN.pbox spn)) by by rewrite Hpbox.
  destruct (encrypt_rounds_total spn N (range2 1 N) pt Hs' Hp') as (s & Hrun & _).
  { intros i Hi. apply elem_of_seqZ in Hi. rewrite Hrk. lia. }
  destruct (getitem_in_range round_keys (N - 1)) as [k Hk]; [lia|].
  destruct (getitem_in_range round_keys N) as [k_last Hlast]; [lia|].
  assert (Hu : last_sbox_input spn pt N = Ok (Z.lxor s k)).
  { unfold last_sbox_input. by rewrite Hrun, bind_Ok, Hrk, Hk. }
  destruct (substitute_spec sbox (Z.lxor s k) Hs) as (a & Ha & Ha16 & Hnib).
  assert (Hct : SPN.encrypt spn pt N = Ok (Z.lxor a k_last)).
  { rewrite encrypt_last_round by lia. rewrite Hu, bind_Ok.
    unfold SPN._substitution. by rewrite Hsbox, Ha, bind_Ok, Hrk, Hlast. }
  destruct (substitute_spec (SPN.inv_sbox spn) (Z.lxor (Z.lxor a k_last) key_guess) Hbs)
    as (partial & Hpartial & Hp16 & Hpnib).
  exists (Z.lxor s k), (Z.lxor a k_last), k_last, partial.
  split; [done|]. split; [done|]. split; [done|]. split; [|split; [done|]].
  - unfold Cryptanalysis._partially_decrypt, Cryptanalysis.__init__.
    cbn [Cryptanalysis.variant Cryptanalysis.spn FP.variant FP.spn].
    rewrite decide_True by done. cbn [for_each].
    unfold SPN._inv_substitution. by rewrite Hpartial.
  - intros j Hj Hguess.
    specialize (Hpnib j Hj). specialize (Hnib j Hj).
    rewrite !nibble_lxor in Hpnib by lia.
    rewrite Hguess, Z.lxor_assoc, Z.lxor_nilpotent, Z.lxor_0_r in Hpnib.
    apply (His (nibble (Z.lxor s k) j)) in Hnib; [|apply nibble_range].
    congruence.
Qed.

Lemma partial_decryption_recovers_sbox_input_witness :
  exists u ct k_last partial,
    last_sbox_input test_spn 0 4 = Ok u /\
    SPN.encrypt test_spn 0 4 = Ok ct /\
    getitem test_round_keys 4 = Ok k_last /\
    Cryptanalysis._partially_decrypt (Cryptanalysis.__init__ test_framework)
      [(0, ct)] 0xC0F0
    = Ok (Some ([0], [partial])) /\
    0 <= partial < 2 ^ 16 /\
    forall j, 0 <= j < 4 -> nibble 0xC0F0 j = nibble k_last j ->
              nibble partial j = nibble u j.
Proof.
  apply (partial_decryption_recovers_sbox_input test_sbox test_pbox test_round_keys 4
           test_spn 3 (Some 3) test_framework 0 4 0xC0F0).
  - unfold bijection16. compute_done.
  - unfold bijection16. compute_done.
  - vm_compute. reflexivity.
  - vm_compute. reflexivity.
  - cbn. lia.
Defined.

Lemma land_1_testbit (x : Z) : Z.land x 1 = Z.b2z (Z.testbit x 0).
Proof.
  change 1 with (Z.ones 1). rewrite Z.land_ones by lia.
  change (2 ^ 1) with 2. symmetry. apply Z.bit0_mod.
Qed.

Lemma key_guess_loop (g : Z) (l : list Z) (i0 : Z) (acc p : Z) :
  0 <= i0 -> 0 <= p ->
  Z.testbit
    (foldl (fun key_guess '(i, bit_pos) =>
              if decide (Z.land (Z.shiftr g i) 1 ≠ 0)
              then Z.lor key_guess (Z.shiftl 1 bit_pos)
              else key_guess)
           acc (zip (seqZ i0 (Z.of_nat (length l))) l)) p = true
  <-> Z.testbit acc p = true
      \/ exists i : nat, l !! i = Some p /\ Z.testbit g (i0 + Z.of_nat i) = true.
Proof.
  intros Hi0 Hp. revert i0 acc Hi0. induction l as [|x l IH]; intros i0 acc Hi0.
  - cbn. split; [by left|]. intros [H|(i & Hi & _)]; [done|]. by rewrite lookup_nil in Hi.
  - cbn [length]. rewrite seqZ_S. cbn [zip_with foldl]. rewrite IH by lia.
    assert (Hbit : Z.land (Z.shiftr g i0) 1 ≠ 0 <-> Z.testbit g i0 = true).
    { rewrite land_1_testbit, Z.shiftr_spec, Z.add_0_l by lia.
      destruct (Z.testbit g i0); cbn; split; (done || lia). }
    split.
    + intros [Hacc | (i & Hi & Hg)].
      * destruct (decide _) as [Hset|Hclear] in Hacc; [|by left].
        rewrite Z.lor_spec in Hacc. apply orb_prop in Hacc as [Hacc|Hacc]; [by left|].
        rewrite testbit_shiftl_1 in Hacc by done. apply bool_decide_eq_true_1 in Hacc.
        right. exists 0%nat. subst x. split; [done|].
        rewrite Z.add_0_r. by apply Hbit.
      * right. exists (S i). split; [done|].
        by replace (i0 + Z.of_nat (S i)) with (i0 + 1 + Z.of_nat i) by lia.
    + intros [Hacc | (i & Hi & Hg)].
      * left. destruct (decide _); [|done]. rewrite Z.lor_spec, Hacc. done.
      * destruct i as [|i].
        -- left. cbn in Hi. injection Hi as ->. rewrite Z.add_0_r in Hg.
           rewrite decide_True by by apply Hbit.
           rewrite Z.lor_spec, testbit_shiftl_1 by done.
           rewrite bool_decide_eq_true_2 by done. apply orb_true_r.
        -- right. exists i. split; [done|].
           by replace (i0 + 1 + Z.of_nat i) with (i0 + Z.of_nat (S i)) by lia.
Qed.

Lemma guess_for_bits (l : list Z) (K : Z) :
  0 <= guess_for l K < 2 ^ Z.of_nat (length l) /\
  forall i : nat,
    Z.testbit (guess_for l K) (Z.of_nat i)
    = match l !! i with Some p => Z.testbit K p | None => false end.
Proof.
  induction l as [|p l [IHr IHb]].
  - split; [cbn; lia|]. intros i. cbn. by rewrite Z.bits_0.
  - cbn [guess_for foldr length]. fold (guess_for l K). split.
    + rewrite Nat2Z.inj_succ, Z.pow_succ_r by lia.
      destruct (Z.testbit K p); cbn [Z.b2z]; lia.
    + intros [|i].
      * cbn [lookup list_lookup]. rewrite Z.add_comm. apply Z.testbit_0_r.
      * cbn [lookup list_lookup]. rewrite Nat2Z.inj_succ, Z.add_comm.
        rewrite Z.testbit_succ_r by lia. apply IHb.
Qed.

(** X20. The candidates that [_find_key_bits] tries cover every
    assignment of the active bits: for every key [K] there is a counter in
    [range(1 << len(active_bits))] whose key guess has, at each active
    position, the bit of [K], and [0] at every other position. *)
Theorem key_guesses_exhaustive (active_bits : list Z) (K : Z) :
  guess_for active_bits K ∈ range (Z.shiftl 1 (Z.of_nat (length active_bits))) /\
  forall p, 0 <= p ->
    Z.testbit (Cryptanalysis.key_guess_of active_bits (guess_for active_bits K)) p
    = bool_decide (p ∈ active_bits) && Z.testbit K p.
Proof.
  destruct (guess_for_bits active_bits K) as [Hrange Hbits]. split.
  - unfold range. apply elem_of_seqZ. rewrite Z.shiftl_1_l. lia.
  - intros p Hp. apply eq_true_iff_eq.
    unfold Cryptanalysis.key_guess_of, Cryptanalysis.enumerate.
    rewrite key_guess_loop by lia. rewrite Z.bits_0, andb_true_iff, bool_decide_eq_true.
    split.
    + intros [?|(i & Hi & Hg)]; [done|]. rewrite Z.add_0_l, Hbits, Hi in Hg.
      split; [by eapply list_elem_of_lookup_2 | done].
    + intros [Hin HK]. right. apply list_elem_of_lookup_1 in Hin as [i Hi].
      exists i. split; [done|]. by rewrite Z.add_0_l, Hbits, Hi.
Qed.

(** ** The score of a key guess *)

Lemma nibbles_eq (a b : Z) :
  0 <= a < 2 ^ 16 -> 0 <= b < 2 ^ 16 ->
  (forall j, 0 <= j < 4 -> nibble a j = nibble b j) -> a = b.
Proof.
  intros Ha Hb H. apply (bits_eq_below a b 16); [lia|done|done|].
  intros m Hm.
  assert (Hj : 0 <= m / 4 < 4) by (split; [apply Z.div_pos | apply Z.div_lt_upper_bound]; lia).
  assert (Hn : 0 <= m mod 4 < 4) by (apply Z.mod_pos_bound; lia).
  assert (Hmm : m = m mod 4 + m / 4 * 4) by (pose proof (Z.div_mod m 4); lia).
  pose proof (f_equal (fun x => Z.testbit x (m mod 4)) (H _ Hj)) as Heq. cbn beta in Heq.
  rewrite !testbit_nibble in Heq by lia.
  rewrite bool_decide_eq_true_2 in Heq by lia. cbn in Heq.
  by rewrite <- Hmm in Heq.
Qed.

Lemma nibble_target_bits (beta kg kg' j : Z) :
  (forall p, p ∈ FP.get_target_partial_subkey beta -> Z.testbit kg p = Z.testbit kg' p) ->
  0 <= j < 4 -> nibble beta j ≠ 0 -> nibble kg j = nibble kg' j.
Proof.
  intros Hbits Hj Hn. apply Z.bits_inj'. intros n Hn0.
  rewrite !testbit_nibble by lia.
  destruct (decide (n < 4)) as [Hlt|Hge].
  - rewrite bool_decide_eq_true_2 by done. cbn.
    apply Hbits. apply (target_contains beta j); [done | done | lia].
  - by rewrite bool_decide_eq_false_2.
Qed.

Lemma land_active_nibbles (beta x x' : Z) :
  0 <= beta < 2 ^ 16 ->
  (forall j, 0 <= j < 4 -> nibble beta j ≠ 0 -> nibble x j = nibble x' j) ->
  Z.land beta x = Z.land beta x'.
Proof.
  intros Hb H. apply Z.bits_inj'. intros m Hm. rewrite !Z.land_spec.
  destruct (Z.testbit beta m) eqn:Hbit; [|done]. cbn.
  assert (Hm16 : m < 16).
  { destruct (decide (m < 16)); [done|].
    rewrite (testbit_below beta 16 m) in Hbit by lia. done. }
  assert (Hj : 0 <= m / 4 < 4) by (split; [apply Z.div_pos | apply Z.div_lt_upper_bound]; lia).
  assert (Hn : 0 <= m mod 4 < 4) by (apply Z.mod_pos_bound; lia).
  assert (Hmm : m = m mod 4 + m / 4 * 4) by (pose proof (Z.div_mod m 4); lia).
  assert (Hact : nibble beta (m / 4) ≠ 0).
  { intros Hz. apply (f_equal (fun v => Z.testbit v (m mod 4))) in Hz.
    rewrite testbit_nibble, Z.bits_0, bool_decide_eq_true_2, <- Hmm in Hz by lia.
    cbn in Hz. congruence. }
  pose proof (f_equal (fun v => Z.testbit v (m mod 4)) (H _ Hj Hact)) as Heq.
  cbn beta in Heq. rewrite !testbit_nibble in Heq by lia.
  rewrite bool_decide_eq_true_2 in Heq by lia. cbn in Heq.
  by rewrite <- Hmm in Heq.
Qed.

(** The nibbles of a partially decrypted value, by the nibbles of the
    ciphertext and of the key guess. *)
Lemma substituted_nibble_key (inv : list Z) (ct kg kg' x x' j : Z) :
  substituted inv (Z.lxor ct kg) x -> substituted inv (Z.lxor ct kg') x' ->
  0 <= j < 4 -> nibble kg j = nibble kg' j -> nibble x j = nibble x' j.
Proof.
  intros [_ Hx] [_ Hx'] Hj Hk. specialize (Hx j Hj). specialize (Hx' j Hj).
  rewrite nibble_lxor in Hx, Hx' by lia. rewrite Hk in Hx. congruence.
Qed.

Lemma substituted_nibble_collide (inv : list Z) (c ca kg x xa j : Z) :
  bijection16 inv ->
  substituted inv (Z.lxor c kg) x -> substituted inv (Z.lxor ca kg) xa ->
  0 <= j < 4 ->
  nibble x j = nibble xa j <-> nibble c j = nibble ca j.
Proof.
  intros Hb [_ Hx] [_ Hxa] Hj. specialize (Hx j Hj). specialize (Hxa j Hj).
  rewrite nibble_lxor in Hx, Hxa by lia. split.
  - intros Heq. rewrite Heq in Hx.
    assert (Hidx : Z.to_nat (Z.lxor (nibble c j) (nibble kg j))
                   = Z.to_nat (Z.lxor (nibble ca j) (nibble kg j)))
      by (eapply NoDup_lookup; eauto using bijection16_NoDup).
    pose proof (nibble_range c j). pose proof (nibble_range ca j).
    pose proof (nibble_range kg j).
    pose proof (lxor_below (nibble c j) (nibble kg j) 4).
    pose proof (lxor_below (nibble ca j) (nibble kg j) 4).
    assert (Hl : Z.lxor (nibble c j) (nibble kg j) = Z.lxor (nibble ca j) (nibble kg j))
      by lia.
    rewrite <- (lxor_cancel_r (nibble c j) (nibble kg j)), Hl. apply lxor_cancel_r.
  - intros Heq. rewrite Heq in Hx. congruence.
Qed.

Lemma partially_decrypt_linear (self : Cryptanalysis.t) (samples : list (Z * Z))
    (kg : Z) :
  bijection16 (SPN.inv_sbox (Cryptanalysis.spn self)) ->
  Cryptanalysis.variant self = "linear"%string ->
  exists pairs,
    (r ← Cryptanalysis._partially_decrypt self samples kg; Cryptanalysis.zip_star r)
    = Ok pairs /\
    Forall2 (fun s pr : Z * Z =>
               pr.1 = s.1 /\
               substituted (SPN.inv_sbox (Cryptanalysis.spn self)) (Z.lxor s.2 kg) pr.2)
            samples pairs.
Proof.
  intros Hb Hv. unfold Cryptanalysis._partially_decrypt. rewrite decide_True by done.
  match goal with |- context [for_each samples ?f ([], [])] => set (body := f) end.
  assert (Hloop : forall pts parts, length pts = length parts ->
            exists pts' parts' new,
              for_each samples body (pts, parts) = Ok (pts', parts') /\
              zip pts' parts' = zip pts parts ++ new /\
              Forall2 (fun s pr : Z * Z =>
                         pr.1 = s.1 /\
                         substituted (SPN.inv_sbox (Cryptanalysis.spn self))
                                     (Z.lxor s.2 kg) pr.2)
                      samples new).
  { induction samples as [|[pt ct] samples IH]; intros pts parts Hlen.
    - exists pts, parts, []. split; [done|]. split; [by rewrite app_nil_r | constructor].
    - cbn [for_each]. unfold body at 2. cbn beta iota zeta. unfold SPN._inv_substitution.
      destruct (substitute_spec _ (Z.lxor ct kg) Hb) as (x & -> & Hx). rewrite !bind_Ok.
      destruct (IH (pts ++ [pt]) (parts ++ [x])) as (pts' & parts' & new & Hrun & Hzip & Hall).
      { rewrite !length_app. cbn. lia. }
      exists pts', parts', ((pt, x) :: new). split; [done|]. split.
      + rewrite Hzip, zip_with_app by done. cbn. by rewrite <- app_assoc.
      + constructor; [done | done]. }
  destruct (Hloop [] []) as (pts & parts & new & -> & Hzip & Hall); [done|].
  rewrite !bind_Ok. cbn [Cryptanalysis.zip_star]. exists new. by rewrite Hzip.
Qed.

Lemma partially_decrypt_differential (self : Cryptanalysis.t)
    (samples : list (Z * Z)) (kg : Z) :
  bijection16 (SPN.inv_sbox (Cryptanalysis.spn self)) ->
  Cryptanalysis.variant self = "differential"%string ->
  exists pairs,
    (r ← Cryptanalysis._partially_decrypt self samples kg; Cryptanalysis.zip_star r)
    = Ok pairs /\
    Forall2 (fun s pr : Z * Z =>
               substituted (SPN.inv_sbox (Cryptanalysis.spn self)) (Z.lxor s.1 kg) pr.1 /\
               substituted (SPN.inv_sbox (Cryptanalysis.spn self)) (Z.lxor s.2 kg) pr.2)
            samples pairs.
Proof.
  intros Hb Hv. unfold Cryptanalysis._partially_decrypt.
  rewrite decide_False by (rewrite Hv; done). rewrite decide_True by done.
  match goal with |- context [for_each samples ?f ([], [])] => set (body := f) end.
  assert (Hloop : forall ps psa, length ps = length psa ->
            exists ps' psa' new,
              for_each samples body (ps, psa) = Ok (ps', psa') /\
              zip ps' psa' = zip ps psa ++ new /\
              Forall2 (fun s pr : Z * Z =>
                         substituted (SPN.inv_sbox (Cryptanalysis.spn self))
                                     (Z.lxor s.1 kg) pr.1 /\
                         substituted (SPN.inv_sbox (Cryptanalysis.spn self))
                                     (Z.lxor s.2 kg) pr.2)
                      samples new).
  { induction samples as [|[ct cta] samples IH]; intros ps psa Hlen.
    - exists ps, psa, []. split; [done|]. split; [by rewrite app_nil_r | constructor].
    - cbn [for_each]. unfold body at 2. cbn beta iota zeta. unfold SPN._inv_substitution.
      destruct (substitute_spec _ (Z.lxor ct kg) Hb) as (x & -> & Hx). rewrite !bind_Ok.
      destruct (substitute_spec _ (Z.lxor cta kg) Hb) as (xa & -> & Hxa). rewrite !bind_Ok.
      destruct (IH (ps ++ [x]) (psa ++ [xa])) as (ps' & psa' & new & Hrun & Hzip & Hall).
      { rewrite !length_app. cbn. lia. }
      exists ps', psa', ((x, xa) :: new). split; [done|]. split.
      + rewrite Hzip, zip_with_app by done. cbn. by rewrite <- app_assoc.
      + constructor; [done | done]. }
  destruct (Hloop [] []) as (ps & psa & new & -> & Hzip & Hall); [done|].
  rewrite !bind_Ok. cbn [Cryptanalysis.zip_star]. exists new. by rewrite Hzip.
Qed.

Lemma linear_count_agree (alpha beta : Z) (pairs pairs' : list (Z * Z)) :
  Forall2 (fun pr pr' : Z * Z => pr.1 = pr'.1 /\ Z.land beta pr.2 = Z.land beta pr'.2)
          pairs pairs' ->
  Cryptanalysis.linear_count alpha beta pairs
  = Cryptanalysis.linear_count alpha beta pairs'.
Proof.
  unfold Cryptanalysis.linear_count. generalize 0.
  intros c H. revert c. induction H as [|[pt x] [pt' x'] l l' [Hpt Hx] _ IH]; intros c.
  - done.
  - cbn [foldl]. cbn [fst snd] in Hpt, Hx. subst pt'. rewrite Hx. apply IH.
Qed.

Lemma differential_count_agree (beta : Z) (pairs pairs' : list (Z * Z)) :
  Forall2 (fun pr pr' : Z * Z => Z.lxor pr.1 pr.2 = beta <-> Z.lxor pr'.1 pr'.2 = beta)
          pairs pairs' ->
  Cryptanalysis.differential_count beta pairs
  = Cryptanalysis.differential_count beta pairs'.
Proof.
  unfold Cryptanalysis.differential_count. generalize 0.
  intros c H. revert c. induction H as [|[x xa] [x' xa'] l l' Hiff _ IH]; intros c.
  - done.
  - cbn [foldl]. cbn [fst snd] in Hiff.
    destruct (decide (Z.lxor x xa = beta)) as [Hd|Hd].
    + rewrite decide_True by by apply Hiff. apply IH.
    + rewrite decide_False by (intros Hd'; by apply Hd, Hiff). apply IH.
Qed.

Lemma Forall2_through {A B} (R R' : A -> B -> Prop) (S : B -> B -> Prop)
    (l : list A) (k k' : list B) :
  (forall a b b', R a b -> R' a b' -> S b b') ->
  Forall2 R l k -> Forall2 R' l k' -> Forall2 S k k'.
Proof.
  intros HS H. revert k'. induction H as [|a b l k Hab _ IH]; intros k' H'.
  - inversion H'. constructor.
  - inversion H' as [|a' b' l' k'' Hab' Hrest]; subst.
    constructor; [by eapply HS | by apply IH].
Qed.

(** X21. For a bijective inverse S-box, a valid variant and a
    16-bit [beta], the score that [_find_key_bits] computes for a key guess
    depends only on the bits of the guess at the target positions of [beta]:
    two guesses that agree there get the same score (or the same error) on
    every list of samples. *)
Theorem score_depends_on_target_bits (self : Cryptanalysis.t) (alpha beta : Z)
    (attack_samples : list (Z * Z)) (key_guess key_guess' : Z) :
  bijection16 (SPN.inv_sbox (Cryptanalysis.spn self)) ->
  Cryptanalysis.variant self = "linear"%string
  \/ Cryptanalysis.variant self = "differential"%string ->
  0 <= beta < 2 ^ 16 ->
  (forall p, p ∈ FP.get_target_partial_subkey beta ->
             Z.testbit key_guess p = Z.testbit key_guess' p) ->
  guess_score self alpha beta attack_samples key_guess
  = guess_score self alpha beta attack_samples key_guess'.
Proof.
  intros Hb Hv Hbeta Hbits. unfold guess_score.
  pose proof (nibble_target_bits beta key_guess key_guess') as Hnib.
  destruct Hv as [Hv|Hv].
  - rewrite !decide_True by done. unfold Cryptanalysis.linear_score.
    destruct (partially_decrypt_linear self attack_samples key_guess Hb Hv)
      as (pairs & Hrun & Hall).
    destruct (partially_decrypt_linear self attack_samples key_guess' Hb Hv)
      as (pairs' & Hrun' & Hall').
    destruct (Cryptanalysis._partially_decrypt self attack_samples key_guess)
      as [r|]; [|discriminate].
    destruct (Cryptanalysis._partially_decrypt self attack_samples key_guess')
      as [r'|]; [|discriminate].
    rewrite bind_Ok in Hrun, Hrun'. rewrite !bind_Ok, Hrun, Hrun', !bind_Ok.
    rewrite (linear_count_agree alpha beta pairs pairs'); [done|].
    eapply Forall2_through; [|exact Hall|exact Hall'].
    intros s pr pr' [H1 H2] [H1' H2']. split; [congruence|].
    apply land_active_nibbles; [done|]. intros j Hj Hact.
    eapply substituted_nibble_key; eauto.
  - rewrite !decide_False by (rewrite Hv; done). unfold Cryptanalysis.differential_score.
    destruct (partially_decrypt_differential self attack_samples key_guess Hb Hv)
      as (pairs & Hrun & Hall).
    destruct (partially_decrypt_differential self attack_samples key_guess' Hb Hv)
      as (pairs' & Hrun' & Hall').
    destruct (Cryptanalysis._partially_decrypt self attack_samples key_guess)
      as [r|]; [|discriminate].
    destruct (Cryptanalysis._partially_decrypt self attack_samples key_guess')
      as [r'|]; [|discriminate].
    rewrite bind_Ok in Hrun, Hrun'. rewrite !bind_Ok, Hrun, Hrun', !bind_Ok.
    rewrite (differential_count_agree beta pairs pairs'); [done|].
    eapply Forall2_through; [|exact Hall|exact Hall'].
    intros [c ca] [x xa] [x' xa'] [H1 H2] [H1' H2']. cbn [fst snd] in *.
    assert (Hx16 : 0 <= Z.lxor x xa < 2 ^ 16)
      by (apply lxor_below; [lia | apply H1 | apply H2]).
    assert (Hx16' : 0 <= Z.lxor x' xa' < 2 ^ 16)
      by (apply lxor_below; [lia | apply H1' | apply H2']).
    assert (Hnibs : forall j, 0 <= j < 4 ->
              nibble (Z.lxor x xa) j = nibble beta j
              <-> nibble (Z.lxor x' xa') j = nibble beta j).
    { intros j Hj. rewrite !nibble_lxor by lia.
      destruct (decide (nibble beta j = 0)) as [Hz|Hact].
      - rewrite Hz.
        assert (Hzero : forall u v, Z.lxor u v = 0 <-> u = v).
        { intros u v. split; [apply Z.lxor_eq | intros ->; apply Z.lxor_nilpotent]. }
        rewrite !Hzero.
        rewrite (substituted_nibble_collide _ c ca key_guess x xa j Hb H1 H2 Hj).
        rewrite (substituted_nibble_collide _ c ca key_guess' x' xa' j Hb H1' H2' Hj).
        done.
      - rewrite (substituted_nibble_key _ c key_guess key_guess' x x' j H1 H1' Hj)
          by by apply Hnib.
        rewrite (substituted_nibble_key _ ca key_guess key_guess' xa xa' j H2 H2' Hj)
          by by apply Hnib.
        done. }
    split; intros Heq; apply nibbles_eq; try done; intros j Hj; apply Hnibs; try done;
      by rewrite Heq.
Qed.

Lemma target_elem (beta p : Z) :
  p ∈ FP.get_target_partial_subkey beta -> nibble beta (p / 4) ≠ 0.
Proof.
  rewrite target_eq. unfold target_bits_spec. rewrite elem_of_union_list.
  intros (X & HX & Hp). apply list_elem_of_fmap in HX as (j & -> & Hj).
  apply list_elem_of_filter in Hj as [Hact Hj]. apply elem_of_seqZ in Hj.
  unfold nibble_positions in Hp.
  assert (Hr : j * 4 <= p < j * 4 + 4) by (set_unfold; lia).
  assert (p / 4 = j) as ->
    by (symmetry; apply (Z.div_unique p 4 j (p - j * 4)); lia).
  done.
Qed.

Lemma score_depends_on_target_bits_witness :
  guess_score (Cryptanalysis.__init__ test_framework) 1 256
              [(0x1234, 0x5678); (1, 2)] 0
  = guess_score (Cryptanalysis.__init__ test_framework) 1 256
                [(0x1234, 0x5678); (1, 2)] 0xF0FF.
Proof.
  apply score_depends_on_target_bits.
  - unfold bijection16. compute_done.
  - left. reflexivity.
  - lia.
  - intros p Hp. pose proof (target_range _ _ Hp) as Hr.
    apply target_elem in Hp.
    assert (Hc : p = 0 \/ p = 1 \/ p = 2 \/ p = 3 \/ p = 4 \/ p = 5 \/ p = 6 \/ p = 7 \/
                 p = 8 \/ p = 9 \/ p = 10 \/ p = 11 \/ p = 12 \/ p = 13 \/ p = 14 \/
                 p = 15) by lia.
    repeat (destruct Hc as [->|Hc]); try subst p;
      first [reflexivity | exfalso; apply Hp; reflexivity].
Defined.

(** ** Recovery of all key bits *)

Lemma land_1_cases (x : Z) : Z.land x 1 = 0 \/ Z.land x 1 = 1.
Proof. rewrite land_1_testbit. destruct (Z.testbit x 0); [by right | by left]. Qed.

Lemma find_key_bits_values (set_iter : gset Z -> list Z) (self : Cryptanalysis.t)
    (alpha beta : Z) (attack_samples : list (Z * Z)) (bits : gmap Z Z) (q : Q)
    (p v : Z) :
  Cryptanalysis._find_key_bits set_iter self alpha beta attack_samples
  = Ok (Some (bits, q)) ->
  bits !! p = Some v -> v = 0 \/ v = 1.
Proof.
  intros H. unfold Cryptanalysis._find_key_bits in H.
  destruct (for_each _ _ _) as [b|] in H; [|discriminate]. rewrite bind_Ok in H.
  assert (bits = foldl (fun recovered_bits '(i, bit_pos) =>
                          <[bit_pos := Z.land (Z.shiftr (Cryptanalysis.best_key_guess b)
                                                        bit_pos) 1]> recovered_bits)
                       (∅ : gmap Z Z)
                       (Cryptanalysis.enumerate
                          (set_iter (FP.get_target_partial_subkey beta)))) as ->.
  { repeat (destruct (decide _) in H); congruence. }
  rewrite (recovered_lookup
             (fun bp => Z.land (Z.shiftr (Cryptanalysis.best_key_guess b) bp) 1)).
  clear H. destruct (decide (p ∈ _)); [|by rewrite lookup_empty].
  intros [= <-]. apply land_1_cases.
Qed.

Lemma assemble_key_range (m : gmap Z (Z * Q)) :
  (forall p, is_Some (m !! p) -> 0 <= p < 16) ->
  0 <= Cryptanalysis.assemble_key m < 2 ^ 16.
Proof.
  intros Hdom. set (key := Cryptanalysis.assemble_key m).
  assert (Hnn : 0 <= key).
  { unfold key, Cryptanalysis.assemble_key.
    apply (map_fold_weak_ind (fun (key : Z) (_ : gmap Z (Z * Q)) => 0 <= key)); [done|].
    intros i [v s] m' r _ IH. destruct (decide _); [|done].
    rewrite Z.lor_nonneg, Z.shiftl_nonneg. lia. }
  split; [done|].
  destruct (decide (key = 0)) as [->|Hne]; [done|].
  apply Z.log2_lt_pow2; [lia|].
  destruct (decide (Z.log2 key < 16)) as [|Hge]; [done|].
  assert (Hbit : Z.testbit key (Z.log2 key) = true) by (apply Z.bit_log2; lia).
  unfold key in Hbit at 1. rewrite assemble_key_testbit in Hbit by (apply Z.log2_nonneg).
  destruct (m !! Z.log2 key) as [[v s]|] eqn:Hm; [|done].
  destruct (Hdom (Z.log2 key)); [eauto | lia].
Qed.

(** X22. With a solver whose models satisfy the assertions, when
    [find_last_round_key] returns a key, every one of the 16 bit positions
    has been recovered by some characteristic, with a value [0] or [1], and
    the bit of the key at that position is the value kept for it. Hence, if
    each characteristic recovered the bits of a 16-bit key [K] at its
    positions, the returned key is [K]. *)
Theorem every_key_bit_is_recovered (check : CS.checker)
    (randint : nat -> Z) (set_iter : gset Z -> list Z)
    (self : Cryptanalysis.t) (k : nat) (num_attack_samples key : Z) :
  sound check -> set_order set_iter ->
  Cryptanalysis.find_last_round_key check randint set_iter self k num_attack_samples
  = Ok key ->
  exists chars rs,
    FP.generate_characteristics check (Cryptanalysis.framework self) = Ok chars /\
    Forall2 (outcome_of set_iter self) chars rs /\
    dom (merge_all rs) = list_to_set (seqZ 0 16) /\
    (forall p, 0 <= p < 16 ->
       exists v s, kept_from rs p v s /\ (v = 0 \/ v = 1) /\
                   Z.testbit key p = bool_decide (v = 1)) /\
    (forall K, 0 <= K < 2 ^ 16 ->
       (forall r p v, r ∈ rs -> r.1 !! p = Some v -> v = Z.land (Z.shiftr K p) 1) ->
       key = K).
Proof.
  intros Hsound Hord H. unfold Cryptanalysis.find_last_round_key in H.
  destruct (FP.generate_characteristics check (Cryptanalysis.framework self))
    as [chars|] eqn:Hgen; [|discriminate].
  rewrite bind_Ok in H.
  destruct (for_each chars _ _) as [[m k']|] eqn:Hloop; [|discriminate].
  cbn in H. injection H as <-.
  destruct (attack_loop _ _ _ _ _ _ _ _ _ Hloop) as (rs & Hrs & ->).
  fold (merge_all rs).
  pose proof (generate_characteristics_covers _ _ _ Hsound Hgen) as Hcov.
  (* the positions each outcome holds *)
  assert (Hdom_r : forall (i : nat) c r, chars !! i = Some c -> rs !! i = Some r ->
            dom r.1 = FP.get_target_partial_subkey c.1.2 /\
            forall p v, r.1 !! p = Some v -> v = 0 \/ v = 1).
  { intros i [[alpha beta] sc] [bits q] Hc Hr.
    destruct (Forall2_lookup_lr _ _ _ _ _ _ Hrs Hc Hr) as (samples & Hfind).
    cbn in Hfind. cbn [fst snd]. split.
    - by eapply find_key_bits_dom.
    - intros p v Hv. by eapply find_key_bits_values. }
  assert (Hin_r : forall r p, r ∈ rs -> is_Some (r.1 !! p) -> 0 <= p < 16).
  { intros r p Hr Hp. apply list_elem_of_lookup_1 in Hr as [i Hi].
    destruct (Forall2_lookup_r _ _ _ _ _ Hrs Hi) as (c & Hc & _).
    destruct (Hdom_r i c r Hc Hi) as [Hd _].
    apply elem_of_dom in Hp. rewrite Hd in Hp. by apply target_range in Hp. }
  assert (Hval_r : forall r p v, r ∈ rs -> r.1 !! p = Some v -> v = 0 \/ v = 1).
  { intros r p v Hr Hv. apply list_elem_of_lookup_1 in Hr as [i Hi].
    destruct (Forall2_lookup_r _ _ _ _ _ Hrs Hi) as (c & Hc & _).
    destruct (Hdom_r i c r Hc Hi) as [_ Hvals]. by eapply Hvals. }
  assert (Hcover : forall p, 0 <= p < 16 -> exists r, r ∈ rs /\ is_Some (r.1 !! p)).
  { intros p Hp.
    assert (Hq : 0 <= p / 4 < 4)
      by (split; [apply Z.div_pos | apply Z.div_lt_upper_bound]; lia).
    pose proof (Forall2_length _ _ _ Hcov) as Hlen. unfold range in Hlen.
    rewrite length_seqZ in Hlen.
    destruct (lookup_lt_is_Some_2 chars (Z.to_nat (p / 4))) as [c Hc]; [lia|].
    destruct (Forall2_lookup_l _ _ _ _ _ Hrs Hc) as (r & Hr & _).
    exists r. split; [by eapply list_elem_of_lookup_2|].
    destruct (Hdom_r _ c r Hc Hr) as [Hd _]. apply elem_of_dom. rewrite Hd.
    assert (Hcn : covers_nibble (p / 4) c).
    { eapply (Forall2_lookup_lr _ _ _ (Z.to_nat (p / 4))); [exact Hcov | | exact Hc].
      unfold range. rewrite (lookup_seqZ_lt 0 4) by lia. f_equal. lia. }
    destruct Hcn as (_ & _ & _ & Hnib).
    apply (target_contains _ (p / 4)); [done | done |].
    pose proof (Z.div_mod p 4). pose proof (Z.mod_pos_bound p 4). lia. }
  assert (Hkept : forall p, 0 <= p < 16 ->
            exists v s, merge_all rs !! p = Some (v, s) /\ kept_from rs p v s /\
                        (v = 0 \/ v = 1)).
  { intros p Hp. destruct (Hcover p Hp) as (r & Hr & Hsome).
    pose proof (merge_all_lookup rs p) as Hm.
    destruct (merge_all rs !! p) as [[v s]|] eqn:Hlook.
    - exists v, s. split; [done|]. split; [done|].
      destruct Hm as (before & g & after & -> & Hg & _).
      apply (Hval_r (g, s) p v); [|done]. apply elem_of_app. right. left.
    - rewrite (Hm r Hr) in Hsome. by destruct Hsome. }
  assert (Hdom : forall p, is_Some (merge_all rs !! p) -> 0 <= p < 16).
  { intros p [[v s] Hp]. pose proof (merge_all_lookup rs p) as Hm. rewrite Hp in Hm.
    destruct Hm as (before & g & after & -> & Hg & _).
    apply (Hin_r (g, s) p); [|cbn; eauto]. apply elem_of_app. right. left. }
  exists chars, rs. split; [done|]. split; [done|]. split; [|split].
  - apply set_eq. intros p. rewrite elem_of_dom, elem_of_list_to_set, elem_of_seqZ.
    split; [intros Hp; apply Hdom in Hp; lia|].
    intros Hp. destruct (Hkept p) as (v & s & Hlook & _); [lia | eauto].
  - intros p Hp. destruct (Hkept p Hp) as (v & s & Hlook & Hk & Hv).
    exists v, s. split; [done|]. split; [done|].
    rewrite assemble_key_testbit by lia. rewrite Hlook.
    destruct Hv as [-> | ->]; done.
  - intros K HK Hright.
    apply (bits_eq_below _ K 16); [lia | by apply assemble_key_range | done |].
    intros p Hp. destruct (Hkept p Hp) as (v & s & Hlook & Hk & _).
    rewrite assemble_key_testbit by lia. rewrite Hlook.
    destruct Hk as (before & g & after & -> & Hg & _).
    rewrite (Hright (g, s) p v); [| apply elem_of_app; right; left | done].
    rewrite land_1_testbit, Z.shiftr_spec, Z.add_0_l by lia.
    by destruct (Z.testbit K p).
Qed.

Lemma every_key_bit_is_recovered_witness :
  Cryptanalysis.find_last_round_key test_solver test_randint elements
    (Cryptanalysis.__init__ test_framework) 0 2 = Ok 0x0AA0 /\
  exists chars rs,
    FP.generate_characteristics test_solver test_framework = Ok chars /\
    Forall2 (outcome_of elements (Cryptanalysis.__init__ test_framework)) chars rs /\
    dom (merge_all rs) = list_to_set (seqZ 0 16) /\
    (forall p, 0 <= p < 16 ->
       exists v s, kept_from rs p v s /\ (v = 0 \/ v = 1) /\
                   Z.testbit 0x0AA0 p = bool_decide (v = 1)) /\
    (forall K, 0 <= K < 2 ^ 16 ->
       (forall r p v, r ∈ rs -> r.1 !! p = Some v -> v = Z.land (Z.shiftr K p) 1) ->
       0x0AA0 = K).
Proof.
  assert (Hrun : Cryptanalysis.find_last_round_key test_solver test_randint elements
                   (Cryptanalysis.__init__ test_framework) 0 2 = Ok 0x0AA0)
    by (vm_compute; reflexivity).
  split; [exact Hrun|].
  apply (every_key_bit_is_recovered test_solver test_randint elements
           (Cryptanalysis.__init__ test_framework) 0 2 0x0AA0).
  - apply candidate_solver_sound.
  - intros s. reflexivity.
  - exact Hrun.
Defined.
